(** * A shallow embedding of the [diff] package (github.com/achu-1612/diff)

    The development follows the Go sources:
    - the binary delta matcher [GenericBinaryHandler],
    - the line-oriented [TextFileHandler] (text.go),
    - the directory orchestrator [DiffEngine],
    - the data model of models.go and the helpers of utils.go.

    Conventions of the embedding.
    - [[]byte] is [list byte]; a slice expression [x[lo:hi]] is checked
      against [len x] and panics out of range, as Go does (buffers are
      taken with capacity equal to length).
    - [int] and [int64] are [Z].  Every offset the code computes is bounded
      by the sum of the two buffer lengths, so no 64-bit wrap-around occurs;
      the [uint32] hash accumulator wraps and its wrap-around is written out.
    - [float64] is [R].  The entropy is a sum over a Go map, whose iteration
      order is unspecified, so the rounded sum is not a function of the
      input; over the reals the sum does not depend on the order.
      [math.Log2] is the binary logarithm.
    - A Go function that can panic or loop forever returns a [result]. *)

From Stdlib Require Import ZArith List Lia Reals Lra String.
From Stdlib.Strings Require Import Byte.
From stdpp Require Import base gmap list strings.

Local Open Scope Z_scope.

(** ** Outcomes of a Go call *)

Inductive result (A : Type) : Type :=
| Ok (a : A)     (* normal return *)
| Panic          (* run-time panic: a slice out of range, a nil writer, ... *)
| Diverge.       (* the call never returns: an endless loop, a send that blocks *)
Arguments Ok {A} a.
Arguments Panic {A}.
Arguments Diverge {A}.

#[global] Instance result_ret : MRet result := fun A a => Ok a.
#[global] Instance result_bind : MBind result := fun A B f r =>
  match r with
  | Ok a => f a
  | Panic => Panic
  | Diverge => Diverge
  end.

(** ** Bytes and slices *)

#[global] Instance byte_eq_dec : EqDecision byte := Byte.byte_eq_dec.
#[global] Instance byte_countable : Countable byte :=
  inj_countable Byte.to_N Byte.of_N Byte.of_to_N.

Definition len {A : Type} (l : list A) : Z := Z.of_nat (length l).

(** [x[lo:]] *)
Definition slice_from {A : Type} (x : list A) (lo : Z) : result (list A) :=
  if bool_decide (0 <= lo <= len x) then Ok (drop (Z.to_nat lo) x) else Panic.

(** [x[lo:hi]] *)
Definition slice {A : Type} (x : list A) (lo hi : Z) : result (list A) :=
  if bool_decide (0 <= lo <= hi /\ hi <= len x)
  then Ok (take (Z.to_nat (hi - lo)) (drop (Z.to_nat lo) x))
  else Panic.

(** ** models.go *)

Record DiffChunk : Type := mkDiffChunk {
  Offset : Z;
  OldData : list byte;
  NewData : list byte;
  ChunkType : string
}.

(** ** The binary handler [GenericBinaryHandler] *)

Module Binary.

Record BinaryDiffStats : Type := mkBinaryDiffStats {
  MatchCount : Z;
  TotalMatchedBytes : Z;
  LargestMatch : Z;
  SmallestMatch : Z;
  AverageMatchSize : R;
  ChunkCount : Z;
  CompressionRatio : R;
  Entropy : R
}.

Record binaryMatch : Type := mkBinaryMatch {
  OldOffset : Z;
  NewOffset : Z;
  Length : Z
}.

Record GenericBinaryHandler : Type := mkGenericBinaryHandler {
  MinMatchLength : Z;
  MaxGapSize : Z;
  ChunkSize : Z;
  Stats : BinaryDiffStats
}.

(** The zero value [&BinaryDiffStats{}]. *)
Definition zeroStats : BinaryDiffStats :=
  mkBinaryDiffStats 0 0 0 0 0%R 0 0%R 0%R.

Definition NewGenericBinaryHandler : GenericBinaryHandler :=
  {| MinMatchLength := 8; MaxGapSize := 1024; ChunkSize := 4096;
     Stats := zeroStats |}.

(** *** rollingHash *)

Definition wrap32 (x : Z) : Z := x mod 2 ^ 32.

Definition byteZ (b : byte) : Z := Z.of_N (Byte.to_N b).

Definition rollingHash (data : list byte) (window : Z) : Z :=
  if bool_decide (len data < window) then 0
  else foldl (fun hash b => wrap32 (wrap32 (Z.shiftl hash 1) + byteZ b))
             0 (take (Z.to_nat window) data).

(** *** extendMatch: the length of the common prefix, capped by the shorter
    buffer ([maxLen] goes through [float64], which is exact for lengths
    below 2^53). *)

Fixpoint extendMatch (old new : list byte) : Z :=
  match old, new with
  | a :: old', b :: new' =>
      if bool_decide (a = b) then 1 + extendMatch old' new' else 0
  | _, _ => 0
  end.

(** *** mergeAdjacentMatches *)

Fixpoint mergeLoop (maxGap : Z) (current : binaryMatch)
    (rest merged : list binaryMatch) : list binaryMatch :=
  match rest with
  | [] => merged ++ [current]
  | next :: rest' =>
      let gapOld := OldOffset next - (OldOffset current + Length current) in
      let gapNew := NewOffset next - (NewOffset current + Length current) in
      if bool_decide (gapOld <= maxGap) && bool_decide (gapNew <= maxGap)
      then mergeLoop maxGap
             {| OldOffset := OldOffset current;
                NewOffset := NewOffset current;
                Length := NewOffset next + Length next - NewOffset current |}
             rest' merged
      else mergeLoop maxGap next rest' (merged ++ [current])
  end.

Definition mergeAdjacentMatches (h : GenericBinaryHandler)
    (matches : list binaryMatch) : list binaryMatch :=
  if bool_decide (len matches < 2) then matches
  else match matches with
       | current :: rest => mergeLoop (MaxGapSize h) current rest []
       | [] => matches
       end.

(** *** findMatches *)

(** The first loop: index [old] at stride [MinMatchLength]. *)
Fixpoint indexLoop (fuel : nat) (h : GenericBinaryHandler) (old : list byte)
    (i : Z) (hashTable : gmap Z (list Z)) : result (gmap Z (list Z)) :=
  match fuel with
  | O => Diverge
  | S fuel' =>
      if bool_decide (i <= len old - MinMatchLength h) then
        d ← slice_from old i;
        let hash := rollingHash d (MinMatchLength h) in
        indexLoop fuel' h old (i + MinMatchLength h)
          (<[hash := default [] (hashTable !! hash) ++ [i]]> hashTable)
      else Ok hashTable
  end.

(** The inner loop over the candidate positions of one bucket: the first
    candidate whose verified extension reaches [MinMatchLength]. *)
Fixpoint tryPositions (h : GenericBinaryHandler) (old new : list byte)
    (i : Z) (positions : list Z) : result (option binaryMatch) :=
  match positions with
  | [] => Ok None
  | pos :: positions' =>
      o ← slice_from old pos;
      n ← slice_from new i;
      let matchLen := extendMatch o n in
      if bool_decide (matchLen >= MinMatchLength h)
      then Ok (Some {| OldOffset := pos; NewOffset := i; Length := matchLen |})
      else tryPositions h old new i positions'
  end.

(** The second loop: scan [new]. *)
Fixpoint scanLoop (fuel : nat) (h : GenericBinaryHandler)
    (hashTable : gmap Z (list Z)) (old new : list byte)
    (i : Z) (matches : list binaryMatch) : result (list binaryMatch) :=
  match fuel with
  | O => Diverge
  | S fuel' =>
      if bool_decide (i <= len new - MinMatchLength h) then
        d ← slice_from new i;
        let hash := rollingHash d (MinMatchLength h) in
        match hashTable !! hash with
        | Some positions =>
            found ← tryPositions h old new i positions;
            match found with
            | Some mt =>
                scanLoop fuel' h hashTable old new
                  (i + (Length mt - 1) + MinMatchLength h) (matches ++ [mt])
            | None =>
                scanLoop fuel' h hashTable old new (i + MinMatchLength h) matches
            end
        | None =>
            scanLoop fuel' h hashTable old new (i + MinMatchLength h) matches
        end
      else Ok matches
  end.

Definition findMatches (h : GenericBinaryHandler) (old new : list byte)
    : result (list binaryMatch) :=
  if bool_decide (len old = 0) || bool_decide (len new = 0) then Ok []
  else
    hashTable ← indexLoop (S (length old)) h old 0 ∅;
    matches ← scanLoop (S (length new)) h hashTable old new 0 [];
    Ok (mergeAdjacentMatches h matches).

(** *** calculateEntropy *)

Definition Log2 (x : R) : R := (ln x / ln 2)%R.

(** [freq[b]++] *)
Definition countStep (freq : gmap byte Z) (b : byte) : gmap byte Z :=
  <[b := default 0 (freq !! b) + 1]> freq.

Definition countBytes (data : list byte) : gmap byte Z :=
  foldl countStep ∅ data.

Definition calculateEntropy (data : list byte) : R :=
  if bool_decide (len data = 0) then 0%R
  else
    let freq := countBytes data in
    let dataLen := IZR (len data) in
    (map_fold (fun _ count entropy =>
                 let p := (IZR count / dataLen)%R in
                 (entropy - p * Log2 p)%R) 0%R freq / 8)%R.

(** *** OptimizeBinaryDiff *)

Definition OptimizeBinaryDiff (h : GenericBinaryHandler)
    (sampleData : list byte) : GenericBinaryHandler :=
  let entropy := calculateEntropy sampleData in
  let dataSize := len sampleData in
  let h1 :=
    if Rgt_dec entropy 0.8 then
      {| MinMatchLength := 16; MaxGapSize := 256; ChunkSize := 8192;
         Stats := Stats h |}
    else if Rgt_dec entropy 0.5 then
      {| MinMatchLength := 8; MaxGapSize := 1024; ChunkSize := 4096;
         Stats := Stats h |}
    else
      {| MinMatchLength := 4; MaxGapSize := 2048; ChunkSize := 2048;
         Stats := Stats h |} in
  if bool_decide (dataSize > 10 * 1024 * 1024) then
    {| MinMatchLength := MinMatchLength h1 + 8; MaxGapSize := MaxGapSize h1;
       ChunkSize := ChunkSize h1 * 4; Stats := Stats h1 |}
  else if bool_decide (dataSize > 1024 * 1024) then
    {| MinMatchLength := MinMatchLength h1 + 4; MaxGapSize := MaxGapSize h1;
       ChunkSize := ChunkSize h1 * 2; Stats := Stats h1 |}
  else h1.

(** *** AnalyzeBinaryDiff *)

(** The loop over the matches: running total, largest and smallest. *)
Definition analyzeLoop (matches : list binaryMatch) (largest smallest : Z)
    : Z * Z * Z :=
  foldl (fun '(totalSize, largest, smallest) mt =>
           (totalSize + Length mt,
            if bool_decide (Length mt > largest) then Length mt else largest,
            if bool_decide (Length mt < smallest) then Length mt else smallest))
        (0, largest, smallest) matches.

Definition AnalyzeBinaryDiff (h : GenericBinaryHandler) (old new : list byte)
    : result BinaryDiffStats :=
  matches ← findMatches h old new;
  if bool_decide (len matches = 0) then
    Ok {| MatchCount := len matches; TotalMatchedBytes := 0;
          LargestMatch := 0; SmallestMatch := MinMatchLength h;
          AverageMatchSize := 0%R; ChunkCount := 0;
          CompressionRatio := 1%R; Entropy := 0%R |}
  else
    let '(totalSize, largest, smallest) :=
      analyzeLoop matches 0 (MinMatchLength h) in
    Ok {| MatchCount := len matches; TotalMatchedBytes := totalSize;
          LargestMatch := largest; SmallestMatch := smallest;
          AverageMatchSize := (IZR totalSize / IZR (len matches))%R;
          ChunkCount := 0;
          CompressionRatio := (IZR (len new) / IZR totalSize)%R;
          Entropy := calculateEntropy new |}.

(** *** Compare *)

(** The loop over the matches: one chunk for the gap before each match. *)
Fixpoint chunkLoop (old new : list byte) (matches : list binaryMatch)
    (lastOldEnd lastNewEnd : Z) (chunks : list DiffChunk)
    : result (list DiffChunk * Z * Z) :=
  match matches with
  | [] => Ok (chunks, lastOldEnd, lastNewEnd)
  | mt :: matches' =>
      chunks' ←
        (if bool_decide (NewOffset mt > lastNewEnd) then
           od ← slice old lastOldEnd (OldOffset mt);
           nd ← slice new lastNewEnd (NewOffset mt);
           Ok (chunks ++ [ {| Offset := lastOldEnd; OldData := od;
                              NewData := nd; ChunkType := "binary" |} ])
         else Ok chunks);
      chunkLoop old new matches'
        (OldOffset mt + Length mt) (NewOffset mt + Length mt) chunks'
  end.

(** The chunks of [Compare] for buffers that differ, from the tuned
    handler. *)
Definition compareChunks (h : GenericBinaryHandler) (old new : list byte)
    : result (list DiffChunk) :=
  matches ← findMatches h old new;
  '(chunks, lastOldEnd, lastNewEnd) ← chunkLoop old new matches 0 0 [];
  if bool_decide (lastNewEnd < len new) then
    od ← slice_from old lastOldEnd;
    nd ← slice_from new lastNewEnd;
    Ok (chunks ++ [ {| Offset := lastOldEnd; OldData := od;
                       NewData := nd; ChunkType := "binary" |} ])
  else Ok chunks.

(** The stats [Compare] stores: those of [AnalyzeBinaryDiff] with the chunk
    count and the entropy filled in. *)
Definition compareStats (stats : BinaryDiffStats) (chunks : list DiffChunk)
    (new : list byte) : BinaryDiffStats :=
  {| MatchCount := MatchCount stats;
     TotalMatchedBytes := TotalMatchedBytes stats;
     LargestMatch := LargestMatch stats;
     SmallestMatch := SmallestMatch stats;
     AverageMatchSize := AverageMatchSize stats;
     ChunkCount := len chunks;
     CompressionRatio := CompressionRatio stats;
     Entropy := calculateEntropy new |}.

Definition setStats (h : GenericBinaryHandler) (s : BinaryDiffStats)
    : GenericBinaryHandler :=
  {| MinMatchLength := MinMatchLength h; MaxGapSize := MaxGapSize h;
     ChunkSize := ChunkSize h; Stats := s |}.

(** [Compare] mutates its receiver: the state after the call comes first. *)
Definition Compare (h : GenericBinaryHandler) (old new : list byte)
    : GenericBinaryHandler * result (list DiffChunk) :=
  if bool_decide (old = new) then (h, Ok [])
  else
    let h1 := OptimizeBinaryDiff h new in
    match compareChunks h1 old new with
    | Ok chunks =>
        match AnalyzeBinaryDiff h1 old new with
        | Ok stats => (setStats h1 (compareStats stats chunks new), Ok chunks)
        | Panic => (h1, Panic)
        | Diverge => (h1, Diverge)
        end
    | Panic => (h1, Panic)
    | Diverge => (h1, Diverge)
    end.

(** *** Patch, GetLatestStats, GetFileType *)

Fixpoint patchLoop (original : list byte) (chunks : list DiffChunk)
    (lastOffset : Z) (res : list byte) : result (list byte * Z) :=
  match chunks with
  | [] => Ok (res, lastOffset)
  | chunk :: chunks' =>
      res' ←
        (if bool_decide (Offset chunk > lastOffset) then
           s ← slice original lastOffset (Offset chunk);
           Ok (res ++ s)
         else Ok res);
      patchLoop original chunks'
        (Offset chunk + len (OldData chunk)) (res' ++ NewData chunk)
  end.

Definition Patch (original : list byte) (chunks : list DiffChunk)
    : result (list byte) :=
  if bool_decide (len chunks = 0) then Ok original
  else
    '(res, lastOffset) ← patchLoop original chunks 0 [];
    if bool_decide (lastOffset < len original) then
      s ← slice_from original lastOffset;
      Ok (res ++ s)
    else Ok res.

Definition GetLatestStats (h : GenericBinaryHandler) : BinaryDiffStats :=
  Stats h.

Definition GetFileType : string := "binary".

End Binary.

(** ** The text handler [TextFileHandler] (text.go) *)

Module Text.

Definition newline : byte := x0a.

(** [bytes.Split(s, []byte{'\n'})]: the pieces between line feeds; an empty
    buffer gives one empty piece. *)
Fixpoint splitLines (s : list byte) : list (list byte) :=
  match s with
  | [] => [[]]
  | b :: s' =>
      if bool_decide (b = newline) then [] :: splitLines s'
      else match splitLines s' with
           | line :: lines => (b :: line) :: lines
           | [] => [[b]]
           end
  end.

(** The line-by-line loop, up to the shorter of the two line lists. *)
Fixpoint lineLoop (oldLines newLines : list (list byte)) (offset : Z)
    (chunks : list DiffChunk) : list DiffChunk :=
  match oldLines, newLines with
  | o :: oldLines', n :: newLines' =>
      lineLoop oldLines' newLines' (offset + len o + 1)
        (if bool_decide (o = n) then chunks
         else chunks ++ [ {| Offset := offset; OldData := o; NewData := n;
                             ChunkType := "text" |} ])
  | _, _ => chunks
  end.

Definition Compare (old new : list byte) : list DiffChunk :=
  if bool_decide (old = new) then []
  else lineLoop (splitLines old) (splitLines new) 0 [].

Fixpoint patchLoop (original : list byte) (chunks : list DiffChunk)
    (lastOffset : Z) (res : list byte) : result (list byte * Z) :=
  match chunks with
  | [] => Ok (res, lastOffset)
  | chunk :: chunks' =>
      s ← slice original lastOffset (Offset chunk);
      patchLoop original chunks'
        (Offset chunk + len (OldData chunk)) ((res ++ s) ++ NewData chunk)
  end.

Definition Patch (original : list byte) (chunks : list DiffChunk)
    : result (list byte) :=
  if bool_decide (len chunks = 0) then Ok original
  else
    '(res, lastOffset) ← patchLoop original chunks 0 [];
    if bool_decide (lastOffset < len original) then
      s ← slice_from original lastOffset;
      Ok (res ++ s)
    else Ok res.

Definition GetFileType : string := "text".

End Text.

(** ** The engine [DiffEngine], with the directory-level types of models.go *)

Module Engine.

(** A Go [error] value, by its message. *)
Definition error : Type := string.

(** [os.FileInfo], by the methods the engine calls. *)
Record FileInfo : Type := mkFileInfo {
  InfoIsDir : bool;
  InfoSize : Z;
  InfoModTime : Z;
  InfoMode : Z
}.

Record DiffResult : Type := mkDiffResult {
  Path : string;
  Operation : string;
  OldHash : string;
  NewHash : string;
  Chunks : list DiffChunk;
  FileType : string;
  Size : Z;
  ModTime : Z;
  Permissions : Z;
  IsCompressed : bool
}.

(** [StartTime] and [EndTime] are wall-clock readings and are left out. *)
Record DiffSummary : Type := mkDiffSummary {
  TotalFiles : Z;
  AddedFiles : Z;
  ModifiedFiles : Z;
  DeletedFiles : Z;
  TotalSizeBytes : Z;
  CompressedBytes : Z;
  FileTypes : gmap string Z
}.

Record Configuration : Type := mkConfiguration {
  CompressPatches : bool;
  CompressionLevel : Z;
  ChunkSize : Z;
  Concurrency : Z;
  IgnorePatterns : list string;
  IncludePatterns : list string;
  PreservePermissions : bool;
  MaxFileSizeBytes : Z;
  BackupFiles : bool;
  BackupDir : string;
  DetailedLogging : bool
}.

(** [gzip.BestCompression] is 9. *)
Definition DefaultConfig : Configuration :=
  {| CompressPatches := true;
     CompressionLevel := 9;
     ChunkSize := 1024 * 1024;
     Concurrency := 4;
     IgnorePatterns := [];
     IncludePatterns := [];
     PreservePermissions := true;
     MaxFileSizeBytes := 1024 * 1024 * 100;
     BackupFiles := true;
     BackupDir := "";
     DetailedLogging := false |}.

(** The [FileHandler] interface.  A call of [Compare] or [Patch] returns
    the pair the Go method returns, panics, or never returns.  A handler
    answers as a function of its arguments.  The built-in
    [GenericBinaryHandler] is one object shared by all goroutines and
    writes its tuning fields in [Compare] without a lock: called by one
    goroutine at a time its chunks depend on the two buffers only, and
    what it answers when two calls overlap is not described here. *)
Record FileHandler : Type := mkFileHandler {
  Compare : list byte -> list byte -> result (list DiffChunk * option error);
  Patch : list byte -> list DiffChunk -> result (list byte * option error);
  GetFileType : string
}.

Record DiffEngine : Type := mkDiffEngine {
  handlers : gmap string FileHandler;
  defaultHandler : FileHandler;
  config : Configuration
}.

(** What the log sink receives. *)
Inductive LogEntry : Type :=
| LogSkipLarge (path : string) (size : Z)
| LogCompareError (relPath : string) (err : error).

(** [Logger.Log] takes the logger's lock, so the sink receives the lines of
    the walk and the lines of the goroutines one after the other, in the
    order the callers arrive: an interleaving of the two sequences.  The
    scheduler's choices are a list of booleans, [true] for the walk. *)
Fixpoint interleave (sched : list bool) (walk goroutines : list LogEntry)
    : list LogEntry :=
  match sched with
  | [] => walk ++ goroutines
  | true :: sched' =>
      match walk with
      | w :: walk' => w :: interleave sched' walk' goroutines
      | [] => goroutines
      end
  | false :: sched' =>
      match goroutines with
      | g :: goroutines' => g :: interleave sched' walk goroutines'
      | [] => walk
      end
  end.

(** One call of [filepath.Walk] to its callback. *)
Record Visit : Type := mkVisit {
  vPath : string;
  vInfo : FileInfo;
  vErr : option error
}.

(** What [os.ReadFile] returns: the data, or an error together with what
    [os.IsNotExist] answers on it. *)
Inductive ReadResult : Type :=
| ReadData (data : list byte)
| ReadError (err : error) (isNotExist : bool).

(** A dispatched goroutine: [path], [relPath], [info]. *)
Record Job : Type := mkJob {
  jPath : string;
  jRelPath : string;
  jInfo : FileInfo
}.

(** The operating system and the Go libraries the engine calls.
    [Walk root] lists the calls [filepath.Walk] makes to its callback for as
    long as the callback returns nil.  [completion] is the order in which
    the dispatched goroutines enter the critical section or write their
    log line: the scheduler chooses it, and it is some rearrangement of the
    order of dispatch.  [logSchedule] is the order in which the lines of
    the walk and of the goroutines reach the log.  Not every rearrangement
    and interleaving can occur (the admission gate and the order of
    dispatch exclude some); every one a run can produce is among them. *)
Record OS : Type := mkOS {
  ReadFile : string -> ReadResult;
  StatNotExist : string -> bool;
  Walk : string -> list Visit;
  Rel : string -> string -> error + string;
  Join : string -> string -> string;
  Base : string -> string;
  Ext : string -> string;
  ToLower : string -> string;
  Match : string -> string -> bool;
  fileHash : string -> string;
  gzip : list byte -> Z -> list byte;
  logSchedule : list bool;
  completion : list Job -> list Job;
  completion_perm : forall jobs, completion jobs ≡ₚ jobs
}.

(** [RegisterHandler]: [e.handlers[ext] = handler], under the lock. *)
Definition RegisterHandler (e : DiffEngine) (ext : string)
    (handler : FileHandler) : DiffEngine :=
  {| handlers := <[ext := handler]> (handlers e);
     defaultHandler := defaultHandler e;
     config := config e |}.

Section WithOS.
Context (os : OS).

(** utils.go *)
Definition calculateHash (path : string) : string := fileHash os path.

(** [gzip.NewWriterLevel] refuses a level outside [HuffmanOnly] (-2) ..
    [BestCompression] (9) and returns a nil writer; the error is dropped,
    and the write to the nil writer panics. *)
Definition compressData (data : list byte) (compress : bool) (level : Z)
    : result (list byte) :=
  if negb compress then Ok data
  else if bool_decide (-2 <= level <= 9) then Ok (gzip os data level)
  else Panic.

(** The loop [for i := range chunks] that compresses [NewData] in place. *)
Fixpoint compressChunks (chunks : list DiffChunk) (level : Z)
    : result (list DiffChunk) :=
  match chunks with
  | [] => Ok []
  | c :: chunks' =>
      d ← compressData (NewData c) true level;
      rest ← compressChunks chunks' level;
      Ok ({| Offset := Offset c; OldData := OldData c; NewData := d;
             ChunkType := ChunkType c |} :: rest)
  end.

Definition getHandler (e : DiffEngine) (filename : string) : FileHandler :=
  let ext := ToLower os (Ext os filename) in
  match handlers e !! ext with
  | Some handler => handler
  | None => defaultHandler e
  end.

(** [compareFiles] returns [(nil, err)], [(nil, nil)] or [(result, nil)],
    unless the handler or the compression panics or the handler never
    returns. *)
Definition compareFiles (e : DiffEngine) (oldPath newPath : string)
    (newInfo : FileInfo) : result (error + option DiffResult) :=
  match ReadFile os oldPath with
  | ReadError _ true =>
      match ReadFile os newPath with
      | ReadError err _ => Ok (inl err)
      | ReadData newData =>
          d ← compressData newData (CompressPatches (config e))
                (CompressionLevel (config e));
          Ok (inr (Some
            {| Path := Base os newPath;
               Operation := "added";
               OldHash := "";
               NewHash := calculateHash newPath;
               Chunks := [ {| Offset := 0; OldData := []; NewData := d;
                              ChunkType := GetFileType (getHandler e newPath) |} ];
               FileType := GetFileType (getHandler e newPath);
               Size := InfoSize newInfo;
               ModTime := InfoModTime newInfo;
               Permissions := InfoMode newInfo;
               IsCompressed := CompressPatches (config e) |}))
      end
  | ReadError err false => Ok (inl err)
  | ReadData oldData =>
      match ReadFile os newPath with
      | ReadError err _ => Ok (inl err)
      | ReadData newData =>
          if bool_decide (oldData = newData) then Ok (inr None)
          else
            let handler := getHandler e newPath in
            r ← Compare handler oldData newData;
            match r with
            | (_, Some err) => Ok (inl err)
            | (chunks, None) =>
                if bool_decide (len chunks = 0) then Ok (inr None)
                else
                  chunks' ← (if CompressPatches (config e)
                             then compressChunks chunks (CompressionLevel (config e))
                             else Ok chunks);
                  Ok (inr (Some
                    {| Path := Base os newPath;
                       Operation := "modified";
                       OldHash := calculateHash oldPath;
                       NewHash := calculateHash newPath;
                       Chunks := chunks';
                       FileType := GetFileType handler;
                       Size := InfoSize newInfo;
                       ModTime := InfoModTime newInfo;
                       Permissions := InfoMode newInfo;
                       IsCompressed := CompressPatches (config e) |}))
            end
      end
  end.

(** The state the goroutines share: summary and results under [mutex], and
    the lines the goroutines send to the log. *)
Record RunState : Type := mkRunState {
  summary : DiffSummary;
  results : list DiffResult;
  log : list LogEntry
}.

(** The critical section of one goroutine.  [result.Chunks[0]] is read only
    for a compressed result; [compareFiles] never returns one without
    chunks. *)
Definition recordResult (s : DiffSummary) (result : DiffResult)
    (info : FileInfo) : DiffSummary :=
  {| TotalFiles := TotalFiles s + 1;
     AddedFiles :=
       if bool_decide (Operation result = "added") then AddedFiles s + 1
       else AddedFiles s;
     ModifiedFiles :=
       if bool_decide (Operation result = "modified") then ModifiedFiles s + 1
       else ModifiedFiles s;
     DeletedFiles := DeletedFiles s;
     TotalSizeBytes := TotalSizeBytes s + InfoSize info;
     CompressedBytes :=
       if IsCompressed result then
         CompressedBytes s +
         match Chunks result with
         | c :: _ => len (NewData c)
         | [] => 0
         end
       else CompressedBytes s;
     FileTypes :=
       <[FileType result :=
           default 0 (FileTypes s !! FileType result) + 1]> (FileTypes s) |}.

(** The body of one goroutine. *)
Definition runJob (e : DiffEngine) (oldDir : string) (st : RunState)
    (j : Job) : result RunState :=
  let oldPath := Join os oldDir (jRelPath j) in
  r ← compareFiles e oldPath (jPath j) (jInfo j);
  match r with
  | inl err =>
      Ok {| summary := summary st; results := results st;
            log := log st ++ [LogCompareError (jRelPath j) err] |}
  | inr None => Ok st
  | inr (Some result) =>
      Ok {| summary := recordResult (summary st) result (jInfo j);
            results := results st ++ [result];
            log := log st |}
  end.

(** The goroutines, in the order in which they complete. *)
Fixpoint runJobs (e : DiffEngine) (oldDir : string) (st : RunState)
    (jobs : list Job) : result RunState :=
  match jobs with
  | [] => Ok st
  | j :: jobs' =>
      st' ← runJob e oldDir st j;
      runJobs e oldDir st' jobs'
  end.

(** The admission gate [semaphore], a channel of capacity
    [config.Concurrency].  The callback sends on it before it starts a
    goroutine, and the goroutine receives from it when its body is over.
    The send blocks for ever once the goroutines that never return fill the
    channel: with capacity 0 that is at the first file.  A goroutine that
    panics ends the program.  [stuck] counts the goroutines started so far
    that never return; the answer is the count after the last start. *)
Fixpoint startJobs (e : DiffEngine) (oldDir : string) (jobs : list Job)
    (stuck : Z) : result Z :=
  match jobs with
  | [] => Ok stuck
  | j :: jobs' =>
      if bool_decide (Concurrency (config e) <= stuck) then Diverge
      else
        match compareFiles e (Join os oldDir (jRelPath j)) (jPath j) (jInfo j) with
        | Panic => Panic
        | Diverge => startJobs e oldDir jobs' (stuck + 1)
        | Ok _ => startJobs e oldDir jobs' stuck
        end
  end.

(** The line a goroutine logs, if any. *)
Definition jobLog (e : DiffEngine) (oldDir : string) (j : Job) : list LogEntry :=
  match compareFiles e (Join os oldDir (jRelPath j)) (jPath j) (jInfo j) with
  | Ok (inl err) => [LogCompareError (jRelPath j) err]
  | _ => []
  end.

(** The first walk: the callback on each visit, until it returns an error.
    It collects the goroutines it asks to start, in order, and the lines it
    logs; [startJobs] tells whether the walk gets that far. *)
Fixpoint walkNew (e : DiffEngine) (newDir : string) (visits : list Visit)
    (jobs : list Job) (lg : list LogEntry)
    : option error * list Job * list LogEntry :=
  match visits with
  | [] => (None, jobs, lg)
  | v :: visits' =>
      match vErr v with
      | Some err => (Some err, jobs, lg)
      | None =>
          if InfoIsDir (vInfo v) then walkNew e newDir visits' jobs lg
          else if bool_decide (InfoSize (vInfo v) > MaxFileSizeBytes (config e))
          then walkNew e newDir visits' jobs
                 (lg ++ [LogSkipLarge (vPath v) (InfoSize (vInfo v))])
          else
            match Rel os newDir (vPath v) with
            | inl err => (Some err, jobs, lg)
            | inr relPath =>
                if existsb (fun pattern => Match os pattern relPath)
                           (IgnorePatterns (config e))
                then walkNew e newDir visits' jobs lg
                else walkNew e newDir visits'
                       (jobs ++ [ {| jPath := vPath v; jRelPath := relPath;
                                     jInfo := vInfo v |} ]) lg
            end
      end
  end.

(** The second walk: deletions, sequentially. *)
Fixpoint walkOld (oldDir newDir : string) (visits : list Visit)
    (st : RunState) : RunState * option error :=
  match visits with
  | [] => (st, None)
  | v :: visits' =>
      match vErr v with
      | Some err => (st, Some err)
      | None =>
          if InfoIsDir (vInfo v) then walkOld oldDir newDir visits' st
          else
            match Rel os oldDir (vPath v) with
            | inl err => (st, Some err)
            | inr relPath =>
                let newPath := Join os newDir relPath in
                if StatNotExist os newPath then
                  walkOld oldDir newDir visits'
                    {| summary :=
                         {| TotalFiles := TotalFiles (summary st) + 1;
                            AddedFiles := AddedFiles (summary st);
                            ModifiedFiles := ModifiedFiles (summary st);
                            DeletedFiles := DeletedFiles (summary st) + 1;
                            TotalSizeBytes := TotalSizeBytes (summary st);
                            CompressedBytes := CompressedBytes (summary st);
                            FileTypes := FileTypes (summary st) |};
                       results := results st ++
                         [ {| Path := relPath; Operation := "deleted";
                              OldHash := calculateHash (vPath v);
                              NewHash := ""; Chunks := []; FileType := "";
                              Size := InfoSize (vInfo v);
                              ModTime := InfoModTime (vInfo v);
                              Permissions := 0; IsCompressed := false |} ];
                       log := log st |}
                else walkOld oldDir newDir visits' st
            end
      end
  end.

Definition emptySummary : DiffSummary :=
  {| TotalFiles := 0; AddedFiles := 0; ModifiedFiles := 0; DeletedFiles := 0;
     TotalSizeBytes := 0; CompressedBytes := 0; FileTypes := ∅ |}.

(** What a call of [CompareDirs] leaves: the three returned values and the
    log. *)
Record Outcome : Type := mkOutcome {
  outSummary : option DiffSummary;
  outResults : list DiffResult;
  outErr : option error;
  outLog : list LogEntry
}.

(** [CompareDirs].  [make(chan struct{}, n)] panics for a negative [n].
    After an error of the first walk the function returns without waiting
    for the goroutines it started; otherwise [wg.Wait] waits for all of
    them, for ever if one never returns.  A panic in a started goroutine
    ends the program, and the run is then a panic whenever it comes. *)
Definition CompareDirs (e : DiffEngine) (oldDir newDir : string)
    : result Outcome :=
  if bool_decide (Concurrency (config e) < 0) then Panic
  else
    let '(werr, jobs, lg) := walkNew e newDir (Walk os newDir) [] [] in
    stuck ← startJobs e oldDir jobs 0;
    match werr with
    | Some err =>
        Ok {| outSummary := None; outResults := []; outErr := Some err;
              outLog := interleave (logSchedule os) lg
                          (flat_map (jobLog e oldDir) (completion os jobs)) |}
    | None =>
        if bool_decide (0 < stuck) then Diverge
        else
          st ← runJobs e oldDir
                 {| summary := emptySummary; results := []; log := [] |}
                 (completion os jobs);
          let '(st', err) := walkOld oldDir newDir (Walk os oldDir) st in
          Ok {| outSummary := Some (summary st'); outResults := results st';
                outErr := err;
                outLog := interleave (logSchedule os) lg (log st') |}
    end.

End WithOS.

End Engine.

(** * Notions used in the statements and in the proofs *)

Module Notions.
Import Binary.

(** A buffer from a string literal. *)
Definition bytesOf (s : string) : list byte := list_byte_of_string s.

(** [Patch] applied to what [Compare] returns. *)
Definition patchOfCompare (h : GenericBinaryHandler) (old new : list byte)
    : result (list byte) :=
  chunks ← snd (Compare h old new);
  Patch old chunks.

(** The counts of a frequency table, and one term of the entropy sum. *)
Definition counts (freq : gmap byte Z) : list Z := (map_to_list freq).*2.

Definition term (n : R) (c : Z) : R := (IZR c / n * Log2 (IZR c / n))%R.

Definition entropySum (n : R) (cs : list Z) : R :=
  foldr (fun c acc => (acc - term n c)%R) 0%R cs.

Definition sumZ (cs : list Z) : Z := foldr Z.add 0 cs.

(** The invariant of the scan: every match is at least [m] long and starts
    at or after [lo]; the next one starts at least [m - 1] after its end. *)
Fixpoint chain (m lo : Z) (ms : list binaryMatch) : Prop :=
  match ms with
  | [] => True
  | x :: ms' =>
      lo <= NewOffset x /\ m <= Length x /\
      chain m (NewOffset x + Length x + m - 1) ms'
  end.

(** Every position of the hash table lies inside [old]. *)
Definition tableOK (old : list byte) (hashTable : gmap Z (list Z)) : Prop :=
  forall k ps, hashTable !! k = Some ps ->
    Forall (fun pos => 0 <= pos <= len old) ps.

(** The end of the region of [old] a chunk replaces. *)
Definition chunkEnd (c : DiffChunk) : Z := Offset c + len (OldData c).

(** Every chunk starts at or after [lo] and at or after the end of the one
    before it. *)
Fixpoint orderedFrom (lo : Z) (cs : list DiffChunk) : Prop :=
  match cs with
  | [] => True
  | c :: cs' => lo <= Offset c /\ orderedFrom (chunkEnd c) cs'
  end.

(** The invariant of the chunk loop of [Compare]. *)
Definition chunksBelow (hi : Z) (cs : list DiffChunk) : Prop :=
  orderedFrom 0 cs /\ Forall (fun c => chunkEnd c <= hi) cs.

Definition sumLengths (ms : list binaryMatch) : Z :=
  foldr (fun mt acc => Length mt + acc) 0 ms.

(** The matcher reads its receiver only through these two fields. *)
Definition sameTuning (h h' : GenericBinaryHandler) : Prop :=
  MinMatchLength h = MinMatchLength h' /\ MaxGapSize h = MaxGapSize h'.

(** Buffers and chunks of the worked examples. *)
Definition twoChunks : list DiffChunk :=
  [ {| Offset := 0; OldData := []; NewData := bytesOf "zzzz";
       ChunkType := "binary" |};
    {| Offset := 8; OldData := bytesOf "rr"; NewData := bytesOf "qq";
       ChunkType := "binary" |} ].

Definition helloChunk : DiffChunk :=
  {| Offset := 0; OldData := bytesOf "hello world";
     NewData := bytesOf "goodbye world"; ChunkType := "binary" |}.

(** A handler that has already compared two buffers. *)
Definition usedHandler : GenericBinaryHandler :=
  fst (Compare NewGenericBinaryHandler
         (bytesOf "hello world") (bytesOf "goodbye world")).

End Notions.

Module EngineNotions.
Import Engine.

Section WithRun.
Context (os : OS) (e : DiffEngine) (oldDir newDir : string).

(** A visit that raises no traversal error. *)
Definition cleanVisit (root : string) (v : Visit) : Prop :=
  vErr v = None /\ exists relPath, Rel os root (vPath v) = inr relPath.

(** What one goroutine computes and what it contributes: a result with the
    file's info, or a log line. *)
Definition jobCompare (j : Job) : result (error + option DiffResult) :=
  compareFiles os e (Join os oldDir (jRelPath j)) (jPath j) (jInfo j).

Definition jobResult (j : Job) : option (DiffResult * FileInfo) :=
  match jobCompare j with
  | Ok (inr (Some result)) => Some (result, jInfo j)
  | _ => None
  end.

Definition jobError (j : Job) : option LogEntry :=
  match jobCompare j with
  | Ok (inl err) => Some (LogCompareError (jRelPath j) err)
  | _ => None
  end.


(** Every handler of the engine returns from [Compare], and the
    compression level is one [gzip] accepts when compression is on. *)
Definition handlersReturn : Prop :=
  forall filename old new,
    exists r, Compare (getHandler os e filename) old new = Ok r.

Definition levelAccepted : Prop :=
  CompressPatches (config e) = false \/
  -2 <= CompressionLevel (config e) <= 9.

Definition summarize (s : DiffSummary) (rs : list (DiffResult * FileInfo))
    : DiffSummary :=
  foldl (fun s ri => recordResult s ri.1 ri.2) s rs.

(** The goroutines the first walk asks to start, in order.  It starts them
    all unless the admission gate blocks it on the way. *)
Definition dispatched : list Job :=
  (walkNew os e newDir (Walk os newDir) [] []).1.2.

End WithRun.

(** Small worlds for the worked examples: in the first, [old/a.txt]
    cannot be read and [b.bin] is new; in the second, the walk of the new
    tree hits a directory it cannot list and so does the walk of the old
    tree; in the third, the walk of the old tree hits a directory it
    cannot list after [old/gone.txt]; in the fourth, [b.bin] has changed. *)
Definition fileVisit (path : string) (size : Z) : Visit :=
  {| vPath := path;
     vInfo := {| InfoIsDir := false; InfoSize := size; InfoModTime := 0;
                 InfoMode := 420 |};
     vErr := None |}.

Definition dirVisit (path : string) (err : option error) : Visit :=
  {| vPath := path;
     vInfo := {| InfoIsDir := true; InfoSize := 0; InfoModTime := 0;
                 InfoMode := 493 |};
     vErr := err |}.

Definition demoOS : OS :=
  {| ReadFile := fun path =>
       if bool_decide (path = "old/a.txt")
       then ReadError "permission denied" false
       else if bool_decide (path = "new/a.txt")
       then ReadData (Notions.bytesOf "hello")
       else if bool_decide (path = "new/b.bin")
       then ReadData [xde; xad]
       else ReadError "no such file" true;
     StatNotExist := fun path =>
       negb (bool_decide (path = "new/a.txt") || bool_decide (path = "new/b.bin"));
     Walk := fun root =>
       if bool_decide (root = "new")
       then [dirVisit "new" None; fileVisit "new/a.txt" 5; fileVisit "new/b.bin" 2]
       else [dirVisit "old" None; fileVisit "old/a.txt" 5];
     Rel := fun _ path => inr (substring 4 (String.length path - 4) path);
     Join := fun dir relPath => (dir ++ "/" ++ relPath)%string;
     Base := fun path => substring 4 (String.length path - 4) path;
     Ext := fun _ => "";
     ToLower := fun s => s;
     Match := fun _ _ => false;
     fileHash := fun _ => "";
     gzip := fun data _ => data;
     logSchedule := [];
     completion := fun jobs => jobs;
     completion_perm := fun jobs => Permutation_refl jobs |}.



Definition editedOS : OS :=
  {| ReadFile := fun path =>
       if bool_decide (path = "old/b.bin") then ReadData [xbe; xef]
       else ReadFile demoOS path;
     StatNotExist := StatNotExist demoOS;
     Walk := fun root =>
       if bool_decide (root = "new")
       then Walk demoOS "new"
       else Walk demoOS "old" ++ [fileVisit "old/b.bin" 2];
     Rel := Rel demoOS;
     Join := Join demoOS;
     Base := Base demoOS;
     Ext := Ext demoOS;
     ToLower := ToLower demoOS;
     Match := Match demoOS;
     fileHash := fileHash demoOS;
     gzip := gzip demoOS;
     logSchedule := [false; true];
     completion := completion demoOS;
     completion_perm := completion_perm demoOS |}.

Definition demoHandler : FileHandler :=
  {| Compare := fun _ _ => Ok ([], None);
     Patch := fun original _ => Ok (original, None);
     GetFileType := "binary" |}.


Definition demoEngine : DiffEngine :=
  {| handlers := ∅; defaultHandler := demoHandler; config := DefaultConfig |}.


(** A handler that panics on every pair of contents, and one that never
    returns. *)
Definition faultyHandler : FileHandler :=
  {| Compare := fun _ _ => Panic;
     Patch := fun original _ => Ok (original, None);
     GetFileType := "faulty" |}.

Definition endlessHandler : FileHandler :=
  {| Compare := fun _ _ => Diverge;
     Patch := fun original _ => Ok (original, None);
     GetFileType := "endless" |}.

(** An engine like [demoEngine] but for the capacity of the admission gate
    and the compression level. *)
Definition tunedEngine (concurrency level : Z) (handler : FileHandler)
    : DiffEngine :=
  {| handlers := ∅; defaultHandler := handler;
     config := {| CompressPatches := true; CompressionLevel := level;
                  ChunkSize := 1024 * 1024; Concurrency := concurrency;
                  IgnorePatterns := []; IncludePatterns := [];
                  PreservePermissions := true;
                  MaxFileSizeBytes := 1024 * 1024 * 100;
                  BackupFiles := true; BackupDir := "";
                  DetailedLogging := false |} |}.

End EngineNotions.

(** * Further notions: matches, patches, lines and tallies *)

Module DeltaNotions.
Import Binary Notions.

(** The window read as a binary polynomial: the first byte has the highest weight. *)
Fixpoint weighted (bs : list byte) : Z :=
  match bs with
  | [] => 0
  | b :: bs' => byteZ b * 2 ^ len bs' + weighted bs'
  end.

(** The gap test of [mergeAdjacentMatches] between a match and the next. *)
Definition gapsWithin (maxGap : Z) (current next : binaryMatch) : bool :=
  bool_decide (OldOffset next - (OldOffset current + Length current) <= maxGap) &&
  bool_decide (NewOffset next - (NewOffset current + Length current) <= maxGap).

(** No two neighbours pass the gap test. *)
Fixpoint settled (maxGap : Z) (ms : list binaryMatch) : Prop :=
  match ms with
  | a :: (b :: _) as ms' => gapsWithin maxGap a b = false /\ settled maxGap ms'
  | _ => True
  end.

(** The end of a match in [new]. *)
Definition newEnd (mt : binaryMatch) : Z := NewOffset mt + Length mt.

(** [k] bytes of [old] from [po] equal [k] bytes of [new] from [pn], inside
    both buffers. *)
Definition sameBytes (old new : list byte) (po pn k : Z) : Prop :=
  0 <= po /\ po + k <= len old /\ 0 <= pn /\ pn + k <= len new /\
  take (Z.to_nat k) (drop (Z.to_nat po) old)
  = take (Z.to_nat k) (drop (Z.to_nat pn) new).

(** A match whose whole length is an equal region. *)
Definition verifiedMatch (old new : list byte) (mt : binaryMatch) : Prop :=
  sameBytes old new (OldOffset mt) (NewOffset mt) (Length mt).

(** A match of which the first [m] bytes are an equal region and which
    ends inside [new]. *)
Definition verifiedStart (m : Z) (old new : list byte) (mt : binaryMatch) : Prop :=
  sameBytes old new (OldOffset mt) (NewOffset mt) m /\
  m <= Length mt /\ NewOffset mt + Length mt <= len new.

(** The chunk holds in [OldData] what [old] has in the region it replaces. *)
Definition quotesOld (old : list byte) (c : DiffChunk) : Prop :=
  slice old (Offset c) (Offset c + len (OldData c)) = Ok (OldData c).

(** Bytes removed and bytes inserted by a chunk list. *)
Definition removedBytes (cs : list DiffChunk) : Z :=
  foldr (fun c acc => len (OldData c) + acc) 0 cs.

Definition insertedBytes (cs : list DiffChunk) : Z :=
  foldr (fun c acc => len (NewData c) + acc) 0 cs.

(** The number of times [b] occurs in [data]. *)
Definition occurrences (b : byte) (data : list byte) : Z :=
  len (filter (fun x => x = b) data).

(** The number of distinct byte values of [data]. *)
Definition distinctBytes (data : list byte) : nat :=
  size (list_to_set data : gset byte).

(** Lines put back together with a line feed between them. *)
Fixpoint joinLines (lines : list (list byte)) : list byte :=
  match lines with
  | [] => []
  | [line] => line
  | line :: lines' => line ++ Text.newline :: joinLines lines'
  end.

(** The lines [Text.Patch] rebuilds from the chunks of [Text.Compare]: the
    lines of [new] as far as both buffers have lines, then the lines [old]
    has beyond. *)
Definition patchedLines (oldLines newLines : list (list byte))
    : list (list byte) :=
  take (Nat.min (length oldLines) (length newLines)) newLines ++
  drop (Nat.min (length oldLines) (length newLines)) oldLines.

End DeltaNotions.

Module RunNotions.
Import Engine.

(** How many results carry the operation [op]. *)
Definition countOperation (op : string) (rs : list DiffResult) : Z :=
  len (filter (fun r => Operation r = op) rs).

(** How many added or modified results carry the file type [t]. *)
Definition countFileType (t : string) (rs : list DiffResult) : Z :=
  len (filter (fun r => Operation r <> "deleted" /\ FileType r = t) rs).

(** The sizes of the added and modified results. *)
Definition comparedSize (rs : list DiffResult) : Z :=
  foldr (fun r acc => (if bool_decide (Operation r = "deleted") then 0 else Size r) + acc)
        0 rs.

(** What the second walk reports for one entry of the old tree. *)
Definition deletedResult (os : OS) (oldDir newDir : string) (v : Visit)
    : option DiffResult :=
  if InfoIsDir (vInfo v) then None
  else match Rel os oldDir (vPath v) with
       | inl _ => None
       | inr relPath =>
           if StatNotExist os (Join os newDir relPath) then
             Some {| Path := relPath; Operation := "deleted";
                     OldHash := calculateHash os (vPath v);
                     NewHash := ""; Chunks := []; FileType := "";
                     Size := InfoSize (vInfo v);
                     ModTime := InfoModTime (vInfo v);
                     Permissions := 0; IsCompressed := false |}
           else None
       end.

(** The bytes [CompressedBytes] counts: the first chunk of each compressed
    result. *)
Definition compressedSize (rs : list DiffResult) : Z :=
  foldr (fun r acc =>
           (if IsCompressed r then
              match Chunks r with c :: _ => len (NewData c) | [] => 0 end
            else 0) + acc) 0 rs.

(** The summary tallies the results. *)
Definition tallies (s : DiffSummary) (rs : list DiffResult) : Prop :=
  TotalFiles s = len rs /\
  AddedFiles s = countOperation "added" rs /\
  ModifiedFiles s = countOperation "modified" rs /\
  DeletedFiles s = countOperation "deleted" rs /\
  TotalSizeBytes s = comparedSize rs /\
  CompressedBytes s = compressedSize rs /\
  (forall t, default 0 (FileTypes s !! t) = countFileType t rs) /\
  Forall (fun r => Operation r = "added" \/ Operation r = "modified" \/
                   Operation r = "deleted") rs.

(** A world with a deletion: [old/c.bin], larger than any size limit in
    use, has no counterpart in the new tree. *)
Definition prunedOS : OS :=
  {| ReadFile := ReadFile EngineNotions.demoOS;
     StatNotExist := StatNotExist EngineNotions.demoOS;
     Walk := fun root =>
       if bool_decide (root = "new")
       then Walk EngineNotions.demoOS "new"
       else Walk EngineNotions.demoOS "old"
            ++ [EngineNotions.fileVisit "old/c.bin" (1024 * 1024 * 1024)];
     Rel := Rel EngineNotions.demoOS;
     Join := Join EngineNotions.demoOS;
     Base := Base EngineNotions.demoOS;
     Ext := Ext EngineNotions.demoOS;
     ToLower := ToLower EngineNotions.demoOS;
     Match := Match EngineNotions.demoOS;
     fileHash := fileHash EngineNotions.demoOS;
     gzip := gzip EngineNotions.demoOS;
     logSchedule := logSchedule EngineNotions.demoOS;
     completion := completion EngineNotions.demoOS;
     completion_perm := completion_perm EngineNotions.demoOS |}.

(** The result reported for [new/b.bin] in the worlds of the worked
    examples. *)
Definition addedBin : DiffResult :=
  {| Path := "b.bin"; Operation := "added"; OldHash := ""; NewHash := "";
     Chunks := [ {| Offset := 0; OldData := []; NewData := [xde; xad];
                    ChunkType := "binary" |} ];
     FileType := "binary"; Size := 2; ModTime := 0; Permissions := 420;
     IsCompressed := true |}.

End RunNotions.

(** * Properties of the binary delta matcher *)

Module BinaryFacts.
Import Binary Notions.

(** ** The result monad and slices *)

Lemma bind_Ok {A B} (r : result A) (f : A -> result B) (b : B) :
  r ≫= f = Ok b -> exists a, r = Ok a /\ f a = Ok b.
Proof. destruct r; simpl; intros H; try discriminate. eauto. Qed.

Lemma bind_Ok_l {A B} (a : A) (f : A -> result B) : Ok a ≫= f = f a.
Proof. reflexivity. Qed.

Lemma slice_from_Ok {A} (x : list A) lo d :
  slice_from x lo = Ok d -> 0 <= lo <= len x /\ d = drop (Z.to_nat lo) x.
Proof. unfold slice_from. case_bool_decide as Hr; intros Heq; inversion Heq; auto. Qed.

Lemma slice_from_in_range {A} (x : list A) lo :
  0 <= lo <= len x -> slice_from x lo = Ok (drop (Z.to_nat lo) x).
Proof. intros H. unfold slice_from. rewrite bool_decide_eq_true_2; auto. Qed.

Lemma slice_Ok {A} (x : list A) lo hi d :
  slice x lo hi = Ok d -> 0 <= lo <= hi /\ hi <= len x /\ len d = hi - lo.
Proof.
  unfold slice. case_bool_decide as Hr; intros Heq; inversion Heq; subst.
  destruct Hr as [Hr1 Hr2]. split; [assumption|]. split; [assumption|].
  unfold len in *. rewrite length_take, length_drop. lia.
Qed.

Lemma chain_weaken m lo lo' ms : lo <= lo' -> chain m lo' ms -> chain m lo ms.
Proof. destruct ms; simpl; [auto|]. intros ? (? & ? & ?). repeat split; auto; lia. Qed.

Lemma tryPositions_Some h old new i ps mt :
  tryPositions h old new i ps = Ok (Some mt) ->
  NewOffset mt = i /\ MinMatchLength h <= Length mt.
Proof.
  induction ps as [|pos ps IH]; simpl; [discriminate|].
  intros H. apply bind_Ok in H as (o & _ & H). apply bind_Ok in H as (n & _ & H).
  case_bool_decide as Hm.
  - inversion H; subst; simpl. split; [reflexivity|lia].
  - auto.
Qed.

Lemma scanLoop_chain h T old new :
  0 <= MinMatchLength h ->
  forall fuel i acc res,
    scanLoop fuel h T old new i acc = Ok res ->
    exists tail, res = acc ++ tail /\ chain (MinMatchLength h) i tail.
Proof.
  intros Hm. induction fuel as [|fuel IH]; intros i acc res; simpl; [discriminate|].
  case_bool_decide as Hg.
  - intros H. apply bind_Ok in H as (d & _ & H).
    destruct (T !! _) as [ps|].
    + apply bind_Ok in H as (found & Hf & H). destruct found as [mt|].
      * apply tryPositions_Some in Hf as [Hi Hl].
        apply IH in H as (tail & -> & Hc).
        exists (mt :: tail). split; [by rewrite <- app_assoc|].
        simpl. rewrite Hi. repeat split; [lia|lia|].
        replace (i + Length mt + MinMatchLength h - 1)
          with (i + (Length mt - 1) + MinMatchLength h) by lia. exact Hc.
      * apply IH in H as (tail & -> & Hc). exists tail. split; [reflexivity|].
        eapply chain_weaken; [|exact Hc]. lia.
    + apply IH in H as (tail & -> & Hc). exists tail. split; [reflexivity|].
      eapply chain_weaken; [|exact Hc]. lia.
  - intros H. inversion H; subst. exists []. split; [by rewrite app_nil_r|exact I].
Qed.

Lemma mergeLoop_app g cur rest merged :
  mergeLoop g cur rest merged = merged ++ mergeLoop g cur rest [].
Proof.
  revert cur merged. induction rest as [|next rest IH]; intros cur merged; simpl.
  - reflexivity.
  - destruct (_ && _).
    + apply IH.
    + rewrite IH. rewrite (IH next [cur]). by rewrite <- app_assoc.
Qed.

Lemma mergeLoop_chain g m lo cur rest :
  1 <= m -> chain m lo (cur :: rest) -> chain m lo (mergeLoop g cur rest []).
Proof.
  intros Hm. revert lo cur. induction rest as [|next rest IH]; intros lo cur Hc.
  - exact Hc.
  - simpl in Hc. destruct Hc as (H1 & H2 & H3 & H4 & H5).
    simpl. destruct (_ && _).
    + apply IH. simpl. repeat split; [lia|lia|].
      replace (NewOffset cur + (NewOffset next + Length next - NewOffset cur) + m - 1)
        with (NewOffset next + Length next + m - 1) by lia. exact H5.
    + rewrite mergeLoop_app. simpl. repeat split; [assumption|assumption|].
      apply IH. simpl. auto.
Qed.

Lemma mergeAdjacentMatches_chain h m lo ms :
  1 <= m -> chain m lo ms -> chain m lo (mergeAdjacentMatches h ms).
Proof.
  intros Hm Hc. unfold mergeAdjacentMatches. case_bool_decide; [assumption|].
  destruct ms; [assumption|]. by apply mergeLoop_chain.
Qed.

Lemma findMatches_chain h old new ms :
  1 <= MinMatchLength h -> findMatches h old new = Ok ms ->
  chain (MinMatchLength h) 0 ms.
Proof.
  intros Hm. unfold findMatches. destruct (_ || _).
  - intros H; inversion H; exact I.
  - intros H. apply bind_Ok in H as (T & _ & H). apply bind_Ok in H as (raw & Hs & H).
    inversion H; subst. apply mergeAdjacentMatches_chain; [assumption|].
    apply scanLoop_chain in Hs as (tail & -> & Hc); [|lia]. exact Hc.
Qed.

(** With a positive stride both loops of [findMatches] return: the fuel
    suffices and no slice is out of range. *)
Lemma indexLoop_total h old :
  1 <= MinMatchLength h ->
  forall fuel i T,
    0 <= i -> Z.max 0 (len old - MinMatchLength h - i + 1) < Z.of_nat fuel ->
    tableOK old T ->
    exists T', indexLoop fuel h old i T = Ok T' /\ tableOK old T'.
Proof.
  intros Hm. induction fuel as [|fuel IH]; intros i T Hi Hf HT; [lia|].
  simpl. case_bool_decide as Hg.
  - rewrite slice_from_in_range by lia. simpl. apply IH; [lia|lia|].
    intros k ps. rewrite lookup_insert. case_decide as Hk.
    + intros [= <-]. apply Forall_app. split.
      * destruct (T !! _) as [ps'|] eqn:E; simpl; [exact (HT _ _ E)|constructor].
      * repeat constructor; lia.
    + apply HT.
  - eauto.
Qed.

Lemma tryPositions_total h old new i ps :
  0 <= i <= len new -> Forall (fun pos => 0 <= pos <= len old) ps ->
  exists r, tryPositions h old new i ps = Ok r.
Proof.
  intros Hi. induction 1 as [|pos ps Hp _ IH]; simpl; [eauto|].
  rewrite !slice_from_in_range by lia. simpl. case_bool_decide; eauto.
Qed.

Lemma extendMatch_bound o n : 0 <= extendMatch o n <= len n.
Proof.
  revert n. induction o as [|a o IH]; intros [|b n]; simpl; unfold len in *; simpl; try lia.
  case_bool_decide; [|lia]. specialize (IH n). lia.
Qed.

Lemma scanLoop_total h T old new :
  1 <= MinMatchLength h -> tableOK old T ->
  forall fuel i acc,
    0 <= i -> Z.max 0 (len new - MinMatchLength h - i + 1) < Z.of_nat fuel ->
    exists res, scanLoop fuel h T old new i acc = Ok res.
Proof.
  intros Hm HT. induction fuel as [|fuel IH]; intros i acc Hi Hf; [lia|].
  simpl. case_bool_decide as Hg; [|eauto].
  rewrite slice_from_in_range by lia. simpl.
  destruct (T !! _) as [ps|] eqn:E.
  - destruct (tryPositions_total h old new i ps) as [r Hr]; [lia|exact (HT _ _ E)|].
    rewrite Hr. simpl. destruct r as [mt|].
    + apply tryPositions_Some in Hr as [Hn Hl]. apply IH; lia.
    + apply IH; lia.
  - apply IH; lia.
Qed.

Lemma findMatches_total h old new :
  1 <= MinMatchLength h -> exists ms, findMatches h old new = Ok ms.
Proof.
  intros Hm. unfold findMatches. destruct (_ || _); [eauto|].
  destruct (indexLoop_total h old Hm (S (length old)) 0 ∅) as (T & -> & HT).
  - lia.
  - unfold len. lia.
  - intros k ps. rewrite lookup_empty. discriminate.
  - rewrite bind_Ok_l.
    destruct (scanLoop_total h T old new Hm HT (S (length new)) 0 []) as [raw ->].
    + lia.
    + unfold len. lia.
    + rewrite bind_Ok_l. eauto.
Qed.

(** ** Entropy *)

(** The logarithm lies below its tangent at 1. *)
Lemma ln_le_minus_1 (y : R) : (0 < y)%R -> (ln y <= y - 1)%R.
Proof.
  intros Hy.
  pose proof (exp_ineq1_le (ln y)) as H.
  rewrite exp_ln in H by assumption. lra.
Qed.

Lemma ln2_pos : (0 < ln 2)%R.
Proof. rewrite <- ln_1. apply ln_increasing; lra. Qed.

Lemma term_nonpos n c : (0 < n)%R -> 0 < c -> (IZR c <= n)%R -> (term n c <= 0)%R.
Proof.
  intros Hn Hc Hle. unfold term, Log2.
  assert (0 < IZR c)%R by (apply IZR_lt; lia).
  set (p := (IZR c / n)%R).
  assert (Hp : (0 < p)%R) by (apply Rdiv_lt_0_compat; assumption).
  assert (Hp1 : (p <= 1)%R).
  { unfold p. apply Rmult_le_reg_r with n; [assumption|]. field_simplify; lra. }
  assert (ln p <= 0)%R.
  { pose proof (ln_le_minus_1 p Hp). lra. }
  pose proof ln2_pos.
  assert (ln p / ln 2 <= 0)%R.
  { apply Rmult_le_reg_r with (ln 2); [assumption|]. field_simplify; lra. }
  nra.
Qed.

Lemma term_lower n k c :
  (0 < n)%R -> (0 < k)%R -> 0 < c ->
  (- term n c <= IZR c / n * Log2 k + (1 / k - IZR c / n) / ln 2)%R.
Proof.
  intros Hn Hk Hc. unfold term, Log2.
  assert (0 < IZR c)%R by (apply IZR_lt; lia).
  set (p := (IZR c / n)%R).
  assert (Hp : (0 < p)%R) by (apply Rdiv_lt_0_compat; assumption).
  pose proof ln2_pos as H2.
  assert (Hy : (0 < 1 / (p * k))%R).
  { apply Rdiv_lt_0_compat; [lra|]. apply Rmult_lt_0_compat; assumption. }
  pose proof (ln_le_minus_1 _ Hy) as Hln.
  assert (Heq : (ln (1 / (p * k)) = - ln p - ln k)%R).
  { unfold Rdiv. rewrite Rmult_1_l, ln_Rinv by (apply Rmult_lt_0_compat; assumption).
    rewrite ln_mult by assumption. lra. }
  rewrite Heq in Hln.
  assert (Hm : (p * (- ln p - ln k) <= 1 / k - p)%R).
  { apply Rle_trans with (p * (1 / (p * k) - 1))%R.
    - apply Rmult_le_compat_l; lra.
    - apply Req_le. field. split; lra. }
  apply Rmult_le_reg_r with (ln 2); [assumption|].
  replace ((p * (ln k / ln 2) + (1 / k - p) / ln 2) * ln 2)%R
    with (p * ln k + (1 / k - p))%R by (field; lra).
  replace (- (p * (ln p / ln 2)) * ln 2)%R with (- (p * ln p))%R by (field; lra).
  lra.
Qed.

Lemma entropySum_upper n k cs :
  (0 < n)%R -> (0 < k)%R -> Forall (fun c => 0 < c) cs ->
  (entropySum n cs <=
     IZR (sumZ cs) / n * Log2 k + (IZR (len cs) / k - IZR (sumZ cs) / n) / ln 2)%R.
Proof.
  intros Hn Hk. induction 1 as [|c cs Hc _ IH]; simpl.
  - unfold len; simpl. unfold Rdiv. rewrite !Rmult_0_l. lra.
  - pose proof (term_lower n k c Hn Hk Hc) as Ht.
    unfold len in *. simpl length. rewrite Nat2Z.inj_succ, <- Z.add_1_l.
    rewrite !plus_IZR.
    pose proof ln2_pos.
    replace ((IZR c + IZR (sumZ cs)) / n * Log2 k +
             ((1 + IZR (Z.of_nat (length cs))) / k - (IZR c + IZR (sumZ cs)) / n) / ln 2)%R
      with ((IZR c / n * Log2 k + (1 / k - IZR c / n) / ln 2) +
            (IZR (sumZ cs) / n * Log2 k +
               (IZR (Z.of_nat (length cs)) / k - IZR (sumZ cs) / n) / ln 2))%R
      by (field; repeat split; lra).
    lra.
Qed.

Lemma entropySum_nonneg n cs :
  (0 < n)%R -> Forall (fun c => 0 < c /\ (IZR c <= n)%R) cs ->
  (0 <= entropySum n cs)%R.
Proof.
  intros Hn. induction 1 as [|c cs [Hc Hle] _ IH]; simpl; [lra|].
  pose proof (term_nonpos n c Hn Hc Hle). lra.
Qed.

Lemma sumZ_bound cs c :
  Forall (fun c => 0 < c) cs -> c ∈ cs -> c <= sumZ cs.
Proof.
  induction 1 as [|x cs Hx Hall IH]; intros Hin.
  - inversion Hin.
  - assert (0 <= sumZ cs).
    { clear -Hall. induction Hall; simpl; lia. }
    simpl. apply elem_of_cons in Hin as [->|Hin]; [lia|].
    specialize (IH Hin). lia.
Qed.

Lemma sumZ_perm l1 l2 : l1 ≡ₚ l2 -> sumZ l1 = sumZ l2.
Proof. induction 1; simpl; lia. Qed.

Lemma counts_insert_fresh (freq : gmap byte Z) b c :
  freq !! b = None -> counts (<[b := c]> freq) ≡ₚ c :: counts freq.
Proof.
  intros H. unfold counts. rewrite map_to_list_insert by assumption. reflexivity.
Qed.

Lemma countStep_sum (freq : gmap byte Z) b :
  sumZ (counts (countStep freq b)) = sumZ (counts freq) + 1.
Proof.
  unfold countStep. destruct (freq !! b) as [c|] eqn:E; simpl.
  - rewrite <- (insert_delete_id freq b c E) at 2.
    rewrite <- insert_delete_eq.
    rewrite (sumZ_perm _ _ (counts_insert_fresh _ b (c + 1) (lookup_delete_eq _ _))).
    rewrite (sumZ_perm _ _ (counts_insert_fresh _ b c (lookup_delete_eq _ _))).
    simpl. lia.
  - rewrite (sumZ_perm _ _ (counts_insert_fresh _ b _ E)). simpl. lia.
Qed.

Lemma countStep_pos (freq : gmap byte Z) b :
  map_Forall (fun _ c => 0 < c) freq ->
  map_Forall (fun _ c => 0 < c) (countStep freq b).
Proof.
  intros H. unfold countStep. apply map_Forall_insert_2; [|assumption].
  destruct (freq !! b) as [c|] eqn:E; simpl; [|lia].
  specialize (H b c E). simpl in H. lia.
Qed.

Lemma foldl_countStep_sum data (freq : gmap byte Z) :
  sumZ (counts (foldl countStep freq data)) = sumZ (counts freq) + len data.
Proof.
  revert freq. induction data as [|b data IH]; intros freq; simpl.
  - unfold len; simpl; lia.
  - rewrite IH, countStep_sum. unfold len; simpl length. lia.
Qed.

Lemma foldl_countStep_pos data (freq : gmap byte Z) :
  map_Forall (fun _ c => 0 < c) freq ->
  map_Forall (fun _ c => 0 < c) (foldl countStep freq data).
Proof.
  revert freq. induction data as [|b data IH]; intros freq H; simpl; [assumption|].
  apply IH, countStep_pos, H.
Qed.

Lemma countBytes_sum data : sumZ (counts (countBytes data)) = len data.
Proof.
  unfold countBytes.
  rewrite foldl_countStep_sum. unfold counts. rewrite map_to_list_empty. simpl. lia.
Qed.

Lemma countBytes_pos data : Forall (fun c => 0 < c) (counts (countBytes data)).
Proof.
  assert (H : map_Forall (fun _ c => 0 < c) (countBytes data)).
  { apply (foldl_countStep_pos data ∅). apply map_Forall_empty. }
  unfold counts. apply Forall_fmap, Forall_forall. intros [b c] Hin. simpl.
  apply elem_of_map_to_list in Hin. exact (H b c Hin).
Qed.

Lemma byte_keys_bound (l : list byte) : NoDup l -> (length l <= 256)%nat.
Proof.
  intros Hnd.
  assert (Hnd' : NoDup (Byte.to_nat <$> l)).
  { apply NoDup_fmap_2; [|assumption].
    intros x y Hxy. apply (f_equal Byte.of_nat) in Hxy.
    rewrite !Byte.of_to_nat in Hxy. congruence. }
  assert (Hsub : (Byte.to_nat <$> l) ⊆ seq 0 256).
  { intros x Hx. apply list_elem_of_fmap in Hx as (b & -> & _).
    apply elem_of_seq. pose proof (Byte.to_nat_bounded b). lia. }
  pose proof (submseteq_length _ _ (NoDup_submseteq _ _ Hnd' Hsub)) as Hlen.
  rewrite length_fmap, length_seq in Hlen. exact Hlen.
Qed.

Lemma counts_length (freq : gmap byte Z) : (length (counts freq) <= 256)%nat.
Proof.
  unfold counts. rewrite length_fmap, <- (length_fmap fst).
  apply byte_keys_bound, NoDup_fst_map_to_list.
Qed.

Lemma counts_size (freq : gmap byte Z) : length (counts freq) = size freq.
Proof. unfold counts. rewrite length_fmap. apply length_map_to_list. Qed.

Lemma entropy_fold (freq : gmap byte Z) n :
  map_fold (fun _ count entropy =>
              let p := (IZR count / n)%R in (entropy - p * Log2 p)%R) 0%R freq
  = entropySum n (counts freq).
Proof.
  rewrite map_fold_foldr. unfold entropySum, counts.
  induction (map_to_list freq) as [|[b c] l IH]; simpl; [reflexivity|].
  rewrite IH. reflexivity.
Qed.

Lemma calculateEntropy_nonempty data :
  data <> [] ->
  calculateEntropy data =
    (entropySum (IZR (len data)) (counts (countBytes data)) / 8)%R.
Proof.
  intros H. unfold calculateEntropy.
  rewrite bool_decide_eq_false_2.
  - simpl. rewrite entropy_fold. reflexivity.
  - destruct data; [congruence|]. unfold len; simpl; lia.
Qed.

Lemma Log2_pow2 (n : nat) : Log2 (2 ^ n) = INR n.
Proof.
  unfold Log2. rewrite ln_pow by lra. pose proof ln2_pos. field. lra.
Qed.

Lemma Log2_mono x y : (0 < x)%R -> (x <= y)%R -> (Log2 x <= Log2 y)%R.
Proof.
  intros Hx Hxy. unfold Log2. pose proof ln2_pos.
  apply Rmult_le_compat_r; [left; apply Rinv_0_lt_compat; assumption|].
  destruct Hxy as [Hlt | ->]; [left; apply ln_increasing; assumption | lra].
Qed.

(** The entropy is at most the binary logarithm of the number of distinct
    byte values, over 8 (Gibbs' inequality). *)
Lemma calculateEntropy_bounds data :
  data <> [] ->
  (0 <= calculateEntropy data <= Log2 (IZR (Z.of_nat (size (countBytes data)))) / 8)%R.
Proof.
  intros Hne. rewrite calculateEntropy_nonempty by assumption.
  set (cs := counts (countBytes data)).
  assert (Hlen : 0 < len data).
  { destruct data; [congruence|]. unfold len; simpl; lia. }
  assert (Hn : (0 < IZR (len data))%R) by (apply IZR_lt; lia).
  pose proof (countBytes_pos data) as Hpos. fold cs in Hpos.
  pose proof (countBytes_sum data) as Hsum. fold cs in Hsum.
  assert (Hk : (0 < length cs)%nat).
  { destruct cs; simpl in *; lia. }
  assert (HkR : (0 < IZR (len cs))%R) by (apply IZR_lt; unfold len; lia).
  split.
  - assert (0 <= entropySum (IZR (len data)) cs)%R; [|lra].
    apply entropySum_nonneg; [assumption|].
    apply Forall_forall. intros c Hc. split.
    + rewrite Forall_forall in Hpos. apply Hpos, Hc.
    + apply IZR_le. rewrite <- Hsum. apply sumZ_bound; assumption.
  - pose proof (entropySum_upper _ _ cs Hn HkR Hpos) as Hup.
    rewrite Hsum in Hup.
    replace (IZR (len data) / IZR (len data) * Log2 (IZR (len cs)) +
             (IZR (len cs) / IZR (len cs) - IZR (len data) / IZR (len data)) / ln 2)%R
      with (Log2 (IZR (len cs))) in Hup
      by (pose proof ln2_pos; field; repeat split; lra).
    unfold len at 2 in Hup. unfold cs in Hup at 2. rewrite counts_size in Hup.
    lra.
Qed.

Lemma calculateEntropy_empty : calculateEntropy [] = 0%R.
Proof. reflexivity. Qed.

Lemma calculateEntropy_le_distinct data (k : nat) :
  data <> [] -> (size (countBytes data) <= 2 ^ k)%nat ->
  (calculateEntropy data <= INR k / 8)%R.
Proof.
  intros Hne Hk. pose proof (calculateEntropy_bounds data Hne) as [_ Hup].
  assert (Hpos : (0 < size (countBytes data))%nat).
  { rewrite <- counts_size. pose proof (countBytes_sum data) as Hs.
    destruct (counts (countBytes data)); simpl in *; [|lia].
    destruct data; [congruence|]. unfold len in Hs; simpl in Hs; lia. }
  assert (Log2 (IZR (Z.of_nat (size (countBytes data)))) <= INR k)%R; [|lra].
  rewrite <- Log2_pow2. apply Log2_mono.
  - apply IZR_lt. lia.
  - rewrite <- INR_IZR_INZ. replace 2%R with (INR 2) by reflexivity.
    rewrite <- pow_INR. apply le_INR. exact Hk.
Qed.

Lemma calculateEntropy_range data : (0 <= calculateEntropy data <= 1)%R.
Proof.
  destruct data as [|b data].
  - rewrite calculateEntropy_empty. lra.
  - split.
    + apply calculateEntropy_bounds. discriminate.
    + apply Rle_trans with (INR 8 / 8)%R.
      * apply calculateEntropy_le_distinct; [discriminate|].
        rewrite <- counts_size. change (2 ^ 8)%nat with 256%nat. apply counts_length.
      * simpl. lra.
Qed.

Lemma countBytes_replicate_aux (n : nat) b (c : Z) :
  foldl countStep {[ b := c ]} (replicate n b) = {[ b := c + Z.of_nat n ]}.
Proof.
  revert c. induction n as [|n IH]; intros c; simpl.
  - f_equal. lia.
  - unfold countStep at 2. rewrite lookup_singleton_eq. simpl.
    rewrite insert_singleton_eq. rewrite IH. f_equal. lia.
Qed.

Lemma countBytes_replicate (n : nat) b :
  countBytes (replicate (S n) b) = {[ b := Z.of_nat (S n) ]}.
Proof.
  unfold countBytes. simpl.
  unfold countStep at 2. rewrite lookup_empty. simpl.
  rewrite insert_empty. rewrite countBytes_replicate_aux. f_equal. lia.
Qed.

Lemma calculateEntropy_replicate (n : nat) b :
  calculateEntropy (replicate n b) = 0%R.
Proof.
  destruct n as [|n]; [reflexivity|].
  rewrite calculateEntropy_nonempty by discriminate.
  rewrite countBytes_replicate. unfold counts. rewrite map_to_list_singleton.
  unfold entropySum, term, len. rewrite length_replicate. simpl foldr.
  assert (H : (IZR (Z.of_nat (S n)) <> 0)%R).
  { apply not_0_IZR. lia. }
  replace (IZR (Z.of_nat (S n)) / IZR (Z.of_nat (S n)))%R with 1%R by (field; assumption).
  unfold Log2. rewrite ln_1. unfold Rdiv. rewrite !Rmult_0_l, Rmult_0_r. lra.
Qed.

Lemma single_byte_replicate (data : list byte) b :
  Forall (fun x => x = b) data -> data = replicate (length data) b.
Proof. induction 1 as [|x l -> _ IH]; simpl; [reflexivity|]. f_equal. exact IH. Qed.

(** *** The tuning [OptimizeBinaryDiff] chooses *)

Lemma Optimize_low h data :
  (calculateEntropy data <= 0.5)%R -> len data <= 1024 * 1024 ->
  OptimizeBinaryDiff h data =
    {| MinMatchLength := 4; MaxGapSize := 2048; ChunkSize := 2048; Stats := Stats h |}.
Proof.
  intros He Hl. unfold OptimizeBinaryDiff.
  destruct (Rgt_dec _ 0.8) as [H|_]; [lra|].
  destruct (Rgt_dec _ 0.5) as [H|_]; [lra|].
  rewrite !bool_decide_eq_false_2 by lia. reflexivity.
Qed.

Lemma Optimize_few_bytes h data :
  (size (countBytes data) <= 16)%nat -> len data <= 1024 * 1024 ->
  OptimizeBinaryDiff h data =
    {| MinMatchLength := 4; MaxGapSize := 2048; ChunkSize := 2048; Stats := Stats h |}.
Proof.
  intros Hs Hl. apply Optimize_low; [|assumption].
  destruct data as [|b data]; [rewrite calculateEntropy_empty; lra|].
  apply Rle_trans with (INR 4 / 8)%R.
  - apply calculateEntropy_le_distinct; [discriminate|exact Hs].
  - simpl. lra.
Qed.

Lemma Optimize_MinMatchLength h data : 4 <= MinMatchLength (OptimizeBinaryDiff h data).
Proof.
  unfold OptimizeBinaryDiff.
  destruct (Rgt_dec _ 0.8); [|destruct (Rgt_dec _ 0.5)];
    repeat case_bool_decide; simpl; lia.
Qed.

(** ** Chunks *)

Lemma len_nonneg {A} (l : list A) : 0 <= len l.
Proof. unfold len. lia. Qed.

Lemma orderedFrom_snoc lo cs c :
  orderedFrom lo cs -> Forall (fun x => chunkEnd x <= Offset c) cs -> lo <= Offset c ->
  orderedFrom lo (cs ++ [c]).
Proof.
  revert lo. induction cs as [|x cs IH]; intros lo Ho Hall Hlo; simpl.
  - auto.
  - destruct Ho as [H1 H2]. inversion Hall; subst. split; [assumption|].
    apply IH; assumption.
Qed.

Lemma chunksBelow_snoc hi hi' cs c :
  chunksBelow hi cs -> hi <= Offset c -> chunkEnd c <= hi' -> 0 <= Offset c ->
  chunksBelow hi' (cs ++ [c]).
Proof.
  intros [Ho Hall] H1 H2 H3. pose proof (len_nonneg (OldData c)).
  split.
  - apply orderedFrom_snoc; [assumption| |assumption].
    eapply Forall_impl; [exact Hall|]. simpl. intros. lia.
  - apply Forall_app. split.
    + eapply Forall_impl; [exact Hall|]. simpl. intros x Hx. unfold chunkEnd in *. lia.
    + repeat constructor. assumption.
Qed.

Lemma chunkLoop_step_emit old new mt ms lastOld lastNew cs r :
  NewOffset mt > lastNew ->
  chunkLoop old new (mt :: ms) lastOld lastNew cs = Ok r ->
  exists od nd,
    slice old lastOld (OldOffset mt) = Ok od /\
    slice new lastNew (NewOffset mt) = Ok nd /\
    chunkLoop old new ms (OldOffset mt + Length mt) (NewOffset mt + Length mt)
      (cs ++ [ {| Offset := lastOld; OldData := od; NewData := nd;
                  ChunkType := "binary" |} ]) = Ok r.
Proof.
  intros Hg. simpl. rewrite bool_decide_eq_true_2 by assumption.
  intros H. apply bind_Ok in H as (cs' & H1 & H2).
  apply bind_Ok in H1 as (od & Hod & H1). apply bind_Ok in H1 as (nd & Hnd & H1).
  inversion H1; subst. eauto.
Qed.

Lemma chunkLoop_ordered old new m :
  2 <= m ->
  forall ms lastOld lastNew cs cs' lo' ln',
    chain m (lastNew + m - 1) ms -> chunksBelow lastOld cs ->
    chunkLoop old new ms lastOld lastNew cs = Ok (cs', lo', ln') ->
    chunksBelow lo' cs'.
Proof.
  intros Hm. induction ms as [|mt ms IH]; intros lastOld lastNew cs cs' lo' ln' Hc Hb H.
  - simpl in H. inversion H; subst. assumption.
  - simpl in Hc. destruct Hc as (H1 & H2 & H3).
    apply chunkLoop_step_emit in H as (od & nd & Hod & Hnd & H); [|lia].
    apply slice_Ok in Hod as (Ho1 & Ho2 & Ho3).
    eapply IH; [exact H3| |exact H].
    eapply chunksBelow_snoc; [exact Hb|simpl; lia| |simpl; lia].
    unfold chunkEnd; simpl. lia.
Qed.

Lemma chunkLoop_ordered_first old new m ms cs' lo' ln' :
  2 <= m -> chain m 0 ms ->
  chunkLoop old new ms 0 0 [] = Ok (cs', lo', ln') ->
  chunksBelow lo' cs'.
Proof.
  intros Hm Hc H. destruct ms as [|mt ms].
  - simpl in H. inversion H; subst. split; constructor.
  - simpl in Hc. destruct Hc as (H1 & H2 & H3).
    destruct (decide (NewOffset mt > 0)) as [Hg|Hg].
    + apply chunkLoop_step_emit in H as (od & nd & Hod & Hnd & H); [|lia].
      apply slice_Ok in Hod as (Ho1 & Ho2 & Ho3).
      eapply (chunkLoop_ordered old new m Hm); [exact H3| |exact H].
      eapply (chunksBelow_snoc 0 _ []); [split; constructor|simpl; lia| |simpl; lia].
      unfold chunkEnd; simpl. lia.
    + simpl in H. rewrite bool_decide_eq_false_2 in H by assumption.
      rewrite bind_Ok_l in H.
      eapply (chunkLoop_ordered old new m Hm); [exact H3| |exact H].
      split; constructor.
Qed.

Lemma compareChunks_ordered h old new cs :
  2 <= MinMatchLength h ->
  compareChunks h old new = Ok cs -> orderedFrom 0 cs.
Proof.
  intros Hm H. unfold compareChunks in H.
  apply bind_Ok in H as (ms & Hms & H).
  apply bind_Ok in H as ([[cs0 lo] ln] & Hl & H).
  apply findMatches_chain in Hms; [|lia].
  apply chunkLoop_ordered_first with (m := MinMatchLength h) in Hl; [|assumption..].
  case_bool_decide.
  - apply bind_Ok in H as (od & Hod & H). apply bind_Ok in H as (nd & Hnd & H).
    inversion H; subst. apply slice_from_Ok in Hod as [Hr ->].
    refine (proj1 (chunksBelow_snoc lo (len old) _ _ Hl _ _ _)); simpl; try lia.
    unfold chunkEnd, len in *; simpl. rewrite length_drop. lia.
  - inversion H; subst. apply Hl.
Qed.

(** What the invariant says of any two chunks. *)
Lemma orderedFrom_le lo cs c : orderedFrom lo cs -> c ∈ cs -> lo <= Offset c.
Proof.
  revert lo. induction cs as [|x cs IH]; intros lo Ho Hin; [inversion Hin|].
  destruct Ho as [H1 H2]. apply elem_of_cons in Hin as [->|Hin]; [assumption|].
  specialize (IH _ H2 Hin). pose proof (len_nonneg (OldData x)). unfold chunkEnd in IH. lia.
Qed.

Lemma orderedFrom_pairwise lo cs (i j : nat) ci cj :
  orderedFrom lo cs -> cs !! i = Some ci -> cs !! j = Some cj -> (i < j)%nat ->
  Offset ci <= Offset cj /\ Offset ci + len (OldData ci) <= Offset cj.
Proof.
  revert lo i j. induction cs as [|x cs IH]; intros lo i j Ho Hi Hj Hij; [discriminate|].
  destruct Ho as [H1 H2]. destruct j as [|j]; [lia|]. simpl in Hj.
  destruct i as [|i]; simpl in Hi.
  - inversion Hi; subst.
    assert (Hin : cj ∈ cs) by (eapply list_elem_of_lookup_2; eauto).
    pose proof (orderedFrom_le _ _ _ H2 Hin) as Hle. unfold chunkEnd in Hle.
    pose proof (len_nonneg (OldData ci)). lia.
  - eapply IH; eauto. lia.
Qed.

(** Every chunk of the binary handler carries the tag "binary". *)
Lemma chunkLoop_types old new ms : forall lastOld lastNew cs cs' lo' ln',
  Forall (fun c => ChunkType c = "binary") cs ->
  chunkLoop old new ms lastOld lastNew cs = Ok (cs', lo', ln') ->
  Forall (fun c => ChunkType c = "binary") cs'.
Proof.
  induction ms as [|mt ms IH]; intros lastOld lastNew cs cs' lo' ln' Hall H; simpl in H.
  - inversion H; subst. assumption.
  - apply bind_Ok in H as (cs1 & H1 & H). eapply IH; [|exact H].
    case_bool_decide.
    + apply bind_Ok in H1 as (od & _ & H1). apply bind_Ok in H1 as (nd & _ & H1).
      inversion H1; subst. apply Forall_app. split; [assumption|]. by repeat constructor.
    + inversion H1; subst. assumption.
Qed.

Lemma compareChunks_types h old new cs :
  compareChunks h old new = Ok cs -> Forall (fun c => ChunkType c = "binary") cs.
Proof.
  intros H. unfold compareChunks in H.
  apply bind_Ok in H as (ms & _ & H).
  apply bind_Ok in H as ([[cs0 lo] ln] & Hl & H).
  apply chunkLoop_types in Hl; [|constructor].
  case_bool_decide.
  - apply bind_Ok in H as (od & _ & H). apply bind_Ok in H as (nd & _ & H).
    inversion H; subst. apply Forall_app. split; [assumption|]. by repeat constructor.
  - inversion H; subst. assumption.
Qed.

(** *** [Compare] on equal and on different buffers *)

Lemma Compare_equal h x : Compare h x x = (h, Ok []).
Proof. unfold Compare. by rewrite bool_decide_eq_true_2. Qed.

Lemma AnalyzeBinaryDiff_of_findMatches h old new ms :
  findMatches h old new = Ok ms -> exists s, AnalyzeBinaryDiff h old new = Ok s.
Proof.
  intros H. unfold AnalyzeBinaryDiff. rewrite H, bind_Ok_l.
  case_bool_decide; [eauto|]. destruct (analyzeLoop _ _ _) as [[? ?] ?]. eauto.
Qed.

Lemma Compare_differ h old new :
  old <> new ->
  snd (Compare h old new) = compareChunks (OptimizeBinaryDiff h new) old new.
Proof.
  intros Hne. unfold Compare. rewrite bool_decide_eq_false_2 by assumption.
  destruct (compareChunks _ old new) as [cs| |] eqn:E; try reflexivity.
  pose proof E as E'. unfold compareChunks in E'. apply bind_Ok in E' as (ms & Hms & _).
  destruct (AnalyzeBinaryDiff_of_findMatches _ _ _ _ Hms) as [s ->]. reflexivity.
Qed.

Lemma Compare_Ok_inv h old new h' cs :
  Compare h old new = (h', Ok cs) ->
  (old = new /\ cs = [] /\ h' = h) \/
  (old <> new /\ compareChunks (OptimizeBinaryDiff h new) old new = Ok cs).
Proof.
  intros H. destruct (decide (old = new)) as [->|Hne].
  - rewrite Compare_equal in H. inversion H; subst. auto.
  - right. split; [assumption|]. rewrite <- Compare_differ by assumption. by rewrite H.
Qed.

(** ** Statistics *)

(** The loop of [AnalyzeBinaryDiff] computes a sum, a maximum and a
    minimum. *)
Lemma analyzeLoop_spec ms : forall total largest smallest,
  foldl (fun '(totalSize, largest, smallest) mt =>
           (totalSize + Length mt,
            if bool_decide (Length mt > largest) then Length mt else largest,
            if bool_decide (Length mt < smallest) then Length mt else smallest))
        (total, largest, smallest) ms =
  (total + sumLengths ms,
   foldl (fun a mt => Z.max a (Length mt)) largest ms,
   foldl (fun a mt => Z.min a (Length mt)) smallest ms).
Proof.
  induction ms as [|mt ms IH]; intros total largest smallest; simpl.
  - f_equal. f_equal. lia.
  - rewrite IH. f_equal; [f_equal|].
    + lia.
    + f_equal. case_bool_decide; lia.
    + f_equal. case_bool_decide; lia.
Qed.

Lemma foldl_max_spec ms : forall a,
  let r := foldl (fun a mt => Z.max a (Length mt)) a ms in
  a <= r /\ Forall (fun mt => Length mt <= r) ms /\
  (r = a \/ exists mt, mt ∈ ms /\ Length mt = r).
Proof.
  induction ms as [|mt ms IH]; intros a; simpl.
  - repeat split; [lia|constructor|auto].
  - specialize (IH (Z.max a (Length mt))). simpl in IH.
    set (r := foldl _ (Z.max a (Length mt)) ms) in *. clearbody r.
    destruct IH as (H1 & H2 & H3).
    repeat split; [lia| |].
    + constructor; [lia|assumption].
    + destruct H3 as [H3|(x & Hx & Hr)].
      * destruct (Z.max_spec a (Length mt)) as [[? Hm]|[? Hm]]; rewrite Hm in H3.
        -- right. exists mt. split; [left|lia].
        -- left. lia.
      * right. exists x. split; [by right|assumption].
Qed.

Lemma foldl_min_ge ms m : forall a,
  m <= a -> Forall (fun mt => m <= Length mt) ms ->
  m <= foldl (fun a mt => Z.min a (Length mt)) a ms.
Proof.
  induction ms as [|mt ms IH]; intros a Ha Hall; simpl; [assumption|].
  inversion Hall; subst. apply IH; [lia|assumption].
Qed.

Lemma foldl_min_le ms : forall a,
  foldl (fun a mt => Z.min a (Length mt)) a ms <= a.
Proof.
  induction ms as [|mt ms IH]; intros a; simpl; [lia|].
  specialize (IH (Z.min a (Length mt))).
  set (r := foldl _ (Z.min a (Length mt)) ms) in *. clearbody r. lia.
Qed.

Lemma chain_lengths m lo ms : chain m lo ms -> Forall (fun mt => m <= Length mt) ms.
Proof.
  revert lo. induction ms as [|mt ms IH]; intros lo; simpl; [constructor|].
  intros (_ & H & Hc). constructor; [assumption|]. eapply IH, Hc.
Qed.

Lemma sumLengths_pos m ms :
  1 <= m -> ms <> [] -> Forall (fun mt => m <= Length mt) ms -> 0 < sumLengths ms.
Proof.
  intros Hm Hne Hall.
  assert (H0 : forall l, Forall (fun mt => m <= Length mt) l -> 0 <= sumLengths l).
  { induction 1; simpl; lia. }
  destruct Hall; [congruence|]. simpl. specialize (H0 _ Hall). lia.
Qed.

Lemma indexLoop_tuning h h' old :
  sameTuning h h' ->
  forall fuel i T, indexLoop fuel h old i T = indexLoop fuel h' old i T.
Proof.
  intros [Hm _]. induction fuel as [|fuel IH]; intros i T; simpl; [reflexivity|].
  rewrite Hm. case_bool_decide; [|reflexivity].
  destruct (slice_from old i); simpl; [apply IH|reflexivity..].
Qed.

Lemma tryPositions_tuning h h' old new i ps :
  sameTuning h h' -> tryPositions h old new i ps = tryPositions h' old new i ps.
Proof.
  intros [Hm _]. induction ps as [|pos ps IH]; simpl; [reflexivity|].
  destruct (slice_from old pos); simpl; [|reflexivity..].
  destruct (slice_from new i); simpl; [|reflexivity..].
  rewrite Hm, IH. reflexivity.
Qed.

Lemma scanLoop_tuning h h' T old new :
  sameTuning h h' ->
  forall fuel i acc, scanLoop fuel h T old new i acc = scanLoop fuel h' T old new i acc.
Proof.
  intros Hs. pose proof Hs as [Hm _].
  induction fuel as [|fuel IH]; intros i acc; simpl; [reflexivity|].
  rewrite Hm. case_bool_decide; [|reflexivity].
  destruct (slice_from new i); simpl; [|reflexivity..].
  destruct (T !! _) as [ps|]; [|apply IH].
  rewrite (tryPositions_tuning h h' old new i ps Hs).
  destruct (tryPositions h' old new i ps) as [[mt|]| |]; simpl; try reflexivity; apply IH.
Qed.

Lemma findMatches_tuning h h' old new :
  sameTuning h h' -> findMatches h old new = findMatches h' old new.
Proof.
  intros Hs. unfold findMatches. destruct (_ || _); [reflexivity|].
  rewrite (indexLoop_tuning h h' old Hs).
  destruct (indexLoop (S (length old)) h' old 0 ∅) as [T| |];
    rewrite ?bind_Ok_l; [|reflexivity..].
  rewrite (scanLoop_tuning h h' T old new Hs).
  destruct (scanLoop (S (length new)) h' T old new 0 []) as [raw| |];
    rewrite ?bind_Ok_l; [|reflexivity..].
  unfold mergeAdjacentMatches. destruct Hs as [_ ->]. reflexivity.
Qed.

Lemma compareChunks_tuning h h' old new :
  sameTuning h h' -> compareChunks h old new = compareChunks h' old new.
Proof. intros Hs. unfold compareChunks. by rewrite (findMatches_tuning h h' old new Hs). Qed.

Lemma AnalyzeBinaryDiff_tuning h h' old new :
  sameTuning h h' -> AnalyzeBinaryDiff h old new = AnalyzeBinaryDiff h' old new.
Proof.
  intros Hs. unfold AnalyzeBinaryDiff. rewrite (findMatches_tuning h h' old new Hs).
  destruct Hs as [-> _]. reflexivity.
Qed.

Lemma Optimize_tuning h h' data :
  sameTuning (OptimizeBinaryDiff h data) (OptimizeBinaryDiff h' data).
Proof.
  unfold OptimizeBinaryDiff, sameTuning.
  destruct (Rgt_dec _ 0.8); [|destruct (Rgt_dec _ 0.5)];
    repeat case_bool_decide; simpl; auto.
Qed.

Lemma Compare_differ_state h old new cs :
  old <> new -> compareChunks (OptimizeBinaryDiff h new) old new = Ok cs ->
  exists s, AnalyzeBinaryDiff (OptimizeBinaryDiff h new) old new = Ok s /\
    Compare h old new =
      (setStats (OptimizeBinaryDiff h new) (compareStats s cs new), Ok cs).
Proof.
  intros Hne Hc. pose proof Hc as Hc'. unfold compareChunks in Hc'.
  apply bind_Ok in Hc' as (ms & Hms & _).
  destruct (AnalyzeBinaryDiff_of_findMatches _ _ _ _ Hms) as [s Hs].
  exists s. split; [assumption|].
  unfold Compare. rewrite bool_decide_eq_false_2 by assumption.
  rewrite Hc, Hs. reflexivity.
Qed.

(** ** Termination *)

Lemma indexLoop_S fuel h old i T :
  indexLoop (S fuel) h old i T =
  if bool_decide (i <= len old - MinMatchLength h) then
    d ← slice_from old i;
    indexLoop fuel h old (i + MinMatchLength h)
      (<[rollingHash d (MinMatchLength h) :=
           default [] (T !! rollingHash d (MinMatchLength h)) ++ [i]]> T)
  else Ok T.
Proof. reflexivity. Qed.

(** With a stride of 0 the index loop never advances. *)
Lemma indexLoop_zero_stride h old :
  MinMatchLength h = 0 ->
  forall fuel T, indexLoop fuel h old 0 T = Diverge.
Proof.
  intros Hm. pose proof (len_nonneg old) as Hl.
  induction fuel as [|fuel IH]; intros T; [reflexivity|].
  rewrite indexLoop_S, Hm. rewrite bool_decide_eq_true_2 by lia.
  rewrite slice_from_in_range by lia.
  rewrite bind_Ok_l. apply IH.
Qed.

(** With a negative stride the second turn of the index loop slices [old]
    at a negative offset. *)
Lemma indexLoop_negative_stride h old fuel T :
  MinMatchLength h < 0 ->
  indexLoop (S (S fuel)) h old 0 T = Panic.
Proof.
  intros Hm. pose proof (len_nonneg old) as Hl.
  rewrite indexLoop_S. rewrite bool_decide_eq_true_2 by lia.
  rewrite slice_from_in_range by lia. rewrite bind_Ok_l.
  rewrite indexLoop_S. rewrite bool_decide_eq_true_2 by lia.
  unfold slice_from. rewrite bool_decide_eq_false_2 by lia. reflexivity.
Qed.

(** The fuel of the model is never the reason for [Diverge]: [findMatches]
    loops forever exactly when the stride is 0 and both buffers are
    non-empty. *)
Lemma findMatches_Diverge_iff h old new :
  findMatches h old new = Diverge <->
  MinMatchLength h = 0 /\ old <> [] /\ new <> [].
Proof.
  split.
  - intros H. destruct (Z.lt_trichotomy (MinMatchLength h) 0) as [Hm|[Hm|Hm]].
    + unfold findMatches in H.
      destruct old as [|a old]; [discriminate|]. destruct new as [|b new]; [discriminate|].
      change (bool_decide (len (a :: old) = 0) || bool_decide (len (b :: new) = 0))
        with false in H. cbv iota in H.
      change (length (a :: old)) with (S (length old)) in H.
      rewrite indexLoop_negative_stride in H by assumption. discriminate.
    + split; [assumption|].
      destruct old; [discriminate|]. destruct new; [discriminate|]. split; discriminate.
    + destruct (findMatches_total h old new) as [ms Hms]; [lia|]. congruence.
  - intros (Hm & Ho & Hn). unfold findMatches.
    destruct old as [|a old]; [congruence|]. destruct new as [|b new]; [congruence|].
    change (bool_decide (len (a :: old) = 0) || bool_decide (len (b :: new) = 0))
      with false. cbv iota.
    rewrite indexLoop_zero_stride by assumption. reflexivity.
Qed.

Lemma chunkLoop_not_Diverge old new ms : forall lastOld lastNew cs,
  chunkLoop old new ms lastOld lastNew cs <> Diverge.
Proof.
  induction ms as [|mt ms IH]; intros lastOld lastNew cs; simpl; [discriminate|].
  case_bool_decide.
  - unfold slice. repeat case_bool_decide; simpl; try discriminate. apply IH.
  - rewrite bind_Ok_l. apply IH.
Qed.

(** [Compare] always terminates: it returns chunks or panics. *)
Lemma Compare_not_Diverge h old new : snd (Compare h old new) <> Diverge.
Proof.
  destruct (decide (old = new)) as [->|Hne]; [by rewrite Compare_equal|].
  rewrite Compare_differ by assumption. unfold compareChunks.
  destruct (findMatches_total (OptimizeBinaryDiff h new) old new) as [ms ->].
  { pose proof (Optimize_MinMatchLength h new). lia. }
  rewrite bind_Ok_l.
  pose proof (chunkLoop_not_Diverge old new ms 0 0 []) as Hc.
  destruct (chunkLoop old new ms 0 0 []) as [[[cs lo] ln]| |]; [|discriminate|congruence].
  rewrite bind_Ok_l. case_bool_decide; [|discriminate].
  unfold slice_from. repeat case_bool_decide; simpl; discriminate.
Qed.

(** ** Worked inputs and the properties of [Compare] *)

(** [Compare] on buffers that differ, when the new one is small and has at
    most 16 distinct byte values: the low-entropy tuning is used. *)
Lemma Compare_low_entropy h old new :
  old <> new -> (size (countBytes new) <= 16)%nat -> len new <= 1024 * 1024 ->
  snd (Compare h old new) =
    compareChunks {| MinMatchLength := 4; MaxGapSize := 2048; ChunkSize := 2048;
                     Stats := Stats h |} old new.
Proof.
  intros Hne Hs Hl. rewrite Compare_differ by assumption.
  by rewrite Optimize_few_bytes.
Qed.

Lemma merge_example_matches s :
  findMatches {| MinMatchLength := 4; MaxGapSize := 2048; ChunkSize := 2048; Stats := s |}
    (bytesOf "AAAAxxxxBBBB") (bytesOf "AAAAyyyBBBB")
  = Ok [ {| OldOffset := 0; NewOffset := 0; Length := 11 |} ].
Proof. vm_compute. reflexivity. Qed.

(** Evaluate [snd (Compare h old new)] on two literal buffers that differ,
    the new one with few distinct byte values. *)
Ltac eval_Compare h :=
  rewrite Compare_low_entropy;
    [|discriminate|vm_compute; lia|vm_compute; discriminate];
  generalize (Stats h); intros ?; vm_compute; reflexivity.

(** The cases of binary_test.go and the text scenario of the specification
    on the model.  The repository's test expects 6385 for the hash of
    "hello" with window 4; the code computes 1560. *)
Example rollingHash_hello : rollingHash (bytesOf "hello") 4 = 1560.
Proof. reflexivity. Qed.

Example rollingHash_short :
  rollingHash [] 4 = 0 /\ rollingHash (bytesOf "abc") 4 = 0.
Proof. split; reflexivity. Qed.

Example Compare_partial_modification h :
  patchOfCompare h (bytesOf "hello world 123") (bytesOf "hello mars 123")
  = Ok (bytesOf "hello mars 123").
Proof.
  unfold patchOfCompare.
  replace (snd (Compare h (bytesOf "hello world 123") (bytesOf "hello mars 123")))
    with (Ok [ {| Offset := 6; OldData := bytesOf "world 123";
                  NewData := bytesOf "mars 123"; ChunkType := "binary" |} ]).
  - vm_compute. reflexivity.
  - symmetry. eval_Compare h.
Qed.

Example Text_Compare_second_line :
  Text.Compare (bytesOf "hello" ++ Text.newline :: bytesOf "world")
               (bytesOf "hello" ++ Text.newline :: bytesOf "mars")
  = [ {| Offset := 6; OldData := bytesOf "world"; NewData := bytesOf "mars";
         ChunkType := "text" |} ].
Proof. vm_compute. reflexivity. Qed.

(** C1 (round trip).  The code does not have the property.  On
    old = "AAAAxxxxBBBB" and new = "AAAAyyyBBBB" the scan finds the matches
    "AAAA" and "BBBB"; [mergeAdjacentMatches] joins them into one match of
    length 11 over the differing middle, so [Compare] returns no chunk at
    all, and [Patch] of that gives back old, not new. *)
Theorem Compare_Patch_merge_loses_change (h : GenericBinaryHandler) :
  let old := bytesOf "AAAAxxxxBBBB" in
  let new := bytesOf "AAAAyyyBBBB" in
  findMatches (OptimizeBinaryDiff h new) old new
    = Ok [ {| OldOffset := 0; NewOffset := 0; Length := 11 |} ] /\
  snd (Compare h old new) = Ok [] /\
  patchOfCompare h old new = Ok old /\
  old <> new.
Proof.
  intros old new.
  assert (Hne : old <> new) by discriminate.
  assert (Hs : (size (countBytes new) <= 16)%nat) by (vm_compute; lia).
  assert (Hl : len new <= 1024 * 1024) by (vm_compute; discriminate).
  assert (Hc : snd (Compare h old new) = Ok []).
  { rewrite Compare_low_entropy by assumption. generalize (Stats h). intros s.
    vm_compute. reflexivity. }
  split; [|split; [exact Hc|split; [|exact Hne]]].
  - rewrite Optimize_few_bytes by assumption. apply merge_example_matches.
  - unfold patchOfCompare. rewrite Hc. reflexivity.
Qed.

(** A merged match can also run past the end of [old]: the trailing slice
    [old[lastOldEnd:]] is then out of range and [Compare] panics. *)
Lemma Compare_merge_may_panic (h : GenericBinaryHandler) :
  snd (Compare h (bytesOf "AAAA") (bytesOf "AAAAyyyAAAAz")) = Panic.
Proof.
  eval_Compare h.
Qed.

(** C2 (no chunks iff equal).  Equal buffers give no chunks
    ([Compare_equal]); the converse fails.  On old = "hello world" and an
    empty new buffer, the "one empty file" case of binary_test.go, which
    expects chunks, [Compare] returns none: the trailing chunk is emitted
    only when part of new is left over. *)
Theorem Compare_empty_new_gives_no_chunks (h : GenericBinaryHandler) :
  snd (Compare h (bytesOf "hello world") []) = Ok [] /\
  bytesOf "hello world" <> [].
Proof.
  split; [|discriminate].
  eval_Compare h.
Qed.

(** C3 (order of the chunks).  Whenever [Compare] returns, the chunks come
    in non-decreasing offset order and the regions of old they replace,
    from [Offset] to [Offset + len OldData], do not overlap: each ends at or
    before the start of every later one. *)
Theorem Compare_chunks_ordered h old new cs :
  snd (Compare h old new) = Ok cs ->
  forall (i j : nat) ci cj,
    cs !! i = Some ci -> cs !! j = Some cj -> (i < j)%nat ->
    Offset ci <= Offset cj /\ Offset ci + len (OldData ci) <= Offset cj.
Proof.
  intros H i j ci cj Hi Hj Hij.
  destruct (decide (old = new)) as [->|Hne].
  - rewrite Compare_equal in H. simpl in H. inversion H; subst. discriminate.
  - rewrite Compare_differ in H by assumption.
    apply compareChunks_ordered in H.
    + eapply orderedFrom_pairwise; eauto.
    + pose proof (Optimize_MinMatchLength h new). lia.
Qed.

Lemma Compare_two_chunks h :
  snd (Compare h (bytesOf "ABCDEFGHrr") (bytesOf "zzzzABCDEFGHqq")) = Ok twoChunks.
Proof.
  eval_Compare h.
Qed.

Lemma Compare_chunks_ordered_witness :
  snd (Compare NewGenericBinaryHandler (bytesOf "ABCDEFGHrr") (bytesOf "zzzzABCDEFGHqq"))
    = Ok twoChunks /\
  (0 <= 8 /\ 0 + len (@nil byte) <= 8).
Proof.
  split; [apply Compare_two_chunks|].
  exact (Compare_chunks_ordered NewGenericBinaryHandler _ _ twoChunks
           (Compare_two_chunks _) 0%nat 1%nat _ _ eq_refl eq_refl (le_n 1)).
Defined.

Lemma Compare_hello_goodbye h :
  snd (Compare h (bytesOf "hello world") (bytesOf "goodbye world")) = Ok [helloChunk].
Proof.
  eval_Compare h.
Qed.

Lemma Compare_state h old new cs :
  old <> new -> snd (Compare h old new) = Ok cs ->
  exists s, AnalyzeBinaryDiff (OptimizeBinaryDiff h new) old new = Ok s /\
    fst (Compare h old new) = setStats (OptimizeBinaryDiff h new) (compareStats s cs new).
Proof.
  intros Hne H. rewrite Compare_differ in H by assumption.
  destruct (Compare_differ_state h old new cs Hne H) as (s & Hs & Hc).
  exists s. split; [assumption|]. by rewrite Hc.
Qed.

(** C5, as stated, fails: a call of [Compare] on equal buffers returns
    before the stats are touched.  After comparing "hello world" with
    "goodbye world" (one chunk) and then "same" with itself (no chunk),
    [GetLatestStats] still reports one chunk. *)
Lemma GetLatestStats_stale_after_equal_buffers :
  snd (Compare usedHandler (bytesOf "same") (bytesOf "same")) = Ok [] /\
  ChunkCount (GetLatestStats (fst (Compare usedHandler (bytesOf "same") (bytesOf "same")))) = 1.
Proof.
  rewrite Compare_equal. split; [reflexivity|].
  unfold usedHandler. simpl fst.
  assert (Hne : bytesOf "hello world" <> bytesOf "goodbye world") by discriminate.
  destruct (Compare_state NewGenericBinaryHandler _ _ _ Hne
              (Compare_hello_goodbye NewGenericBinaryHandler)) as (s & _ & ->).
  reflexivity.
Qed.

(** C5, amended.  After a call of [Compare] that returns: on buffers that
    differ, [GetLatestStats] gives the stats computed in that call (those of
    [AnalyzeBinaryDiff] on the tuned handler, with the chunk count and the
    entropy of that call), whatever the handler held before; on equal
    buffers the call leaves the stats as they were. *)
Theorem GetLatestStats_after_Compare h old new cs :
  snd (Compare h old new) = Ok cs ->
  (old = new -> GetLatestStats (fst (Compare h old new)) = GetLatestStats h) /\
  (old <> new ->
     (exists s, AnalyzeBinaryDiff (OptimizeBinaryDiff h new) old new = Ok s /\
        GetLatestStats (fst (Compare h old new)) = compareStats s cs new) /\
     (forall h', GetLatestStats (fst (Compare h' old new))
                 = GetLatestStats (fst (Compare h old new)))).
Proof.
  intros H. split.
  - intros ->. by rewrite Compare_equal.
  - intros Hne. destruct (Compare_state h old new cs Hne H) as (s & Hs & Hf).
    split.
    + exists s. split; [assumption|]. by rewrite Hf.
    + intros h'.
      assert (H' : snd (Compare h' old new) = Ok cs).
      { rewrite Compare_differ in * by assumption.
        by rewrite (compareChunks_tuning _ _ old new (Optimize_tuning h' h new)). }
      destruct (Compare_state h' old new cs Hne H') as (s' & Hs' & Hf').
      rewrite (AnalyzeBinaryDiff_tuning _ _ old new (Optimize_tuning h' h new)) in Hs'.
      rewrite Hf, Hf'. simpl. congruence.
Qed.

Lemma GetLatestStats_after_Compare_witness :
  snd (Compare NewGenericBinaryHandler (bytesOf "hello world") (bytesOf "goodbye world"))
    = Ok [helloChunk] /\
  GetLatestStats (fst (Compare usedHandler
                         (bytesOf "hello world") (bytesOf "goodbye world")))
  = GetLatestStats (fst (Compare NewGenericBinaryHandler
                           (bytesOf "hello world") (bytesOf "goodbye world"))).
Proof.
  split; [apply Compare_hello_goodbye|].
  refine (proj2 (proj2 (GetLatestStats_after_Compare NewGenericBinaryHandler _ _ _
                   (Compare_hello_goodbye _)) _) usedHandler).
  discriminate.
Defined.

Lemma findMatches_hello :
  findMatches NewGenericBinaryHandler (bytesOf "hello world") (bytesOf "hello world")
  = Ok [ {| OldOffset := 0; NewOffset := 0; Length := 11 |} ].
Proof. vm_compute. reflexivity. Qed.

(** C6, as stated, fails on [SmallestMatch]: it starts from
    [MinMatchLength] and can only go down.  For "hello world" against itself
    there is one match, of length 11, and [SmallestMatch] is 8. *)
Lemma AnalyzeBinaryDiff_SmallestMatch_not_minimum :
  findMatches NewGenericBinaryHandler (bytesOf "hello world") (bytesOf "hello world")
    = Ok [ {| OldOffset := 0; NewOffset := 0; Length := 11 |} ] /\
  exists s,
    AnalyzeBinaryDiff NewGenericBinaryHandler (bytesOf "hello world") (bytesOf "hello world")
      = Ok s /\
    SmallestMatch s = 8.
Proof.
  split; [apply findMatches_hello|].
  unfold AnalyzeBinaryDiff. rewrite findMatches_hello, bind_Ok_l.
  eexists. split; [reflexivity|]. reflexivity.
Qed.

(** C6, amended.  For a handler with a positive [MinMatchLength],
    [AnalyzeBinaryDiff] returns, and in its stats: [MatchCount] is the
    number of matches; [TotalMatchedBytes] is the sum of their lengths;
    [LargestMatch] is the largest length; [SmallestMatch] is
    [MinMatchLength], a lower bound of every length; with at least one match
    [AverageMatchSize] is [TotalMatchedBytes / MatchCount] and
    [CompressionRatio] is [len new / TotalMatchedBytes]; with no match
    [CompressionRatio] is 1 and the other figures are 0. *)
Theorem AnalyzeBinaryDiff_stats h old new :
  1 <= MinMatchLength h ->
  exists ms s,
    findMatches h old new = Ok ms /\
    AnalyzeBinaryDiff h old new = Ok s /\
    MatchCount s = len ms /\
    TotalMatchedBytes s = sumLengths ms /\
    Forall (fun mt => Length mt <= LargestMatch s) ms /\
    (ms <> [] -> exists mt, mt ∈ ms /\ Length mt = LargestMatch s) /\
    SmallestMatch s = MinMatchLength h /\
    Forall (fun mt => SmallestMatch s <= Length mt) ms /\
    (ms <> [] ->
       0 < TotalMatchedBytes s /\
       AverageMatchSize s = (IZR (TotalMatchedBytes s) / IZR (MatchCount s))%R /\
       CompressionRatio s = (IZR (len new) / IZR (TotalMatchedBytes s))%R) /\
    (ms = [] ->
       CompressionRatio s = 1%R /\ AverageMatchSize s = 0%R /\ LargestMatch s = 0).
Proof.
  intros Hm. destruct (findMatches_total h old new Hm) as [ms Hms].
  pose proof (findMatches_chain h old new ms Hm Hms) as Hc.
  apply chain_lengths in Hc.
  exists ms. unfold AnalyzeBinaryDiff. rewrite Hms, bind_Ok_l.
  case_bool_decide as Hl.
  - assert (ms = []) as -> by (destruct ms; [reflexivity|unfold len in Hl; simpl in Hl; lia]).
    eexists. split; [reflexivity|]. split; [reflexivity|]. simpl.
    repeat split; try constructor; try reflexivity; try congruence.
  - assert (Hne : ms <> []) by (intros ->; apply Hl; reflexivity).
    unfold analyzeLoop. rewrite analyzeLoop_spec.
    eexists. split; [reflexivity|]. split; [reflexivity|]. simpl.
    pose proof (foldl_max_spec ms 0) as (Hx1 & Hx2 & Hx3). simpl in Hx1, Hx2, Hx3.
    pose proof (foldl_min_ge ms (MinMatchLength h) (MinMatchLength h) ltac:(lia) Hc) as Hn1.
    pose proof (foldl_min_le ms (MinMatchLength h)) as Hn2.
    pose proof (sumLengths_pos _ ms Hm Hne Hc) as Hsum.
    assert (Hmin : foldl (λ a mt, a `min` Length mt) (MinMatchLength h) ms = MinMatchLength h)
      by lia.
    repeat split; try assumption; try reflexivity; try lia; try congruence.
    + intros _. destruct Hx3 as [H0|Hex]; [|exact Hex].
      destruct ms as [|mt ms']; [congruence|].
      inversion Hx2; subst. inversion Hc; subst. lia.
    + rewrite Hmin. exact Hc.
Qed.

Lemma AnalyzeBinaryDiff_stats_witness :
  1 <= MinMatchLength NewGenericBinaryHandler /\
  exists ms s,
    findMatches NewGenericBinaryHandler (bytesOf "hello world") (bytesOf "hello world") = Ok ms /\
    AnalyzeBinaryDiff NewGenericBinaryHandler (bytesOf "hello world") (bytesOf "hello world") = Ok s /\
    SmallestMatch s = MinMatchLength NewGenericBinaryHandler.
Proof.
  split; [vm_compute; discriminate|].
  destruct (AnalyzeBinaryDiff_stats NewGenericBinaryHandler
              (bytesOf "hello world") (bytesOf "hello world"))
    as (ms & s & H1 & H2 & _ & _ & _ & _ & H3 & _).
  - vm_compute. discriminate.
  - exists ms, s. auto.
Defined.

(** C7 (tuning by entropy).  For a buffer of at most 1 MiB,
    [OptimizeBinaryDiff] sets [MinMatchLength] and [MaxGapSize] to 16 and
    256 when the entropy is above 0.8, to 8 and 1024 when it is above 0.5
    and at most 0.8, and to 4 and 2048 when it is at most 0.5. *)
Theorem OptimizeBinaryDiff_by_entropy h data :
  len data <= 1024 * 1024 ->
  ((calculateEntropy data > 0.8)%R ->
     MinMatchLength (OptimizeBinaryDiff h data) = 16 /\
     MaxGapSize (OptimizeBinaryDiff h data) = 256) /\
  ((calculateEntropy data > 0.5)%R /\ (calculateEntropy data <= 0.8)%R ->
     MinMatchLength (OptimizeBinaryDiff h data) = 8 /\
     MaxGapSize (OptimizeBinaryDiff h data) = 1024) /\
  ((calculateEntropy data <= 0.5)%R ->
     MinMatchLength (OptimizeBinaryDiff h data) = 4 /\
     MaxGapSize (OptimizeBinaryDiff h data) = 2048).
Proof.
  intros Hl. unfold OptimizeBinaryDiff.
  rewrite !bool_decide_eq_false_2 by lia.
  destruct (Rgt_dec _ 0.8) as [H8|H8]; [|destruct (Rgt_dec _ 0.5) as [H5|H5]];
    simpl; repeat split; intros; try reflexivity; lra.
Qed.

Lemma OptimizeBinaryDiff_by_entropy_witness :
  len (bytesOf "hello world") <= 1024 * 1024 /\
  MinMatchLength (OptimizeBinaryDiff NewGenericBinaryHandler (bytesOf "hello world")) = 4 /\
  MaxGapSize (OptimizeBinaryDiff NewGenericBinaryHandler (bytesOf "hello world")) = 2048.
Proof.
  assert (Hl : len (bytesOf "hello world") <= 1024 * 1024) by (vm_compute; discriminate).
  split; [exact Hl|].
  apply (OptimizeBinaryDiff_by_entropy NewGenericBinaryHandler _ Hl).
  apply Rle_trans with (INR 3 / 8)%R.
  - apply calculateEntropy_le_distinct; [discriminate|vm_compute; lia].
  - simpl. lra.
Defined.

(** C8 (entropy bounds).  [calculateEntropy] lies between 0 and 1 on every
    buffer, is 0 on the empty buffer, and is 0 on every non-empty buffer
    that repeats one byte value. *)
Theorem calculateEntropy_unit_interval :
  (forall data, (0 <= calculateEntropy data <= 1)%R) /\
  calculateEntropy [] = 0%R /\
  (forall (n : nat) (b : byte), calculateEntropy (replicate (S n) b) = 0%R).
Proof.
  split; [apply calculateEntropy_range|]. split; [reflexivity|].
  intros n b. apply calculateEntropy_replicate.
Qed.

(** C9 (empty patch).  Both handlers return the buffer unchanged, without
    error, when there is no chunk to apply. *)
Theorem Patch_no_chunks (x : list byte) :
  Binary.Patch x [] = Ok x /\ Text.Patch x [] = Ok x.
Proof. split; reflexivity. Qed.

Lemma lineLoop_types oldLines : forall newLines offset cs,
  Forall (fun c => ChunkType c = "text") cs ->
  Forall (fun c => ChunkType c = "text") (Text.lineLoop oldLines newLines offset cs).
Proof.
  induction oldLines as [|o oldLines IH]; intros [|n newLines] offset cs Hall; simpl;
    try assumption.
  apply IH. case_bool_decide; [assumption|].
  apply Forall_app. split; [assumption|]. by repeat constructor.
Qed.

(** C10 (chunk tags).  Every chunk the binary handler returns is tagged
    "binary" and every chunk the text handler returns is tagged "text", the
    values of their [GetFileType]. *)
Theorem chunks_carry_the_handler_type h old new :
  (forall cs, snd (Binary.Compare h old new) = Ok cs ->
     Forall (fun c => ChunkType c = Binary.GetFileType) cs) /\
  Forall (fun c => ChunkType c = Text.GetFileType) (Text.Compare old new) /\
  Binary.GetFileType = "binary" /\ Text.GetFileType = "text".
Proof.
  split; [|split; [|split; reflexivity]].
  - intros cs H. destruct (decide (old = new)) as [->|Hne].
    + rewrite Compare_equal in H. inversion H. constructor.
    + rewrite Compare_differ in H by assumption. by apply compareChunks_types in H.
  - unfold Text.Compare. case_bool_decide; [constructor|].
    apply lineLoop_types. constructor.
Qed.

Lemma chunks_carry_the_handler_type_witness :
  snd (Binary.Compare NewGenericBinaryHandler (bytesOf "ABCDEFGHrr") (bytesOf "zzzzABCDEFGHqq"))
    = Ok twoChunks /\
  Forall (fun c => ChunkType c = Binary.GetFileType) twoChunks.
Proof.
  split; [apply Compare_two_chunks|].
  exact (proj1 (chunks_carry_the_handler_type NewGenericBinaryHandler _ _) twoChunks
           (Compare_two_chunks _)).
Defined.

End BinaryFacts.

(** * Properties of the directory orchestrator *)

Module EngineFacts.
Import Engine EngineNotions RunNotions.



Lemma result_bind_Ok {A B} (r : result A) (f : A -> result B) (b : B) :
  r ≫= f = Ok b -> exists a, r = Ok a /\ f a = Ok b.
Proof. destruct r; simpl; intros H; try discriminate. eauto. Qed.

Section OneRun.
Context (os : OS) (e : DiffEngine) (oldDir newDir : string).

(** ** Compression *)

Lemma compressData_returns data compress level :
  compress = false \/ -2 <= level <= 9 ->
  exists d, compressData os data compress level = Ok d.
Proof.
  intros H. unfold compressData. destruct compress; simpl; [|eauto].
  destruct H as [H|H]; [discriminate|].
  rewrite bool_decide_eq_true_2 by assumption. eauto.
Qed.

Lemma compressChunks_returns chunks level :
  -2 <= level <= 9 -> exists cs, compressChunks os chunks level = Ok cs.
Proof.
  intros H. induction chunks as [|c chunks [cs IH]]; simpl; [eauto|].
  destruct (compressData_returns (NewData c) true level (or_intror H)) as [d ->].
  simpl. rewrite IH. simpl. eauto.
Qed.

Lemma compressChunks_Ok chunks level : forall cs,
  compressChunks os chunks level = Ok cs ->
  Forall2 (fun c c' =>
             Offset c' = Offset c /\ OldData c' = OldData c /\
             ChunkType c' = ChunkType c /\
             compressData os (NewData c) true level = Ok (NewData c'))
          chunks cs.
Proof.
  induction chunks as [|c chunks IH]; intros cs; simpl.
  - intros [= <-]. constructor.
  - intros H. apply result_bind_Ok in H as (d & Hd & H).
    apply result_bind_Ok in H as (rest & Hrest & H).
    injection H as <-. constructor; [simpl; auto|by apply IH].
Qed.

(** ** [compareFiles] *)

(** A result of [compareFiles] always has a chunk, so the critical section
    never indexes an empty [Chunks]. *)
Lemma compareFiles_chunks_nonempty oldPath newPath newInfo result :
  compareFiles os e oldPath newPath newInfo = Ok (inr (Some result)) ->
  Chunks result <> [].
Proof.
  unfold compareFiles. intros H.
  destruct (ReadFile os oldPath) as [oldData|err [|]].
  - destruct (ReadFile os newPath) as [newData|err' ?]; [|discriminate].
    case_bool_decide; [discriminate|].
    apply result_bind_Ok in H as ([chunks [err|]] & Hc & H); [discriminate|].
    case_bool_decide as Hl; [discriminate|].
    apply result_bind_Ok in H as (chunks' & Hz & H).
    injection H as <-. simpl.
    destruct chunks as [|c chunks]; [exfalso; apply Hl; reflexivity|].
    destruct (CompressPatches _).
    + apply compressChunks_Ok in Hz. inversion Hz; subst. discriminate.
    + injection Hz as <-. discriminate.
  - destruct (ReadFile os newPath) as [newData|err' ?]; [|discriminate].
    apply result_bind_Ok in H as (d & Hd & H).
    injection H as <-. simpl. discriminate.
  - discriminate.
Qed.

(** The fields of a result that the summary reads. *)
Lemma compareFiles_Some_fields oldPath newPath newInfo result :
  compareFiles os e oldPath newPath newInfo = Ok (inr (Some result)) ->
  (Operation result = "added" \/ Operation result = "modified") /\
  Path result = Base os newPath /\
  Size result = InfoSize newInfo.
Proof.
  unfold compareFiles. intros H.
  destruct (ReadFile os oldPath) as [oldData|err [|]].
  - destruct (ReadFile os newPath) as [newData|err' ?]; [|discriminate].
    case_bool_decide; [discriminate|].
    apply result_bind_Ok in H as ([chunks [err|]] & Hc & H); [discriminate|].
    case_bool_decide as Hl; [discriminate|].
    apply result_bind_Ok in H as (chunks' & Hz & H).
    injection H as <-. simpl. auto.
  - destruct (ReadFile os newPath) as [newData|err' ?]; [|discriminate].
    apply result_bind_Ok in H as (d & Hd & H).
    injection H as <-. simpl. auto.
  - discriminate.
Qed.

(** When [compareFiles] returns an error. *)
Lemma compareFiles_error_iff oldPath newPath newInfo err :
  compareFiles os e oldPath newPath newInfo = Ok (inl err) <->
  ReadFile os oldPath = ReadError err false \/
  ((forall err', ReadFile os oldPath <> ReadError err' false) /\
   exists notExist, ReadFile os newPath = ReadError err notExist) \/
  (exists oldData newData chunks,
     ReadFile os oldPath = ReadData oldData /\
     ReadFile os newPath = ReadData newData /\
     oldData <> newData /\
     Compare (getHandler os e newPath) oldData newData = Ok (chunks, Some err)).
Proof.
  unfold compareFiles.
  destruct (ReadFile os oldPath) as [oldData|err0 [|]] eqn:Eo.
  - destruct (ReadFile os newPath) as [newData|err' ne] eqn:En.
    + case_bool_decide as Heq.
      { split; [discriminate|].
        intros [H|[(_ & ne & H)|(o & n & c & H1 & H2 & H3 & _)]]; try discriminate.
        congruence. }
      destruct (Compare _ oldData newData) as [[chunks [err1|]]| |] eqn:Ec; simpl.
      * split.
        -- intros [= <-]. right. right. exists oldData, newData, chunks. auto.
        -- intros [H|[(_ & ne & H)|(o & n & c & H1 & H2 & H3 & H4)]]; try discriminate.
           inversion H1; inversion H2; subst. rewrite Ec in H4. congruence.
      * split.
        -- case_bool_decide; [discriminate|].
           destruct (if CompressPatches (config e) then _ else _); discriminate.
        -- intros [H|[(_ & ne & H)|(o & n & c & H1 & H2 & H3 & H4)]]; try discriminate.
           inversion H1; inversion H2; subst. rewrite Ec in H4. discriminate.
      * split; [discriminate|].
        intros [H|[(_ & ne & H)|(o & n & c & H1 & H2 & H3 & H4)]]; try discriminate.
        inversion H1; inversion H2; subst. rewrite Ec in H4. discriminate.
      * split; [discriminate|].
        intros [H|[(_ & ne & H)|(o & n & c & H1 & H2 & H3 & H4)]]; try discriminate.
        inversion H1; inversion H2; subst. rewrite Ec in H4. discriminate.
    + split.
      * intros [= <-]. right. left. split; [discriminate|]. by exists ne.
      * intros [H|[(_ & ne' & H)|(o & n & c & H1 & H2 & _)]]; try discriminate.
        congruence.
  - destruct (ReadFile os newPath) as [newData|err' ne] eqn:En.
    + split.
      * destruct (compressData _ _ _ _); discriminate.
      * intros [H|[(_ & ne' & H)|(o & n & c & H1 & _)]]; discriminate.
    + split.
      * intros [= <-]. right. left. split; [discriminate|]. by exists ne.
      * intros [H|[(_ & ne' & H)|(o & n & c & H1 & _)]]; try discriminate. congruence.
  - split.
    + intros [= <-]. left. reflexivity.
    + intros [H|[(Hno & _)|(o & n & c & H1 & _)]]; try discriminate.
      * congruence.
      * exfalso. eapply Hno. reflexivity.
Qed.

(** [compareFiles] returns when the handlers return and the compression
    level is accepted. *)
Lemma compareFiles_returns oldPath newPath newInfo :
  levelAccepted e -> handlersReturn os e ->
  exists r, compareFiles os e oldPath newPath newInfo = Ok r.
Proof.
  intros Hl Hh. unfold compareFiles.
  destruct (ReadFile os oldPath) as [oldData|err0 [|]].
  - destruct (ReadFile os newPath) as [newData|err' ne]; [|eauto].
    case_bool_decide; [eauto|].
    destruct (Hh newPath oldData newData) as [[chunks [err|]] ->]; simpl; [eauto|].
    case_bool_decide; [eauto|].
    destruct (CompressPatches (config e)) eqn:Ecp; simpl; [|eauto].
    destruct Hl as [Hl|Hl]; [congruence|].
    destruct (compressChunks_returns chunks _ Hl) as [cs ->]. simpl. eauto.
  - destruct (ReadFile os newPath) as [newData|err' ne]; [|eauto].
    destruct (compressData_returns newData (CompressPatches (config e))
                (CompressionLevel (config e))) as [d ->]; [|simpl; eauto].
    destruct Hl as [Hl|Hl]; auto.
  - eauto.
Qed.

(** ** The goroutines *)

Lemma runJobs_Ok js : forall st st',
  runJobs os e oldDir st js = Ok st' ->
  st' =
  {| summary := summarize (summary st) (omap (jobResult os e oldDir) js);
     results := results st ++ (omap (jobResult os e oldDir) js).*1;
     log := log st ++ omap (jobError os e oldDir) js |}.
Proof.
  induction js as [|j js IH]; intros st st'; simpl.
  - intros [= <-]. rewrite !app_nil_r. by destruct st.
  - intros H. apply result_bind_Ok in H as (st1 & H1 & H).
    apply IH in H. subst st'.
    unfold runJob in H1. apply result_bind_Ok in H1 as (r & Hr & H1).
    unfold jobResult, jobError, jobCompare. rewrite Hr.
    destruct r as [err|[result|]]; injection H1 as <-; simpl;
      rewrite <- ?app_assoc; reflexivity.
Qed.

Lemma runJobs_returns js : forall st,
  Forall (fun j => exists r, jobCompare os e oldDir j = Ok r) js ->
  exists st', runJobs os e oldDir st js = Ok st'.
Proof.
  induction js as [|j js IH]; intros st Hall; simpl; [eauto|].
  inversion Hall as [|? ? [r Hr] Hall']; subst.
  unfold runJob. unfold jobCompare in Hr. rewrite Hr. simpl.
  destruct r as [err|[result|]]; simpl; by apply IH.
Qed.

Lemma startJobs_returns js : forall stuck,
  stuck < Concurrency (config e) ->
  Forall (fun j => exists r, jobCompare os e oldDir j = Ok r) js ->
  startJobs os e oldDir js stuck = Ok stuck.
Proof.
  induction js as [|j js IH]; intros stuck Hc Hall; simpl; [reflexivity|].
  inversion Hall as [|? ? [r Hr] Hall']; subst.
  rewrite bool_decide_eq_false_2 by lia.
  unfold jobCompare in Hr. rewrite Hr. by apply IH.
Qed.

Lemma jobResult_in_results jobs r :
  r ∈ (omap (jobResult os e oldDir) jobs).*1 ->
  exists j, j ∈ jobs /\ jobCompare os e oldDir j = Ok (inr (Some r)).
Proof.
  intros Hr. apply list_elem_of_fmap in Hr as ([r' info] & -> & Hin).
  apply list_elem_of_omap in Hin as (j & Hj & Hres).
  exists j. split; [assumption|].
  unfold jobResult in Hres.
  destruct (jobCompare os e oldDir j) as [[err|[r''|]]| |]; try discriminate.
  by inversion Hres.
Qed.



(** ** The two walks *)



Lemma walkNew_clean visits : forall jobs lg,
  Forall (cleanVisit os newDir) visits ->
  (walkNew os e newDir visits jobs lg).1.1 = None.
Proof.
  induction visits as [|u visits IH]; intros jobs lg Hall; simpl; [reflexivity|].
  inversion Hall as [|? ? [Hu [rel Hrel]] Hall']; subst. rewrite Hu.
  destruct (InfoIsDir _); [by apply IH|].
  case_bool_decide; [by apply IH|].
  rewrite Hrel. destruct (existsb _ _); by apply IH.
Qed.


Lemma walkOld_spec visits : forall st,
  exists deleted,
    results (walkOld os oldDir newDir visits st).1 = results st ++ deleted /\
    Forall (fun r => Operation r = "deleted") deleted /\
    TotalFiles (summary (walkOld os oldDir newDir visits st).1)
      = TotalFiles (summary st) + len deleted /\
    DeletedFiles (summary (walkOld os oldDir newDir visits st).1)
      = DeletedFiles (summary st) + len deleted /\
    log (walkOld os oldDir newDir visits st).1 = log st.
Proof.
  induction visits as [|u visits IH]; intros st; simpl.
  - exists []. rewrite app_nil_r. unfold len; simpl. repeat split; try constructor; lia.
  - destruct (vErr u) as [err|].
    { exists []. rewrite app_nil_r. unfold len; simpl. repeat split; try constructor; lia. }
    destruct (InfoIsDir _); [apply IH|].
    destruct (Rel os oldDir (vPath u)) as [err|rel].
    { exists []. rewrite app_nil_r. unfold len; simpl. repeat split; try constructor; lia. }
    destruct (StatNotExist os _); [|apply IH].
    match goal with |- context [walkOld _ _ _ _ ?st'] =>
      destruct (IH st') as (deleted & H1 & H2 & H3 & H4 & H5) end.
    simpl in *. eexists (_ :: deleted).
    rewrite H1, H3, H4, H5, <- app_assoc. simpl.
    split; [reflexivity|]. split; [constructor; [reflexivity|assumption]|].
    unfold len; simpl length. repeat split; lia.
Qed.

(** The second walk over entries that raise no error: one deletion for
    each file without a counterpart, and then the rest of the walk. *)
Lemma walkOld_app_clean pre rest : forall st,
  Forall (cleanVisit os oldDir) pre ->
  exists st1,
    walkOld os oldDir newDir (pre ++ rest) st = walkOld os oldDir newDir rest st1 /\
    results st1 = results st ++ omap (deletedResult os oldDir newDir) pre /\
    TotalFiles (summary st1)
      = TotalFiles (summary st) + len (omap (deletedResult os oldDir newDir) pre) /\
    DeletedFiles (summary st1)
      = DeletedFiles (summary st) + len (omap (deletedResult os oldDir newDir) pre) /\
    log st1 = log st.
Proof.
  induction pre as [|u pre IH]; intros st Hall.
  - exists st. cbn [app omap list_omap]. rewrite app_nil_r.
    unfold len; simpl. repeat split; lia.
  - inversion Hall as [|? ? [Hu [rel Hrel]] Hall']; subst.
    cbn [app walkOld omap list_omap]. rewrite Hu.
    destruct (InfoIsDir (vInfo u)) eqn:Ed.
    { replace (deletedResult os oldDir newDir u) with (@None DiffResult)
        by (unfold deletedResult; by rewrite Ed).
      by apply IH. }
    rewrite Hrel. destruct (StatNotExist os (Join os newDir rel)) eqn:Es.
    2:{ replace (deletedResult os oldDir newDir u) with (@None DiffResult)
          by (unfold deletedResult; by rewrite Ed, Hrel, Es).
        by apply IH. }
    destruct (deletedResult os oldDir newDir u) as [d|] eqn:Hd;
      unfold deletedResult in Hd; rewrite Ed, Hrel, Es in Hd; [|discriminate].
    injection Hd as <-.
    match goal with |- context [walkOld _ _ _ (pre ++ rest) ?st'] =>
      destruct (IH st' Hall') as (st1 & H0 & H1 & H2 & H3 & H4) end.
    exists st1. rewrite H0, H1, H2, H3, H4.
    cbn [results summary TotalFiles DeletedFiles log].
    rewrite <- app_assoc. unfold len; simpl length.
    repeat split; try lia; reflexivity.
Qed.

Lemma walkOld_clean visits : forall st,
  Forall (cleanVisit os oldDir) visits ->
  (walkOld os oldDir newDir visits st).2 = None.
Proof.
  intros st Hall.
  destruct (walkOld_app_clean visits [] st Hall) as (st1 & H0 & _).
  rewrite app_nil_r in H0. rewrite H0. reflexivity.
Qed.

Lemma walkOld_clean_results visits : forall st,
  Forall (cleanVisit os oldDir) visits ->
  results (walkOld os oldDir newDir visits st).1
  = results st ++ omap (deletedResult os oldDir newDir) visits.
Proof.
  intros st Hall.
  destruct (walkOld_app_clean visits [] st Hall) as (st1 & H0 & H1 & _).
  rewrite app_nil_r in H0. rewrite H0. exact H1.
Qed.





(** ** [CompareDirs] *)

(** What a call of [CompareDirs] that returns has done. *)
Lemma CompareDirs_Ok out :
  CompareDirs os e oldDir newDir = Ok out ->
  (exists err,
     (walkNew os e newDir (Walk os newDir) [] []).1.1 = Some err /\
     outErr out = Some err /\ outSummary out = None /\ outResults out = []) \/
  ((walkNew os e newDir (Walk os newDir) [] []).1.1 = None /\
   exists st,
     st = {| summary := summarize emptySummary
                          (omap (jobResult os e oldDir)
                             (completion os (dispatched os e newDir)));
             results := (omap (jobResult os e oldDir)
                           (completion os (dispatched os e newDir))).*1;
             log := omap (jobError os e oldDir)
                      (completion os (dispatched os e newDir)) |} /\
     out = {| outSummary := Some (summary (walkOld os oldDir newDir (Walk os oldDir) st).1);
              outResults := results (walkOld os oldDir newDir (Walk os oldDir) st).1;
              outErr := (walkOld os oldDir newDir (Walk os oldDir) st).2;
              outLog := interleave (logSchedule os)
                          (walkNew os e newDir (Walk os newDir) [] []).2
                          (log (walkOld os oldDir newDir (Walk os oldDir) st).1) |}).
Proof.
  unfold CompareDirs, dispatched.
  case_bool_decide as Hc; [discriminate|].
  destruct (walkNew os e newDir (Walk os newDir) [] []) as [[werr jobs] lg].
  cbn [fst snd]. intros H. apply result_bind_Ok in H as (stuck & Hs & H).
  destruct werr as [err|].
  - injection H as <-. left. exists err. auto.
  - right. split; [reflexivity|].
    case_bool_decide as Hstuck; [discriminate|].
    apply result_bind_Ok in H as (st & Hst & H).
    apply runJobs_Ok in Hst. cbn [summary results log app] in Hst.
    eexists. split; [reflexivity|]. rewrite <- Hst.
    destruct (walkOld os oldDir newDir (Walk os oldDir) st) as [st' err'].
    injection H as <-. reflexivity.
Qed.

(** [CompareDirs] returns when the admission gate has room, the handlers
    return and the compression level is accepted. *)
Lemma CompareDirs_returns :
  0 < Concurrency (config e) -> levelAccepted e -> handlersReturn os e ->
  exists out, CompareDirs os e oldDir newDir = Ok out.
Proof.
  intros Hc Hl Hh. unfold CompareDirs.
  rewrite bool_decide_eq_false_2 by lia.
  destruct (walkNew os e newDir (Walk os newDir) [] []) as [[werr jobs] lg].
  assert (Hjobs : forall js, Forall (fun j => exists r, jobCompare os e oldDir j = Ok r) js).
  { intros js. apply Forall_forall. intros j _. by apply compareFiles_returns. }
  rewrite (startJobs_returns jobs 0 Hc (Hjobs jobs)). simpl.
  destruct werr as [err|]; [eauto|].
  destruct (runJobs_returns (completion os jobs)
              {| summary := emptySummary; results := []; log := [] |}
              (Hjobs _)) as [st ->].
  simpl. destruct (walkOld os oldDir newDir (Walk os oldDir) st) as [st' err'].
  eauto.
Qed.

End OneRun.





Lemma demo_handlers_return os : handlersReturn os demoEngine.
Proof. intros filename old new. eexists. reflexivity. Qed.


Lemma default_level_accepted h d : 
  levelAccepted {| handlers := h; defaultHandler := d; config := DefaultConfig |}.
Proof. right. simpl. lia. Qed.

(** The run in the first world: [a.txt] is logged and left out, [b.bin] is
    reported as added. *)
Example CompareDirs_demo :
  exists out,
    CompareDirs demoOS demoEngine "old" "new" = Ok out /\
    outErr out = None /\
    Path <$> outResults out = ["b.bin"] /\
    TotalFiles <$> outSummary out = Some 1 /\
    outLog out = [LogCompareError "a.txt" "permission denied"].
Proof. eexists. split; [vm_compute; reflexivity|]. vm_compute. auto. Qed.

(** Runs that do not return.  With no room in the admission gate the walk
    blocks at the first file it wants to compare; a negative capacity
    panics; so does a compression level [gzip] refuses, and a handler that
    panics; the run waits for ever for a handler that never returns. *)
Example CompareDirs_no_return :
  CompareDirs demoOS (tunedEngine 0 9 demoHandler) "old" "new" = Diverge /\
  CompareDirs demoOS (tunedEngine (-1) 9 demoHandler) "old" "new" = Panic /\
  CompareDirs demoOS (tunedEngine 4 42 demoHandler) "old" "new" = Panic /\
  CompareDirs editedOS (tunedEngine 4 9 faultyHandler) "old" "new" = Panic /\
  CompareDirs editedOS (tunedEngine 4 9 endlessHandler) "old" "new" = Diverge.
Proof. vm_compute. auto. Qed.


End EngineFacts.

(** * More on the binary delta matcher *)

Module BinaryMore.
Import Binary Notions DeltaNotions BinaryFacts.

(** *** rollingHash *)

Lemma hashStep_congr (a b : Z) (x : byte) :
  a mod 2 ^ 32 = b mod 2 ^ 32 ->
  wrap32 (wrap32 (Z.shiftl a 1) + byteZ x) = wrap32 (wrap32 (Z.shiftl b 1) + byteZ x).
Proof.
  intros H. unfold wrap32. rewrite !Z.shiftl_mul_pow2 by lia.
  rewrite !Zplus_mod_idemp_l. change (2 ^ 1) with 2.
  rewrite (Z.add_mod (a * 2)), (Z.add_mod (b * 2)) by lia.
  rewrite (Z.mul_mod a), (Z.mul_mod b) by lia. rewrite H. reflexivity.
Qed.

Lemma foldl_hash_weighted bs : forall a,
  foldl (fun hash b => wrap32 (wrap32 (Z.shiftl hash 1) + byteZ b)) a bs mod 2 ^ 32
  = (a * 2 ^ len bs + weighted bs) mod 2 ^ 32.
Proof.
  induction bs as [|x bs IH]; intros a; simpl.
  - unfold len; simpl. f_equal. lia.
  - rewrite IH. unfold wrap32. rewrite Z.shiftl_mul_pow2 by lia. change (2 ^ 1) with 2.
    rewrite Zplus_mod_idemp_l.
    pose proof (len_nonneg bs) as Hl.
    replace (len (x :: bs)) with (len bs + 1) by (unfold len; simpl length; lia).
    rewrite Z.pow_add_r by lia. change (2 ^ 1) with 2.
    rewrite Z.add_mod by lia. rewrite Z.mul_mod by lia. rewrite Z.mod_mod by lia.
    rewrite <- Z.mul_mod by lia. rewrite <- Z.add_mod by lia.
    f_equal. lia.
Qed.

Lemma foldl_hash_range bs : forall a,
  0 <= a < 2 ^ 32 ->
  0 <= foldl (fun hash b => wrap32 (wrap32 (Z.shiftl hash 1) + byteZ b)) a bs < 2 ^ 32.
Proof.
  induction bs as [|x bs IH]; intros a Ha; simpl; [assumption|].
  apply IH. unfold wrap32. apply Z.mod_pos_bound. lia.
Qed.

(** [rollingHash] in closed form.  The hash is a 32-bit value; a buffer
    shorter than the window hashes to 0; otherwise the hash is the window
    read as a polynomial in 2, the first byte with the highest weight,
    reduced modulo 2^32.  Bytes past the window play no part. *)
Theorem rollingHash_weighted_sum (data : list byte) (window : Z) :
  0 <= rollingHash data window < 2 ^ 32 /\
  (len data < window -> rollingHash data window = 0) /\
  (0 <= window <= len data ->
   rollingHash data window = weighted (take (Z.to_nat window) data) mod 2 ^ 32).
Proof.
  unfold rollingHash. split; [|split].
  - case_bool_decide; [lia|]. apply foldl_hash_range. lia.
  - intros H. by rewrite bool_decide_eq_true_2.
  - intros H. rewrite bool_decide_eq_false_2 by lia.
    pose proof (foldl_hash_range (take (Z.to_nat window) data) 0 ltac:(lia)) as Hr.
    rewrite <- (Z.mod_small _ (2 ^ 32) Hr). rewrite foldl_hash_weighted.
    f_equal.
Qed.

Lemma rollingHash_weighted_sum_witness :
  0 <= 4 <= len (bytesOf "hello") /\
  rollingHash (bytesOf "hello") 4
    = (104 * 8 + 101 * 4 + 108 * 2 + 108) mod 2 ^ 32.
Proof.
  split; [vm_compute; split; discriminate|].
  refine (proj2 (proj2 (rollingHash_weighted_sum (bytesOf "hello") 4)) _).
  vm_compute; split; discriminate.
Defined.

(** *** extendMatch *)

(** [extendMatch] returns the length of the longest common prefix of its
    two buffers: the buffers agree on that many bytes, the length is
    within both, and unless one buffer is used up the next two bytes
    differ. *)
Theorem extendMatch_longest_common_prefix (old new : list byte) :
  0 <= extendMatch old new <= Z.min (len old) (len new) /\
  take (Z.to_nat (extendMatch old new)) old
    = take (Z.to_nat (extendMatch old new)) new /\
  (extendMatch old new < Z.min (len old) (len new) ->
   old !! Z.to_nat (extendMatch old new) <> new !! Z.to_nat (extendMatch old new)).
Proof.
  revert new. induction old as [|a old IH]; intros [|b new]; simpl;
    unfold len; simpl length; try (split; [lia|split; [reflexivity|lia]]).
  case_bool_decide as Hab.
  - subst b. destruct (IH new) as (H1 & H2 & H3).
    unfold len in *.
    assert (Hk : Z.to_nat (1 + extendMatch old new) = S (Z.to_nat (extendMatch old new)))
      by lia.
    rewrite Hk. simpl. split; [lia|]. split; [by rewrite H2|].
    intros Hlt. apply H3. lia.
  - split; [lia|]. split; [reflexivity|]. intros _. simpl. congruence.
Qed.

Lemma extendMatch_longest_common_prefix_witness :
  extendMatch [x61; x62; x63; x58] [x61; x62; x63; x59; x5a] = 3 /\
  [x61; x62; x63; x58] !! 3%nat <> [x61; x62; x63; x59; x5a] !! 3%nat.
Proof.
  split; [reflexivity|].
  apply (proj2 (proj2 (extendMatch_longest_common_prefix
                         [x61; x62; x63; x58] [x61; x62; x63; x59; x5a]))).
  vm_compute. reflexivity.
Defined.


(** *** mergeAdjacentMatches *)

Lemma mergeLoop_head g rest : forall cur,
  exists c out, mergeLoop g cur rest [] = c :: out /\
    OldOffset c = OldOffset cur /\ NewOffset c = NewOffset cur.
Proof.
  induction rest as [|next rest IH]; intros cur; simpl.
  - eauto.
  - destruct (_ && _).
    + destruct (IH {| OldOffset := OldOffset cur; NewOffset := NewOffset cur;
                      Length := NewOffset next + Length next - NewOffset cur |})
        as (c & out & -> & H1 & H2). eauto.
    + rewrite mergeLoop_app. simpl. eauto.
Qed.

Lemma gapsWithin_offsets g a b b' :
  OldOffset b = OldOffset b' -> NewOffset b = NewOffset b' ->
  gapsWithin g a b = gapsWithin g a b'.
Proof. unfold gapsWithin. intros -> ->. reflexivity. Qed.

Lemma mergeLoop_settled g rest : forall cur, settled g (mergeLoop g cur rest []).
Proof.
  induction rest as [|next rest IH]; intros cur; simpl; [exact I|].
  destruct (_ && _) eqn:E; [apply IH|].
  rewrite mergeLoop_app. simpl.
  destruct (mergeLoop_head g rest next) as (c & out & Heq & H1 & H2).
  pose proof (IH next) as Hs. rewrite Heq in *. simpl. split; [|exact Hs].
  rewrite (gapsWithin_offsets g cur c next H1 H2). exact E.
Qed.

Lemma mergeLoop_of_settled g rest : forall cur,
  settled g (cur :: rest) -> mergeLoop g cur rest [] = cur :: rest.
Proof.
  induction rest as [|next rest IH]; intros cur Hs; simpl; [reflexivity|].
  destruct Hs as [Hg Hs]. unfold gapsWithin in Hg. rewrite Hg.
  rewrite mergeLoop_app. simpl. f_equal. by apply IH.
Qed.

Lemma mergeAdjacentMatches_settled h ms :
  (2 <= length ms)%nat -> settled (MaxGapSize h) (mergeAdjacentMatches h ms).
Proof.
  intros Hl. unfold mergeAdjacentMatches. rewrite bool_decide_eq_false_2 by (unfold len; lia).
  destruct ms; [simpl in Hl; lia|]. apply mergeLoop_settled.
Qed.

Lemma mergeAdjacentMatches_of_settled h ms :
  settled (MaxGapSize h) ms -> mergeAdjacentMatches h ms = ms.
Proof.
  intros Hs. unfold mergeAdjacentMatches. case_bool_decide; [reflexivity|].
  destruct ms; [reflexivity|]. by apply mergeLoop_of_settled.
Qed.

Lemma mergeLoop_length g rest : forall cur,
  (1 <= length (mergeLoop g cur rest []) <= S (length rest))%nat.
Proof.
  induction rest as [|next rest IH]; intros cur; simpl; [lia|].
  destruct (_ && _).
  - specialize (IH {| OldOffset := OldOffset cur; NewOffset := NewOffset cur;
                      Length := NewOffset next + Length next - NewOffset cur |}). lia.
  - rewrite mergeLoop_app. simpl. specialize (IH next). lia.
Qed.

Lemma mergeLoop_last g rest : forall cur,
  newEnd <$> last (mergeLoop g cur rest []) = newEnd <$> last (cur :: rest).
Proof.
  induction rest as [|next rest IH]; intros cur; [reflexivity|].
  simpl mergeLoop. destruct (_ && _).
  - rewrite IH. destruct rest; [|reflexivity].
    simpl. unfold newEnd. simpl. f_equal. lia.
  - rewrite mergeLoop_app. simpl app.
    destruct (mergeLoop_head g rest next) as (c & out & Heq & _).
    rewrite Heq. rewrite last_cons_cons. rewrite <- Heq. rewrite IH. reflexivity.
Qed.

(** [mergeAdjacentMatches] is idempotent: merging a merged list changes
    nothing.  It never lengthens the list, returns no match only for no
    match, keeps where the first match starts in both buffers, and keeps
    where the last match ends in the new buffer. *)
Theorem mergeAdjacentMatches_idempotent h ms :
  mergeAdjacentMatches h (mergeAdjacentMatches h ms) = mergeAdjacentMatches h ms /\
  (length (mergeAdjacentMatches h ms) <= length ms)%nat /\
  (mergeAdjacentMatches h ms = [] <-> ms = []) /\
  NewOffset <$> head (mergeAdjacentMatches h ms) = NewOffset <$> head ms /\
  OldOffset <$> head (mergeAdjacentMatches h ms) = OldOffset <$> head ms /\
  newEnd <$> last (mergeAdjacentMatches h ms) = newEnd <$> last ms.
Proof.
  destruct (decide (length ms < 2)%nat) as [Hl|Hl].
  - assert (Hm : mergeAdjacentMatches h ms = ms).
    { unfold mergeAdjacentMatches. rewrite bool_decide_eq_true_2; [reflexivity|unfold len; lia]. }
    rewrite !Hm. repeat split; auto.
  - split.
    { apply mergeAdjacentMatches_of_settled, mergeAdjacentMatches_settled. lia. }
    unfold mergeAdjacentMatches. rewrite bool_decide_eq_false_2 by (unfold len; lia).
    destruct ms as [|cur rest]; [simpl in Hl; lia|].
    pose proof (mergeLoop_length (MaxGapSize h) rest cur) as Hlen.
    destruct (mergeLoop_head (MaxGapSize h) rest cur) as (c & out & Heq & H1 & H2).
    split; [simpl; lia|]. split.
    { rewrite Heq. split; discriminate. }
    split; [rewrite Heq; simpl; by rewrite H2|].
    split; [rewrite Heq; simpl; by rewrite H1|].
    apply mergeLoop_last.
Qed.

Lemma mergeAdjacentMatches_idempotent_witness :
  (length (mergeAdjacentMatches NewGenericBinaryHandler
             [ {| OldOffset := 0; NewOffset := 0; Length := 4 |};
               {| OldOffset := 8; NewOffset := 7; Length := 4 |} ]) <= 2)%nat /\
  (mergeAdjacentMatches NewGenericBinaryHandler
     [ {| OldOffset := 0; NewOffset := 0; Length := 4 |};
       {| OldOffset := 8; NewOffset := 7; Length := 4 |} ] = [] <->
   [ {| OldOffset := 0; NewOffset := 0; Length := 4 |};
     {| OldOffset := 8; NewOffset := 7; Length := 4 |} ] = []).
Proof.
  exact (conj (proj1 (proj2 (mergeAdjacentMatches_idempotent _ _)))
              (proj1 (proj2 (proj2 (mergeAdjacentMatches_idempotent _ _))))).
Defined.


Lemma extendMatch_le_old o n : extendMatch o n <= len o.
Proof.
  revert n. induction o as [|a o IH]; intros [|b n]; simpl; unfold len in *; simpl; try lia.
  case_bool_decide; [|lia]. specialize (IH n). lia.
Qed.

Lemma extendMatch_take o n :
  take (Z.to_nat (extendMatch o n)) o = take (Z.to_nat (extendMatch o n)) n.
Proof.
  revert n. induction o as [|a o IH]; intros [|b n]; simpl; try reflexivity.
  case_bool_decide as Hab; [|reflexivity]. subst b.
  pose proof (extendMatch_bound o n).
  replace (Z.to_nat (1 + extendMatch o n)) with (S (Z.to_nat (extendMatch o n))) by lia.
  simpl. by rewrite IH.
Qed.

Lemma extendMatch_refl x : extendMatch x x = len x.
Proof.
  induction x as [|a x IH]; simpl; [reflexivity|].
  rewrite bool_decide_eq_true_2 by reflexivity. rewrite IH. unfold len; simpl length. lia.
Qed.

Lemma tryPositions_verified h old new i ps mt :
  tryPositions h old new i ps = Ok (Some mt) -> verifiedMatch old new mt.
Proof.
  induction ps as [|pos ps IH]; simpl; [discriminate|].
  intros H. apply bind_Ok in H as (o & Ho & H). apply bind_Ok in H as (n & Hn & H).
  case_bool_decide as Hm; [|auto].
  inversion H; subst; clear H.
  apply slice_from_Ok in Ho as [Hpo ->]. apply slice_from_Ok in Hn as [Hpn ->].
  unfold verifiedMatch, sameBytes; simpl.
  pose proof (extendMatch_bound (drop (Z.to_nat pos) old) (drop (Z.to_nat i) new)) as Hb.
  pose proof (extendMatch_le_old (drop (Z.to_nat pos) old) (drop (Z.to_nat i) new)) as Hb'.
  unfold len in *. rewrite !length_drop in *.
  repeat split; try lia. apply extendMatch_take.
Qed.

Lemma scanLoop_verified h T old new :
  forall fuel i acc res,
    Forall (verifiedMatch old new) acc ->
    scanLoop fuel h T old new i acc = Ok res ->
    Forall (verifiedMatch old new) res.
Proof.
  induction fuel as [|fuel IH]; intros i acc res Hacc; simpl; [discriminate|].
  case_bool_decide as Hg.
  - intros H. apply bind_Ok in H as (d & _ & H).
    destruct (T !! _) as [ps|]; [|eapply IH; eauto].
    apply bind_Ok in H as (found & Hf & H). destruct found as [mt|]; [|eapply IH; eauto].
    eapply IH; [|exact H]. apply Forall_app. split; [assumption|].
    constructor; [|constructor]. eapply tryPositions_verified, Hf.
  - intros H. inversion H; subst. assumption.
Qed.

Lemma sameBytes_shorter old new po pn k k' :
  0 <= k' <= k -> sameBytes old new po pn k -> sameBytes old new po pn k'.
Proof.
  intros Hk (H1 & H2 & H3 & H4 & H5). repeat split; try lia.
  apply (f_equal (take (Z.to_nat k'))) in H5.
  rewrite !take_take in H5. by rewrite !Nat.min_l in H5 by lia.
Qed.

Lemma verifiedMatch_start m old new mt :
  0 <= m <= Length mt -> verifiedMatch old new mt -> verifiedStart m old new mt.
Proof.
  intros Hm Hv. split; [eapply sameBytes_shorter; eauto|].
  destruct Hv as (_ & _ & _ & H & _). split; lia.
Qed.

Lemma mergeLoop_verifiedStart g m old new rest : forall cur,
  1 <= m ->
  verifiedStart m old new cur -> Forall (verifiedStart m old new) rest ->
  chain m (NewOffset cur) (cur :: rest) ->
  Forall (verifiedStart m old new) (mergeLoop g cur rest []).
Proof.
  induction rest as [|next rest IH]; intros cur Hm Hc Hr Hch; simpl.
  - constructor; [assumption|constructor].
  - inversion Hr as [|? ? Hn Hr']; subst.
    simpl in Hch. destruct Hch as (_ & Hl & Hno & Hnl & Hch).
    destruct (_ && _).
    + apply IH; [assumption| |assumption|].
      * destruct Hc as (Hs & _ & _). destruct Hn as (_ & _ & Hne).
        split; [exact Hs|]. simpl. split; lia.
      * simpl. repeat split; [lia|lia|].
        replace (NewOffset cur + (NewOffset next + Length next - NewOffset cur) + m - 1)
          with (NewOffset next + Length next + m - 1) by lia. exact Hch.
    + rewrite mergeLoop_app. simpl. constructor; [assumption|].
      apply IH; try assumption. simpl. repeat split; [lia|lia|exact Hch].
Qed.

Lemma chain_start m lo ms : chain m lo ms ->
  match ms with [] => True | x :: _ => chain m (NewOffset x) ms end.
Proof. destruct ms; [auto|]. simpl. intros (? & ? & ?). repeat split; auto; lia. Qed.

Lemma findMatches_raw h old new ms :
  findMatches h old new = Ok ms ->
  ms = [] \/
  exists T raw,
    scanLoop (S (length new)) h T old new 0 [] = Ok raw /\
    ms = mergeAdjacentMatches h raw.
Proof.
  unfold findMatches. destruct (_ || _); [intros [= <-]; auto|].
  intros H. apply bind_Ok in H as (T & _ & H). apply bind_Ok in H as (raw & Hs & H).
  inversion H; subst. right. eauto.
Qed.

(** Every match [findMatches] returns starts with [MinMatchLength] bytes on
    which the two buffers agree, and lies inside the new buffer.  (Past
    these bytes a merged match need neither agree nor stay inside the old
    buffer.) *)
Theorem findMatches_verified_start h old new ms :
  1 <= MinMatchLength h ->
  findMatches h old new = Ok ms ->
  Forall (verifiedStart (MinMatchLength h) old new) ms.
Proof.
  intros Hm H. destruct (findMatches_raw h old new ms H) as [->|(T & raw & Hs & ->)];
    [constructor|].
  pose proof (scanLoop_verified h T old new _ _ _ _ (Forall_nil_2 _) Hs) as Hv.
  apply scanLoop_chain in Hs as (tail & Heq & Hc); [|lia]. simpl in Heq. subst tail.
  pose proof (chain_lengths _ _ _ Hc) as Hlen.
  assert (Hvs : Forall (verifiedStart (MinMatchLength h) old new) raw).
  { rewrite Forall_forall in Hv, Hlen. apply Forall_forall. intros mt Hin.
    apply verifiedMatch_start; [|by apply Hv]. specialize (Hlen mt Hin). simpl in Hlen. lia. }
  unfold mergeAdjacentMatches. case_bool_decide; [assumption|].
  destruct raw as [|cur rest]; [assumption|].
  inversion Hvs; subst. apply mergeLoop_verifiedStart; [lia|assumption|assumption|].
  exact (chain_start _ _ _ Hc).
Qed.

Lemma findMatches_verified_start_witness :
  1 <= MinMatchLength NewGenericBinaryHandler /\
  Forall (verifiedStart 8 (bytesOf "hello world") (bytesOf "hello world"))
    [ {| OldOffset := 0; NewOffset := 0; Length := 11 |} ].
Proof.
  split; [vm_compute; discriminate|].
  apply (findMatches_verified_start NewGenericBinaryHandler
           (bytesOf "hello world") (bytesOf "hello world")).
  - vm_compute. discriminate.
  - vm_compute. reflexivity.
Defined.

(** *** When nothing is merged *)
Lemma chain_settled g m lo ms :
  g < m - 1 -> chain m lo ms -> settled g ms.
Proof.
  intros Hg. revert lo. induction ms as [|a ms IH]; intros lo Hc; [exact I|].
  destruct ms as [|b ms]; [exact I|].
  simpl in Hc. destruct Hc as (H1 & H2 & H3 & H4 & H5).
  split.
  - unfold gapsWithin. rewrite (bool_decide_eq_false_2 (NewOffset b - _ <= g)) by lia.
    apply andb_false_r.
  - eapply IH. simpl. eauto.
Qed.

(** With a gap limit below [MinMatchLength - 1] nothing is merged, and
    every returned match is a real one: the two regions are inside their
    buffers and are equal byte for byte. *)
Theorem findMatches_verified_without_merging h old new ms :
  1 <= MinMatchLength h ->
  MaxGapSize h < MinMatchLength h - 1 ->
  findMatches h old new = Ok ms ->
  Forall (verifiedMatch old new) ms.
Proof.
  intros Hm Hg H. destruct (findMatches_raw h old new ms H) as [->|(T & raw & Hs & ->)];
    [constructor|].
  pose proof (scanLoop_verified h T old new _ _ _ _ (Forall_nil_2 _) Hs) as Hv.
  apply scanLoop_chain in Hs as (tail & Heq & Hc); [|lia]. simpl in Heq. subst tail.
  rewrite mergeAdjacentMatches_of_settled; [assumption|].
  eapply chain_settled; eauto.
Qed.

Lemma findMatches_verified_without_merging_witness :
  Forall (verifiedMatch (bytesOf "AAAAxxxxBBBB") (bytesOf "AAAAyyyBBBB"))
    [ {| OldOffset := 0; NewOffset := 0; Length := 4 |};
      {| OldOffset := 8; NewOffset := 7; Length := 4 |} ].
Proof.
  apply (findMatches_verified_without_merging
           {| MinMatchLength := 4; MaxGapSize := 2; ChunkSize := 2048; Stats := zeroStats |}).
  - vm_compute. discriminate.
  - vm_compute. reflexivity.
  - generalize zeroStats. intros s. vm_compute. reflexivity.
Defined.

(** *** Identical buffers *)

Lemma indexLoop_keeps_head h old k p :
  forall fuel i T T' tl,
    T !! k = Some (p :: tl) ->
    indexLoop fuel h old i T = Ok T' ->
    exists tl', T' !! k = Some (p :: tl').
Proof.
  induction fuel as [|fuel IH]; intros i T T' tl HT; [discriminate|].
  rewrite indexLoop_S. case_bool_decide as Hg; [|intros [= <-]; eauto].
  intros H. apply bind_Ok in H as (d & _ & H).
  destruct (decide (rollingHash d (MinMatchLength h) = k)) as [<-|Hk].
  - eapply IH; [|exact H]. rewrite lookup_insert_eq, HT. simpl. reflexivity.
  - eapply IH; [|exact H]. rewrite lookup_insert_ne by assumption. exact HT.
Qed.

Lemma indexLoop_first_bucket h old :
  1 <= MinMatchLength h <= len old ->
  exists T tl,
    indexLoop (S (length old)) h old 0 ∅ = Ok T /\
    T !! rollingHash old (MinMatchLength h) = Some (0 :: tl) /\
    tableOK old T.
Proof.
  intros Hm.
  destruct (indexLoop_total h old ltac:(lia) (S (length old)) 0 ∅) as (T & HT & Hok).
  - lia.
  - unfold len. lia.
  - intros k ps. rewrite lookup_empty. discriminate.
  - pose proof HT as HT'. rewrite indexLoop_S in HT'.
    rewrite bool_decide_eq_true_2 in HT' by lia.
    rewrite slice_from_in_range in HT' by lia. rewrite bind_Ok_l in HT'.
    change (drop (Z.to_nat 0) old) with old in HT'.
    rewrite lookup_empty in HT'. simpl in HT'.
    destruct (indexLoop_keeps_head h old (rollingHash old (MinMatchLength h)) 0
                _ _ _ T [] (lookup_insert_eq _ _ _) HT') as [tl Htl].
    eauto.
Qed.

Lemma scanLoop_S fuel h T old new i acc :
  scanLoop (S fuel) h T old new i acc =
  if bool_decide (i <= len new - MinMatchLength h) then
    d ← slice_from new i;
    match T !! rollingHash d (MinMatchLength h) with
    | Some positions =>
        found ← tryPositions h old new i positions;
        match found with
        | Some mt =>
            scanLoop fuel h T old new
              (i + (Length mt - 1) + MinMatchLength h) (acc ++ [mt])
        | None => scanLoop fuel h T old new (i + MinMatchLength h) acc
        end
    | None => scanLoop fuel h T old new (i + MinMatchLength h) acc
    end
  else Ok acc.
Proof. reflexivity. Qed.

Lemma findMatches_identical h x :
  1 <= MinMatchLength h <= len x ->
  findMatches h x x = Ok [ {| OldOffset := 0; NewOffset := 0; Length := len x |} ].
Proof.
  intros Hm. unfold findMatches.
  assert (Hx : len x <> 0) by lia.
  rewrite !bool_decide_eq_false_2 by assumption. cbv [orb].
  destruct (indexLoop_first_bucket h x Hm) as (T & tl & -> & Hb & _).
  rewrite bind_Ok_l.
  rewrite scanLoop_S.
  rewrite bool_decide_eq_true_2 by lia.
  rewrite slice_from_in_range by lia. rewrite bind_Ok_l.
  change (drop (Z.to_nat 0) x) with x. rewrite Hb.
  simpl tryPositions. rewrite slice_from_in_range by lia. rewrite !bind_Ok_l.
  change (drop (Z.to_nat 0) x) with x. rewrite extendMatch_refl.
  rewrite bool_decide_eq_true_2 by lia. rewrite bind_Ok_l. simpl Length.
  assert (Hl : length x = S (pred (length x))) by (unfold len in *; lia).
  rewrite Hl. rewrite scanLoop_S. rewrite bool_decide_eq_false_2 by lia.
  rewrite bind_Ok_l. unfold mergeAdjacentMatches.
  rewrite bool_decide_eq_true_2 by (unfold len; simpl; lia). reflexivity.
Qed.

(** [AnalyzeBinaryDiff] on two copies of a buffer at least
    [MinMatchLength] long: one match that covers the buffer, so a
    compression ratio of 1 and an average match size of the buffer
    length. *)
Theorem AnalyzeBinaryDiff_identical h x :
  1 <= MinMatchLength h <= len x ->
  exists s,
    AnalyzeBinaryDiff h x x = Ok s /\
    MatchCount s = 1 /\ TotalMatchedBytes s = len x /\ LargestMatch s = len x /\
    SmallestMatch s = MinMatchLength h /\
    AverageMatchSize s = IZR (len x) /\ CompressionRatio s = 1%R.
Proof.
  intros Hm. unfold AnalyzeBinaryDiff. rewrite findMatches_identical by assumption.
  rewrite bind_Ok_l. rewrite bool_decide_eq_false_2 by (unfold len; simpl; lia).
  unfold analyzeLoop. simpl foldl.
  rewrite (bool_decide_eq_true_2 (len x > 0)) by lia.
  rewrite (bool_decide_eq_false_2 (len x < MinMatchLength h)) by lia.
  eexists. split; [reflexivity|]. simpl.
  assert (Hx : IZR (len x) <> 0%R) by (apply not_0_IZR; lia).
  repeat split; try reflexivity.
  - change (len [ {| OldOffset := 0; NewOffset := 0; Length := len x |} ]) with 1.
    rewrite Z.add_0_l. unfold Rdiv. rewrite Rinv_1. apply Rmult_1_r.
  - rewrite Z.add_0_l. unfold Rdiv. apply Rinv_r. exact Hx.
Qed.

Lemma AnalyzeBinaryDiff_identical_witness :
  1 <= MinMatchLength NewGenericBinaryHandler <= len (bytesOf "hello world") /\
  exists s,
    AnalyzeBinaryDiff NewGenericBinaryHandler (bytesOf "hello world") (bytesOf "hello world")
      = Ok s /\
    MatchCount s = 1 /\ TotalMatchedBytes s = 11.
Proof.
  assert (H : 1 <= MinMatchLength NewGenericBinaryHandler <= len (bytesOf "hello world"))
    by (vm_compute; split; discriminate).
  split; [exact H|].
  destruct (AnalyzeBinaryDiff_identical NewGenericBinaryHandler (bytesOf "hello world") H)
    as (s & H1 & H2 & H3 & _).
  exists s. auto.
Defined.

(** *** Buffers with no match *)

Lemma scanLoop_empty_table h old new :
  forall fuel i acc res, scanLoop fuel h ∅ old new i acc = Ok res -> res = acc.
Proof.
  induction fuel as [|fuel IH]; intros i acc res; [discriminate|].
  rewrite scanLoop_S. case_bool_decide as Hg; [|by intros [= <-]].
  intros H. apply bind_Ok in H as (d & _ & H). rewrite lookup_empty in H. eauto.
Qed.

Lemma findMatches_short h old new :
  1 <= MinMatchLength h ->
  len old < MinMatchLength h \/ len new < MinMatchLength h ->
  findMatches h old new = Ok [].
Proof.
  intros Hm Hs. unfold findMatches. destruct (_ || _); [reflexivity|].
  assert (HtOK : tableOK old ∅) by (intros k ps; rewrite lookup_empty; discriminate).
  destruct (decide (len old < MinMatchLength h)) as [Ho|Ho].
  - rewrite indexLoop_S. rewrite bool_decide_eq_false_2 by lia. rewrite bind_Ok_l.
    destruct (scanLoop_total h ∅ old new Hm HtOK (S (length new)) 0 []) as [raw Hraw];
      [lia|unfold len; lia|].
    rewrite Hraw. apply scanLoop_empty_table in Hraw as ->. reflexivity.
  - destruct (indexLoop_total h old Hm (S (length old)) 0 ∅) as (T & -> & _);
      [lia|unfold len; lia|exact HtOK|].
    rewrite bind_Ok_l. rewrite scanLoop_S. rewrite bool_decide_eq_false_2 by lia.
    reflexivity.
Qed.

Lemma compareChunks_no_match h old new :
  findMatches h old new = Ok [] -> new <> [] ->
  compareChunks h old new
  = Ok [ {| Offset := 0; OldData := old; NewData := new; ChunkType := "binary" |} ].
Proof.
  intros Hf Hn. unfold compareChunks. rewrite Hf, bind_Ok_l. simpl chunkLoop.
  rewrite bind_Ok_l.
  assert (0 < len new) by (destruct new; [congruence|unfold len; simpl; lia]).
  rewrite bool_decide_eq_true_2 by assumption.
  pose proof (len_nonneg old).
  rewrite !slice_from_in_range by lia. reflexivity.
Qed.

Lemma patchLoop_cons original chunk chunks lastOffset res :
  patchLoop original (chunk :: chunks) lastOffset res =
  res' ← (if bool_decide (Offset chunk > lastOffset) then
            s ← slice original lastOffset (Offset chunk); Ok (res ++ s)
          else Ok res);
  patchLoop original chunks (Offset chunk + len (OldData chunk)) (res' ++ NewData chunk).
Proof. reflexivity. Qed.

Lemma Patch_whole_replacement old new :
  Patch old [ {| Offset := 0; OldData := old; NewData := new; ChunkType := "binary" |} ]
  = Ok new.
Proof.
  unfold Patch. rewrite bool_decide_eq_false_2 by (unfold len; simpl; lia).
  rewrite patchLoop_cons. cbn [Offset OldData NewData].
  rewrite (bool_decide_eq_false_2 (0 > 0)) by lia. rewrite bind_Ok_l.
  cbn [patchLoop]. rewrite bind_Ok_l.
  rewrite bool_decide_eq_false_2 by lia. reflexivity.
Qed.

(** When one of two different buffers has fewer than four bytes and the new
    one is not empty, [Compare] returns a single chunk that replaces the
    whole of old by the whole of new, and [Patch] applied to it gives
    new. *)
Theorem Compare_Patch_round_trip_short_buffers h old new :
  new <> [] -> old <> new -> len old < 4 \/ len new < 4 ->
  snd (Compare h old new)
    = Ok [ {| Offset := 0; OldData := old; NewData := new; ChunkType := "binary" |} ] /\
  patchOfCompare h old new = Ok new.
Proof.
  intros Hn Hne Hs.
  assert (Hc : snd (Compare h old new)
    = Ok [ {| Offset := 0; OldData := old; NewData := new; ChunkType := "binary" |} ]).
  { rewrite Compare_differ by assumption. apply compareChunks_no_match; [|assumption].
    pose proof (Optimize_MinMatchLength h new). apply findMatches_short; lia. }
  split; [exact Hc|]. unfold patchOfCompare. rewrite Hc, bind_Ok_l.
  apply Patch_whole_replacement.
Qed.

Lemma Compare_Patch_round_trip_short_buffers_witness :
  patchOfCompare NewGenericBinaryHandler (bytesOf "abc") (bytesOf "hello world")
  = Ok (bytesOf "hello world").
Proof.
  apply (Compare_Patch_round_trip_short_buffers NewGenericBinaryHandler
           (bytesOf "abc") (bytesOf "hello world")).
  - discriminate.
  - discriminate.
  - left. vm_compute. reflexivity.
Defined.

(** Against an empty new buffer [Compare] returns no chunk, whatever the
    old buffer and the handler's state, and [Patch] of that result gives
    back the old buffer. *)
Theorem Compare_empty_new_buffer h old :
  snd (Compare h old []) = Ok [] /\ patchOfCompare h old [] = Ok old.
Proof.
  assert (Hc : snd (Compare h old []) = Ok []).
  { destruct (decide (old = [])) as [->|Hne]; [by rewrite Compare_equal|].
    rewrite Compare_differ by assumption. unfold compareChunks, findMatches.
    rewrite (bool_decide_eq_true_2 (len (@nil byte) = 0)) by reflexivity.
    rewrite orb_true_r. reflexivity. }
  split; [exact Hc|]. unfold patchOfCompare. rewrite Hc. reflexivity.
Qed.

(** *** OptimizeBinaryDiff *)

(** [OptimizeBinaryDiff] sets the three tuning fields from the sample
    alone: the values it leaves do not depend on the values it found, it
    does not touch the statistics, a second call on the same sample changes
    nothing, and the values stay within fixed ranges. *)
Theorem OptimizeBinaryDiff_overwrites_tuning h h' data :
  MinMatchLength (OptimizeBinaryDiff h data) = MinMatchLength (OptimizeBinaryDiff h' data) /\
  MaxGapSize (OptimizeBinaryDiff h data) = MaxGapSize (OptimizeBinaryDiff h' data) /\
  ChunkSize (OptimizeBinaryDiff h data) = ChunkSize (OptimizeBinaryDiff h' data) /\
  Stats (OptimizeBinaryDiff h data) = Stats h /\
  OptimizeBinaryDiff (OptimizeBinaryDiff h data) data = OptimizeBinaryDiff h data /\
  4 <= MinMatchLength (OptimizeBinaryDiff h data) <= 24 /\
  256 <= MaxGapSize (OptimizeBinaryDiff h data) <= 2048 /\
  2048 <= ChunkSize (OptimizeBinaryDiff h data) <= 32768.
Proof.
  unfold OptimizeBinaryDiff.
  destruct (Rgt_dec _ 0.8); [|destruct (Rgt_dec _ 0.5)];
    repeat case_bool_decide; simpl; repeat split; try reflexivity; lia.
Qed.

(** The size adjustment of [OptimizeBinaryDiff]: above 1 MiB the chunk
    size doubles and the match length grows by 4, above 10 MiB the chunk
    size quadruples and the match length grows by 8, on top of the values
    chosen by entropy. *)
Theorem OptimizeBinaryDiff_large_input h data :
  (1024 * 1024 < len data <= 10 * 1024 * 1024 ->
     ((calculateEntropy data > 0.8)%R ->
        MinMatchLength (OptimizeBinaryDiff h data) = 20 /\
        MaxGapSize (OptimizeBinaryDiff h data) = 256 /\
        ChunkSize (OptimizeBinaryDiff h data) = 16384) /\
     ((calculateEntropy data > 0.5)%R /\ (calculateEntropy data <= 0.8)%R ->
        MinMatchLength (OptimizeBinaryDiff h data) = 12 /\
        MaxGapSize (OptimizeBinaryDiff h data) = 1024 /\
        ChunkSize (OptimizeBinaryDiff h data) = 8192) /\
     ((calculateEntropy data <= 0.5)%R ->
        MinMatchLength (OptimizeBinaryDiff h data) = 8 /\
        MaxGapSize (OptimizeBinaryDiff h data) = 2048 /\
        ChunkSize (OptimizeBinaryDiff h data) = 4096)) /\
  (10 * 1024 * 1024 < len data ->
     ((calculateEntropy data > 0.8)%R ->
        MinMatchLength (OptimizeBinaryDiff h data) = 24 /\
        MaxGapSize (OptimizeBinaryDiff h data) = 256 /\
        ChunkSize (OptimizeBinaryDiff h data) = 32768) /\
     ((calculateEntropy data > 0.5)%R /\ (calculateEntropy data <= 0.8)%R ->
        MinMatchLength (OptimizeBinaryDiff h data) = 16 /\
        MaxGapSize (OptimizeBinaryDiff h data) = 1024 /\
        ChunkSize (OptimizeBinaryDiff h data) = 16384) /\
     ((calculateEntropy data <= 0.5)%R ->
        MinMatchLength (OptimizeBinaryDiff h data) = 12 /\
        MaxGapSize (OptimizeBinaryDiff h data) = 2048 /\
        ChunkSize (OptimizeBinaryDiff h data) = 8192)).
Proof.
  unfold OptimizeBinaryDiff. split; intros Hl.
  - rewrite (bool_decide_eq_false_2 (len data > 10 * 1024 * 1024)) by lia.
    rewrite (bool_decide_eq_true_2 (len data > 1024 * 1024)) by lia.
    destruct (Rgt_dec _ 0.8); [|destruct (Rgt_dec _ 0.5)];
      simpl; repeat split; intros; try reflexivity; lra.
  - rewrite (bool_decide_eq_true_2 (len data > 10 * 1024 * 1024)) by lia.
    destruct (Rgt_dec _ 0.8); [|destruct (Rgt_dec _ 0.5)];
      simpl; repeat split; intros; try reflexivity; lra.
Qed.

Lemma OptimizeBinaryDiff_large_input_witness :
  MinMatchLength (OptimizeBinaryDiff NewGenericBinaryHandler
                    (replicate (Z.to_nat (2 * 1024 * 1024)) "x"%byte)) = 8 /\
  MaxGapSize (OptimizeBinaryDiff NewGenericBinaryHandler
                (replicate (Z.to_nat (2 * 1024 * 1024)) "x"%byte)) = 2048.
Proof.
  destruct (OptimizeBinaryDiff_large_input NewGenericBinaryHandler
              (replicate (Z.to_nat (2 * 1024 * 1024)) "x"%byte)) as [H _].
  destruct H as (_ & _ & H).
  - unfold len. rewrite length_replicate. rewrite Z2Nat.id by lia. lia.
  - destruct H as (H1 & H2 & _); [|auto].
    rewrite calculateEntropy_replicate. lra.
Defined.


(** *** The entropy depends on the byte counts only *)

Lemma countStep_comm freq a b :
  countStep (countStep freq a) b = countStep (countStep freq b) a.
Proof.
  unfold countStep. destruct (decide (a = b)) as [->|Hab]; [reflexivity|].
  rewrite !lookup_insert_ne by congruence. apply insert_insert_ne. congruence.
Qed.

Lemma foldl_countStep_perm d1 d2 : d1 ≡ₚ d2 ->
  forall freq, foldl countStep freq d1 = foldl countStep freq d2.
Proof.
  induction 1 as [|x d1 d2 _ IH|x y d|d1 d2 d3 _ IH1 _ IH2]; intros freq; simpl.
  - reflexivity.
  - apply IH.
  - by rewrite countStep_comm.
  - by rewrite IH1.
Qed.

(** [calculateEntropy] depends on how often each byte occurs, not on the
    order of the bytes. *)
Theorem calculateEntropy_permutation d1 d2 :
  d1 ≡ₚ d2 -> calculateEntropy d1 = calculateEntropy d2.
Proof.
  intros Hp. unfold calculateEntropy, countBytes, len.
  rewrite (foldl_countStep_perm d1 d2 Hp), (Permutation_length Hp). reflexivity.
Qed.

Lemma calculateEntropy_permutation_witness :
  calculateEntropy (bytesOf "ab") = calculateEntropy (bytesOf "ba").
Proof.
  apply calculateEntropy_permutation. apply perm_swap.
Defined.

Lemma calculateEntropy_distinct_values data :
  data <> [] ->
  (calculateEntropy data
   <= Log2 (IZR (Z.of_nat (size (countBytes data)))) / 8)%R /\
  (1 <= size (countBytes data) <= 256)%nat.
Proof.
  intros Hne. split; [apply calculateEntropy_bounds, Hne|].
  rewrite <- counts_size. split; [|apply counts_length].
  pose proof (countBytes_sum data) as Hs.
  destruct (counts (countBytes data)); simpl in *; [|lia].
  destruct data; [congruence|]. unfold len in Hs; simpl in Hs; lia.
Qed.




Lemma occurrences_cons b x data :
  occurrences b (x :: data) = (if decide (x = b) then 1 else 0) + occurrences b data.
Proof.
  unfold occurrences, len. rewrite filter_cons. destruct (decide (x = b)); simpl length; lia.
Qed.

Lemma occurrences_pos b data : b ∈ data -> 0 < occurrences b data.
Proof.
  induction data as [|x data IH]; intros Hin; [inversion Hin|].
  rewrite occurrences_cons.
  assert (0 <= occurrences b data) by apply len_nonneg.
  apply elem_of_cons in Hin as [->|Hin].
  - rewrite decide_True by reflexivity. lia.
  - specialize (IH Hin). destruct (decide (x = b)); lia.
Qed.

Lemma occurrences_zero b data : b ∉ data -> occurrences b data = 0.
Proof.
  induction data as [|x data IH]; intros Hin; [reflexivity|].
  rewrite occurrences_cons. rewrite not_elem_of_cons in Hin. destruct Hin as [Hx Hin].
  rewrite decide_False by congruence. rewrite IH by assumption. reflexivity.
Qed.

Lemma foldl_countStep_lookup data : forall freq b,
  foldl countStep freq data !! b =
  if decide (b ∈ data) then Some (default 0 (freq !! b) + occurrences b data)
  else freq !! b.
Proof.
  induction data as [|x data IH]; intros freq b.
  - destruct (decide (b ∈ [])) as [Hin|_]; [inversion Hin|reflexivity].
  - cbn [foldl]. rewrite IH. rewrite occurrences_cons. unfold countStep.
    destruct (decide (x = b)) as [->|Hx].
    + rewrite lookup_insert_eq. cbn [default]. unfold Datatypes.id.
      destruct (decide (b ∈ b :: data)) as [_|Hn]; [|exfalso; apply Hn; left].
      destruct (decide (b ∈ data)) as [Hin|Hin].
      * f_equal. lia.
      * rewrite occurrences_zero by assumption. f_equal; lia.
    + rewrite lookup_insert_ne by assumption.
      destruct (decide (b ∈ data)) as [Hin|Hin];
        destruct (decide (b ∈ x :: data)) as [Hin'|Hin'].
      * f_equal.
      * exfalso. apply Hin'. by right.
      * apply elem_of_cons in Hin' as [->|?]; [congruence|contradiction].
      * reflexivity.
Qed.

Lemma countBytes_lookup data b :
  countBytes data !! b =
  if decide (b ∈ data) then Some (occurrences b data) else None.
Proof.
  unfold countBytes. rewrite foldl_countStep_lookup. rewrite lookup_empty. simpl.
  destruct (decide (b ∈ data)); reflexivity.
Qed.

Lemma countBytes_dom data : dom (countBytes data) = list_to_set data.
Proof.
  apply set_eq. intros b. rewrite elem_of_dom, countBytes_lookup, elem_of_list_to_set.
  destruct (decide (b ∈ data)); split; intros H; try done.
Qed.

Lemma countBytes_size data : size (countBytes data) = distinctBytes data.
Proof. unfold distinctBytes. rewrite <- countBytes_dom. symmetry. apply size_dom. Qed.

(** The value [calculateEntropy] returns is at most the binary logarithm
    of the number of distinct byte values in the buffer, divided by 8. *)
Theorem calculateEntropy_distinct_bytes data :
  data <> [] ->
  (calculateEntropy data <= Log2 (INR (distinctBytes data)) / 8)%R /\
  (1 <= distinctBytes data <= 256)%nat.
Proof.
  intros Hne. rewrite <- countBytes_size. rewrite INR_IZR_INZ.
  by apply calculateEntropy_distinct_values.
Qed.

Lemma calculateEntropy_distinct_bytes_witness :
  (calculateEntropy (bytesOf "abab") <= Log2 (INR 2) / 8)%R.
Proof.
  refine (proj1 (calculateEntropy_distinct_bytes (bytesOf "abab") _)).
  discriminate.
Defined.

(** *** Bytes that occur equally often *)
Lemma entropySum_constant n c cs :
  Forall (fun x => x = c) cs ->
  entropySum n cs = (- (IZR (len cs) * term n c))%R.
Proof.
  induction 1 as [|x cs -> _ IH].
  - unfold entropySum, len. cbn [foldr length Z.of_nat]. rewrite Rmult_0_l. lra.
  - unfold entropySum in *. cbn [foldr]. rewrite IH.
    unfold len; cbn [length]. rewrite Nat2Z.inj_succ, <- Z.add_1_l, plus_IZR. lra.
Qed.

Lemma sumZ_constant c cs : Forall (fun x => x = c) cs -> sumZ cs = len cs * c.
Proof.
  induction 1 as [|x cs -> _ IH]; simpl; [reflexivity|].
  rewrite IH. unfold len; simpl length. lia.
Qed.

(** When every byte value that occurs in the buffer occurs equally often,
    [calculateEntropy] returns exactly the binary logarithm of the number
    of distinct values, divided by 8. *)
Theorem calculateEntropy_even_spread data c :
  data <> [] ->
  (forall b, b ∈ data -> occurrences b data = c) ->
  calculateEntropy data = (Log2 (INR (distinctBytes data)) / 8)%R.
Proof.
  intros Hne Hc. rewrite calculateEntropy_nonempty by assumption.
  assert (Hall : Forall (fun x => x = c) (counts (countBytes data))).
  { unfold counts. apply Forall_fmap, Forall_forall. intros [b v] Hin. simpl.
    apply elem_of_map_to_list in Hin. rewrite countBytes_lookup in Hin.
    destruct (decide (b ∈ data)) as [Hb|]; [|discriminate]. inversion Hin; subst. auto. }
  rewrite (entropySum_constant _ c _ Hall).
  pose proof (countBytes_sum data) as Hsum. rewrite (sumZ_constant c _ Hall) in Hsum.
  rewrite <- countBytes_size, <- counts_size.
  set (k := len (counts (countBytes data))) in *.
  assert (Hlen : 0 < len data) by (destruct data; [congruence|unfold len; simpl; lia]).
  assert (Hk0 : 0 <= k) by apply len_nonneg.
  assert (Hk : 0 < k).
  { destruct (decide (k = 0)) as [E|E]; [rewrite E in Hsum; lia|lia]. }
  assert (Hcpos : 0 < c) by nia.
  rewrite INR_IZR_INZ. change (Z.of_nat (length (counts (countBytes data)))) with k.
  f_equal. unfold term. rewrite <- Hsum. rewrite mult_IZR.
  assert (HkR : (0 < IZR k)%R) by (apply IZR_lt; lia).
  assert (HcR : (0 < IZR c)%R) by (apply IZR_lt; lia).
  replace (IZR c / (IZR k * IZR c))%R with (/ IZR k)%R by (field; lra).
  unfold Log2. rewrite ln_Rinv by assumption.
  pose proof ln2_pos. field. lra.
Qed.

Lemma calculateEntropy_even_spread_witness :
  calculateEntropy (bytesOf "abab") = (Log2 (INR 2) / 8)%R.
Proof.
  apply (calculateEntropy_even_spread (bytesOf "abab") 2); [discriminate|].
  intros b Hb. vm_compute in Hb.
  repeat (apply elem_of_cons in Hb as [->|Hb]; [reflexivity|]). inversion Hb.
Defined.

Lemma slice_in_range {A} (x : list A) lo hi :
  0 <= lo <= hi -> hi <= len x ->
  slice x lo hi = Ok (take (Z.to_nat (hi - lo)) (drop (Z.to_nat lo) x)).
Proof. intros H1 H2. unfold slice. rewrite bool_decide_eq_true_2; auto. Qed.

Lemma slice_quotes {A} (old : list A) lo hi (od : list A) :
  slice old lo hi = Ok od -> slice old lo (lo + len od) = Ok od.
Proof.
  intros H. pose proof (slice_Ok _ _ _ _ H) as (H1 & H2 & H3).
  rewrite H3. replace (lo + (hi - lo)) with hi by lia. exact H.
Qed.

Lemma slice_from_quotes {A} (old : list A) lo (od : list A) :
  slice_from old lo = Ok od -> slice old lo (lo + len od) = Ok od.
Proof.
  intros H. apply slice_from_Ok in H as [Hr ->].
  assert (Hl : len (drop (Z.to_nat lo) old) = len old - lo).
  { unfold len. rewrite length_drop. unfold len in Hr. lia. }
  rewrite slice_in_range by (pose proof (len_nonneg (drop (Z.to_nat lo) old)); lia).
  f_equal. apply take_ge. rewrite length_drop. unfold len in *. lia.
Qed.

Lemma chunkLoop_quotes old new ms : forall lastOld lastNew cs cs' lo' ln',
  Forall (quotesOld old) cs ->
  chunkLoop old new ms lastOld lastNew cs = Ok (cs', lo', ln') ->
  Forall (quotesOld old) cs'.
Proof.
  induction ms as [|mt ms IH]; intros lastOld lastNew cs cs' lo' ln' Hall H; simpl in H.
  - inversion H; subst. assumption.
  - apply bind_Ok in H as (cs1 & H1 & H). eapply IH; [|exact H].
    case_bool_decide.
    + apply bind_Ok in H1 as (od & Hod & H1). apply bind_Ok in H1 as (nd & _ & H1).
      inversion H1; subst. apply Forall_app. split; [assumption|].
      constructor; [|constructor]. unfold quotesOld; simpl. by eapply slice_quotes.
    + inversion H1; subst. assumption.
Qed.

Lemma compareChunks_quotes h old new cs :
  compareChunks h old new = Ok cs -> Forall (quotesOld old) cs.
Proof.
  intros H. unfold compareChunks in H.
  apply bind_Ok in H as (ms & _ & H).
  apply bind_Ok in H as ([[cs0 lo] ln] & Hl & H).
  apply chunkLoop_quotes in Hl; [|constructor].
  case_bool_decide.
  - apply bind_Ok in H as (od & Hod & H). apply bind_Ok in H as (nd & _ & H).
    inversion H; subst. apply Forall_app. split; [assumption|].
    constructor; [|constructor]. unfold quotesOld; simpl. by apply slice_from_quotes.
  - inversion H; subst. assumption.
Qed.

Lemma quotesOld_range old c :
  quotesOld old c -> 0 <= Offset c /\ Offset c + len (OldData c) <= len old.
Proof. intros H. apply slice_Ok in H. lia. Qed.

(** Every chunk [Compare] returns lies inside the old buffer, and its
    [OldData] is what the old buffer holds at the chunk's offset. *)
Theorem Compare_chunks_quote_old h old new cs :
  snd (Compare h old new) = Ok cs ->
  Forall (fun c =>
            0 <= Offset c /\ Offset c + len (OldData c) <= len old /\
            OldData c = take (length (OldData c)) (drop (Z.to_nat (Offset c)) old)) cs.
Proof.
  intros H. destruct (decide (old = new)) as [->|Hne].
  - rewrite Compare_equal in H. inversion H. constructor.
  - rewrite Compare_differ in H by assumption. apply compareChunks_quotes in H.
    eapply Forall_impl; [exact H|]. intros c Hc. simpl.
    pose proof (quotesOld_range old c Hc) as [H1 H2].
    split; [assumption|]. split; [assumption|].
    unfold quotesOld in Hc. pose proof (len_nonneg (OldData c)).
    rewrite slice_in_range in Hc by lia. injection Hc as Heq.
    replace (Z.to_nat (Offset c + len (OldData c) - Offset c))
      with (length (OldData c)) in Heq by (unfold len; lia).
    symmetry. exact Heq.
Qed.

Lemma Compare_chunks_quote_old_witness :
  Forall (fun c =>
            0 <= Offset c /\ Offset c + len (OldData c) <= len (bytesOf "ABCDEFGHrr") /\
            OldData c = take (length (OldData c))
                          (drop (Z.to_nat (Offset c)) (bytesOf "ABCDEFGHrr")))
         twoChunks.
Proof.
  exact (Compare_chunks_quote_old NewGenericBinaryHandler _ _ twoChunks
           (Compare_two_chunks _)).
Defined.


(** *** Patch *)

Lemma patchLoop_total original : forall chunks lastOffset res,
  0 <= lastOffset ->
  Forall (fun c => 0 <= Offset c <= len original) chunks ->
  exists res' last', patchLoop original chunks lastOffset res = Ok (res', last') /\
                     0 <= last'.
Proof.
  induction chunks as [|c chunks IH]; intros lastOffset res Hl Hall.
  - simpl. eauto.
  - inversion Hall as [|? ? Hc Hall']; subst. rewrite patchLoop_cons.
    pose proof (len_nonneg (OldData c)).
    case_bool_decide as Hg.
    + rewrite slice_in_range by lia. rewrite !bind_Ok_l. apply IH; [lia|assumption].
    + rewrite bind_Ok_l. apply IH; [lia|assumption].
Qed.

Lemma Patch_total original chunks :
  Forall (fun c => 0 <= Offset c <= len original) chunks ->
  exists res, Patch original chunks = Ok res.
Proof.
  intros Hall. unfold Patch. case_bool_decide; [eauto|].
  destruct (patchLoop_total original chunks 0 [] ltac:(lia) Hall) as (res & last & -> & Hl).
  rewrite bind_Ok_l. case_bool_decide; [|eauto].
  rewrite slice_from_in_range by lia. rewrite bind_Ok_l. eauto.
Qed.

(** [Patch] returns a result (no slice goes out of range) when every
    chunk's offset lies within the original; in particular on the chunks
    [Compare] returned for that original. *)
Theorem Patch_returns_for_offsets_in_range original chunks :
  (Forall (fun c => 0 <= Offset c <= len original) chunks ->
   exists res, Patch original chunks = Ok res) /\
  (forall h new, snd (Compare h original new) = Ok chunks ->
   exists res, Patch original chunks = Ok res).
Proof.
  split; [apply Patch_total|].
  intros h new H. apply Patch_total.
  destruct (decide (original = new)) as [->|Hne].
  - rewrite Compare_equal in H. inversion H. constructor.
  - rewrite Compare_differ in H by assumption. apply compareChunks_quotes in H.
    eapply Forall_impl; [exact H|]. intros c Hc. simpl.
    pose proof (quotesOld_range original c Hc). pose proof (len_nonneg (OldData c)). lia.
Qed.

Lemma Patch_returns_for_offsets_in_range_witness :
  exists res, Patch (bytesOf "hello world") [helloChunk; helloChunk] = Ok res.
Proof.
  apply (proj1 (Patch_returns_for_offsets_in_range (bytesOf "hello world")
                  [helloChunk; helloChunk])).
  repeat constructor; vm_compute; discriminate.
Defined.

Lemma patchLoop_length original : forall chunks lastOffset res res' last',
  0 <= lastOffset ->
  orderedFrom lastOffset chunks ->
  Forall (fun c => chunkEnd c <= len original) chunks ->
  patchLoop original chunks lastOffset res = Ok (res', last') ->
  lastOffset <= last' /\ (chunks = [] -> last' = lastOffset) /\
  (chunks <> [] -> last' <= len original) /\
  len res' - last' = len res - lastOffset + insertedBytes chunks - removedBytes chunks.
Proof.
  induction chunks as [|c chunks IH]; intros lastOffset res res' last' Hl Ho Hall H.
  - simpl in H. inversion H; subst. simpl.
    split; [lia|]. split; [reflexivity|]. split; [congruence|lia].
  - destruct Ho as [Ho1 Ho2]. inversion Hall as [|? ? Hc Hall']; subst.
    rewrite patchLoop_cons in H. apply bind_Ok in H as (res1 & H1 & H).
    pose proof (len_nonneg (OldData c)) as Hod. unfold chunkEnd in *.
    assert (Hres1 : len res1 = len res + (Offset c - lastOffset)).
    { case_bool_decide as Hg.
      - apply bind_Ok in H1 as (s & Hs & H1). inversion H1; subst.
        apply slice_Ok in Hs as (_ & _ & Hs). unfold len in *. rewrite length_app. lia.
      - inversion H1; subst. lia. }
    apply IH in H; [|lia|assumption|assumption].
    destruct H as (H2 & H2' & H3 & H4). simpl.
    assert (Hlast : last' <= len original).
    { destruct chunks as [|c' chunks']; [|apply H3; discriminate].
      rewrite H2' by reflexivity. exact Hc. }
    split; [lia|]. split; [discriminate|]. split; [intros _; exact Hlast|].
    rewrite H4. unfold len in *. rewrite length_app. lia.
Qed.

(** For chunks in ascending order that do not overlap and lie inside the
    original, the result of [Patch] is as long as the original, less the
    bytes the chunks remove, plus the bytes they insert. *)
Theorem Patch_length original chunks res :
  orderedFrom 0 chunks ->
  Forall (fun c => chunkEnd c <= len original) chunks ->
  Patch original chunks = Ok res ->
  len res = len original - removedBytes chunks + insertedBytes chunks.
Proof.
  intros Ho Hall H. unfold Patch in H. case_bool_decide as Hn.
  - inversion H; subst. destruct chunks; [simpl; lia|unfold len in Hn; simpl in Hn; lia].
  - apply bind_Ok in H as ([res0 last] & Hp & H).
    apply patchLoop_length in Hp; [|lia|assumption|assumption].
    destruct Hp as (H1 & _ & H3 & H4).
    assert (Hl : last <= len original).
    { apply H3. intros ->. apply Hn. reflexivity. }
    change (len (@nil byte)) with 0 in H4.
    case_bool_decide.
    + rewrite slice_from_in_range in H by lia. rewrite bind_Ok_l in H. inversion H; subst.
      unfold len in *. rewrite length_app, length_drop. lia.
    + inversion H; subst. lia.
Qed.

Lemma Patch_length_witness :
  len (bytesOf "zzzzABCDEFGHqq")
  = len (bytesOf "ABCDEFGHrr") - removedBytes twoChunks + insertedBytes twoChunks.
Proof.
  apply (Patch_length (bytesOf "ABCDEFGHrr") twoChunks (bytesOf "zzzzABCDEFGHqq")).
  - vm_compute. repeat split; discriminate.
  - repeat constructor; vm_compute; discriminate.
  - vm_compute. reflexivity.
Defined.

End BinaryMore.

(** * The text handler *)

Module TextFacts.
Import Notions DeltaNotions BinaryFacts BinaryMore.

Lemma splitLines_nonempty s : Text.splitLines s <> [].
Proof.
  destruct s as [|b s]; simpl; [discriminate|].
  case_bool_decide; [discriminate|]. destruct (Text.splitLines s); discriminate.
Qed.

Lemma joinLines_cons line lines :
  lines <> [] -> joinLines (line :: lines) = line ++ Text.newline :: joinLines lines.
Proof. destruct lines; [congruence|reflexivity]. Qed.

Lemma joinLines_splitLines s : joinLines (Text.splitLines s) = s.
Proof.
  induction s as [|b s IH]; [reflexivity|].
  pose proof (splitLines_nonempty s) as Hne. simpl.
  case_bool_decide as Hb.
  - rewrite joinLines_cons by assumption. rewrite IH. simpl. by subst b.
  - destruct (Text.splitLines s) as [|line lines]; [congruence|].
    destruct lines as [|l2 lines]; simpl in *; by rewrite IH.
Qed.

Lemma lineLoop_app oldLines : forall newLines offset acc,
  Text.lineLoop oldLines newLines offset acc
  = acc ++ Text.lineLoop oldLines newLines offset [].
Proof.
  induction oldLines as [|o oldLines IH]; intros [|n newLines] offset acc; simpl;
    try (by rewrite app_nil_r).
  rewrite IH. rewrite (IH _ _ (if bool_decide (o = n) then [] else _)).
  case_bool_decide; simpl; rewrite <- ?app_assoc; reflexivity.
Qed.

Lemma lineLoop_cons o oldLines n newLines offset :
  Text.lineLoop (o :: oldLines) (n :: newLines) offset [] =
  (if bool_decide (o = n) then []
   else [ {| Offset := offset; OldData := o; NewData := n; ChunkType := "text" |} ])
  ++ Text.lineLoop oldLines newLines (offset + len o + 1) [].
Proof. simpl. rewrite lineLoop_app. by case_bool_decide. Qed.

Lemma len_app {A} (x y : list A) : len (x ++ y) = len x + len y.
Proof. unfold len. rewrite length_app. lia. Qed.

Lemma slice_middle {A} (done pending rest : list A) :
  slice (done ++ pending ++ rest) (len done) (len (done ++ pending)) = Ok pending.
Proof.
  rewrite len_app. pose proof (len_nonneg done). pose proof (len_nonneg pending).
  pose proof (len_nonneg rest).
  rewrite slice_in_range by (rewrite ?len_app; lia). f_equal.
  unfold len. rewrite Nat2Z.id. rewrite drop_app_length.
  replace (Z.to_nat (Z.of_nat (length done) + Z.of_nat (length pending) - Z.of_nat (length done)))
    with (length pending) by lia.
  apply take_app_length.
Qed.

Lemma drop_len_app {A} (x y : list A) : drop (Z.to_nat (len x)) (x ++ y) = y.
Proof. unfold len. rewrite Nat2Z.id. apply drop_app_length. Qed.

Lemma textPatchLoop_cons original chunk chunks lastOffset res :
  Text.patchLoop original (chunk :: chunks) lastOffset res =
  s ← slice original lastOffset (Offset chunk);
  Text.patchLoop original chunks (Offset chunk + len (OldData chunk))
    ((res ++ s) ++ NewData chunk).
Proof. reflexivity. Qed.

Lemma patchedLines_cons o ols n nls :
  patchedLines (o :: ols) (n :: nls) = n :: patchedLines ols nls.
Proof. reflexivity. Qed.

Lemma patchedLines_nonempty ols nls : ols <> [] -> patchedLines ols nls <> [].
Proof.
  destruct ols as [|o ols]; [congruence|]. intros _.
  destruct nls as [|n nls]; [discriminate|]. rewrite patchedLines_cons. discriminate.
Qed.

(** The replay of the chunks of the line loop, from a state in which
    [done] is consumed and [pending] is still to be copied. *)
Lemma textPatch_lineLoop ols : forall nls done pending res,
  ols <> [] ->
  exists res' last',
    Text.patchLoop (done ++ pending ++ joinLines ols)
      (Text.lineLoop ols nls (len (done ++ pending)) []) (len done) res
    = Ok (res', last') /\
    0 <= last' <= len (done ++ pending ++ joinLines ols) /\
    res' ++ drop (Z.to_nat last') (done ++ pending ++ joinLines ols)
    = res ++ pending ++ joinLines (patchedLines ols nls).
Proof.
  induction ols as [|o ols IH]; intros nls done pending res Hne; [congruence|].
  clear Hne. destruct nls as [|n nls].
  - (* no line of new is left *)
    exists res, (len done). simpl Text.lineLoop. split; [reflexivity|].
    pose proof (len_nonneg done). pose proof (len_nonneg (pending ++ joinLines (o :: ols))).
    split; [rewrite len_app; lia|]. rewrite drop_len_app. reflexivity.
  - rewrite lineLoop_cons, patchedLines_cons.
    destruct ols as [|o2 ols].
    + (* the last line of old *)
      simpl Text.lineLoop. rewrite app_nil_r. simpl joinLines.
      case_bool_decide as Hon.
      * subst n. exists res, (len done). split; [reflexivity|].
        pose proof (len_nonneg done). pose proof (len_nonneg (pending ++ o)).
        split; [rewrite len_app; lia|]. rewrite drop_len_app.
        destruct nls; reflexivity.
      * rewrite textPatchLoop_cons. cbn [Offset OldData NewData].
        rewrite slice_middle, bind_Ok_l. simpl Text.patchLoop.
        eexists _, _. split; [reflexivity|].
        pose proof (len_nonneg (done ++ pending)). pose proof (len_nonneg o).
        split; [rewrite !len_app in *; lia|].
        replace (len (done ++ pending) + len o) with (len (done ++ pending ++ o))
          by (rewrite !len_app; lia).
        rewrite <- (app_nil_r (done ++ pending ++ o)) at 2.
        rewrite drop_len_app. rewrite app_nil_r, <- !app_assoc.
        destruct nls; reflexivity.
    + (* more lines of old follow *)
      rewrite (joinLines_cons o (o2 :: ols)) by discriminate.
      rewrite (joinLines_cons n) by (apply patchedLines_nonempty; discriminate).
      case_bool_decide as Hon.
      * subst n. cbn [app].
        destruct (IH nls done (pending ++ o ++ [Text.newline]) res ltac:(discriminate))
          as (res' & last' & Hp & Hl & Hres).
        exists res', last'.
        replace (done ++ pending ++ o ++ Text.newline :: joinLines (o2 :: ols))
          with (done ++ (pending ++ o ++ [Text.newline]) ++ joinLines (o2 :: ols))
          by (by rewrite <- !app_assoc).
        replace (len (done ++ pending) + len o + 1)
          with (len (done ++ pending ++ o ++ [Text.newline]))
          by (rewrite !len_app; unfold len; simpl; lia).
        split; [exact Hp|]. split; [exact Hl|].
        rewrite Hres. by rewrite <- !app_assoc.
      * cbn [app]. rewrite textPatchLoop_cons. cbn [Offset OldData NewData].
        rewrite slice_middle, bind_Ok_l.
        destruct (IH nls (done ++ pending ++ o) [Text.newline] ((res ++ pending) ++ n)
                    ltac:(discriminate)) as (res' & last' & Hp & Hl & Hres).
        exists res', last'.
        replace (done ++ pending ++ o ++ Text.newline :: joinLines (o2 :: ols))
          with ((done ++ pending ++ o) ++ [Text.newline] ++ joinLines (o2 :: ols))
          by (by rewrite <- !app_assoc).
        replace (len (done ++ pending) + len o) with (len (done ++ pending ++ o))
          by (rewrite !len_app; lia).
        replace (len (done ++ pending ++ o) + 1)
          with (len ((done ++ pending ++ o) ++ [Text.newline]))
          by (rewrite !len_app; unfold len; simpl; lia).
        split; [exact Hp|]. split; [exact Hl|].
        rewrite Hres. rewrite <- !app_assoc. reflexivity.
Qed.

Lemma Text_Patch_Compare_lines old new :
  Text.Patch old (Text.Compare old new)
  = Ok (joinLines (patchedLines (Text.splitLines old) (Text.splitLines new))).
Proof.
  unfold Text.Compare. case_bool_decide as Heq.
  - subst new. unfold Text.Patch. rewrite bool_decide_eq_true_2 by reflexivity.
    f_equal. unfold patchedLines. rewrite Nat.min_id, take_drop.
    symmetry. apply joinLines_splitLines.
  - destruct (textPatch_lineLoop (Text.splitLines old) (Text.splitLines new) [] [] []
                (splitLines_nonempty old)) as (res' & last' & Hp & Hl & Hres).
    simpl app in *. rewrite joinLines_splitLines in *.
    change (len (@nil byte)) with 0 in Hp.
    unfold Text.Patch. case_bool_decide as Hn.
    + (* no chunk: the lines agree as far as both go *)
      assert (Hc : Text.lineLoop (Text.splitLines old) (Text.splitLines new) 0 [] = []).
      { destruct (Text.lineLoop _ _ 0 []); [reflexivity|unfold len in Hn; simpl in Hn; lia]. }
      rewrite Hc in Hp. simpl in Hp. inversion Hp; subst.
      f_equal. rewrite <- Hres. reflexivity.
    + rewrite Hp, bind_Ok_l. case_bool_decide.
      * rewrite slice_from_in_range by lia. rewrite bind_Ok_l. f_equal.
        rewrite <- Hres. reflexivity.
      * f_equal. rewrite <- Hres. rewrite drop_ge by (unfold len in *; lia).
        by rewrite app_nil_r.
Qed.

Lemma splitLines_length s :
  len (Text.splitLines s) = 1 + occurrences Text.newline s.
Proof.
  induction s as [|b s IH]; [reflexivity|].
  rewrite occurrences_cons. simpl. pose proof (splitLines_nonempty s) as Hne.
  case_bool_decide as Hb.
  - subst b. rewrite decide_True by reflexivity.
    unfold len in *. simpl length. lia.
  - rewrite decide_False by assumption.
    destruct (Text.splitLines s) as [|line lines]; [congruence|].
    unfold len in *. simpl length in *. lia.
Qed.

Lemma splitLines_no_newline s :
  Forall (fun line => Text.newline ∉ line) (Text.splitLines s).
Proof.
  induction s as [|b s IH]; simpl.
  - repeat constructor. apply not_elem_of_nil.
  - case_bool_decide as Hb.
    + constructor; [apply not_elem_of_nil|assumption].
    + destruct (Text.splitLines s) as [|line lines].
      * repeat constructor. rewrite list_elem_of_singleton. congruence.
      * inversion IH; subst. constructor; [|assumption].
        rewrite not_elem_of_cons. split; [congruence|assumption].
Qed.

Lemma occurrences_app b x y :
  occurrences b (x ++ y) = occurrences b x + occurrences b y.
Proof.
  induction x as [|a x IH]; [unfold occurrences, len; simpl; lia|].
  cbn [app]. rewrite !occurrences_cons, IH. lia.
Qed.

Lemma occurrences_joinLines lines :
  lines <> [] -> Forall (fun line => Text.newline ∉ line) lines ->
  occurrences Text.newline (joinLines lines) = len lines - 1.
Proof.
  induction lines as [|line lines IH]; intros Hne Hall; [congruence|].
  inversion Hall as [|? ? Hline Hrest]; subst.
  destruct lines as [|l2 lines].
  - cbn [joinLines]. rewrite occurrences_zero by assumption. reflexivity.
  - rewrite joinLines_cons by discriminate.
    rewrite occurrences_app, occurrences_cons, IH by (assumption || discriminate).
    rewrite occurrences_zero by assumption.
    rewrite decide_True by reflexivity.
    unfold len. simpl length. lia.
Qed.

Lemma patchedLines_length ols nls :
  length (patchedLines ols nls) = length ols.
Proof.
  unfold patchedLines. rewrite length_app, length_take, length_drop. lia.
Qed.

Lemma patchedLines_Forall (P : list byte -> Prop) ols nls :
  Forall P ols -> Forall P nls -> Forall P (patchedLines ols nls).
Proof.
  intros Ho Hn. unfold patchedLines. apply Forall_app.
  split; [by apply Forall_take|by apply Forall_drop].
Qed.

Lemma patchedLines_line_feeds old new :
  occurrences Text.newline
    (joinLines (patchedLines (Text.splitLines old) (Text.splitLines new)))
  = occurrences Text.newline old.
Proof.
  rewrite occurrences_joinLines.
  - pose proof (splitLines_length old) as Hl.
    unfold len in *. rewrite patchedLines_length. lia.
  - apply patchedLines_nonempty, splitLines_nonempty.
  - apply patchedLines_Forall; apply splitLines_no_newline.
Qed.

(** What the text handler's [Patch] makes of the chunks its [Compare]
    returned.  It always returns; the result is the new lines up to the
    shorter line count, then the old lines past it, joined by line feeds.
    So the result has as many line feeds as old, and when old has no more
    lines than new it is the first lines of new, as many as old has. *)
Theorem Text_Patch_of_Compare old new :
  exists res,
    Text.Patch old (Text.Compare old new) = Ok res /\
    res = joinLines (patchedLines (Text.splitLines old) (Text.splitLines new)) /\
    occurrences Text.newline res = occurrences Text.newline old /\
    (len (Text.splitLines old) <= len (Text.splitLines new) ->
     res = joinLines (take (length (Text.splitLines old)) (Text.splitLines new))).
Proof.
  eexists. split; [apply Text_Patch_Compare_lines|].
  split; [reflexivity|]. split; [apply patchedLines_line_feeds|].
  intros Hle. unfold patchedLines.
  rewrite Nat.min_l by (unfold len in Hle; lia).
  by rewrite drop_all, app_nil_r.
Qed.

(** The text handler's round trip: [Patch] applied to the chunks of
    [Compare] gives new exactly when old and new have the same number of
    line feeds. *)
Theorem Text_round_trip_same_line_count old new :
  Text.Patch old (Text.Compare old new) = Ok new <->
  occurrences Text.newline old = occurrences Text.newline new.
Proof.
  rewrite Text_Patch_Compare_lines. split.
  - intros [= Hres]. rewrite <- Hres. symmetry. apply patchedLines_line_feeds.
  - intros Hc. f_equal.
    assert (Hl : length (Text.splitLines old) = length (Text.splitLines new)).
    { pose proof (splitLines_length old). pose proof (splitLines_length new).
      unfold len in *. lia. }
    unfold patchedLines. rewrite Hl, Nat.min_id.
    rewrite firstn_all. rewrite <- Hl, drop_all, app_nil_r.
    apply joinLines_splitLines.
Qed.

Lemma Text_round_trip_same_line_count_witness :
  Text.Patch (bytesOf "hello" ++ Text.newline :: bytesOf "world")
    (Text.Compare (bytesOf "hello" ++ Text.newline :: bytesOf "world")
                  (bytesOf "hello" ++ Text.newline :: bytesOf "mars"))
  = Ok (bytesOf "hello" ++ Text.newline :: bytesOf "mars").
Proof.
  apply (proj2 (Text_round_trip_same_line_count _ _)). vm_compute. reflexivity.
Defined.

(** *** Lines added or removed at the end *)

Lemma splitLines_app_newline a b :
  Text.splitLines (a ++ Text.newline :: b) = Text.splitLines a ++ Text.splitLines b.
Proof.
  induction a as [|x a IH]; [reflexivity|].
  cbn [app Text.splitLines].
  rewrite IH. case_bool_decide; [reflexivity|].
  pose proof (splitLines_nonempty a).
  destruct (Text.splitLines a); [congruence|reflexivity].
Qed.

Lemma lineLoop_prefix ls : forall more offset,
  Text.lineLoop ls (ls ++ more) offset [] = [] /\
  Text.lineLoop (ls ++ more) ls offset [] = [].
Proof.
  induction ls as [|l ls IH]; intros more offset.
  - split; [reflexivity|]. destruct more; reflexivity.
  - cbn [app]. rewrite !lineLoop_cons. rewrite bool_decide_eq_true_2 by reflexivity.
    simpl. apply IH.
Qed.

(** The text handler compares up to the shorter line count only: lines
    appended at the end, or removed from the end, give no chunk, and the
    patch gives back the old text. *)
Theorem Text_Compare_misses_lines_at_the_end old extra :
  Text.Compare old (old ++ Text.newline :: extra) = [] /\
  Text.Compare (old ++ Text.newline :: extra) old = [] /\
  Text.Patch old (Text.Compare old (old ++ Text.newline :: extra)) = Ok old.
Proof.
  assert (H1 : Text.Compare old (old ++ Text.newline :: extra) = []).
  { unfold Text.Compare. case_bool_decide; [reflexivity|].
    rewrite splitLines_app_newline. apply lineLoop_prefix. }
  assert (H2 : Text.Compare (old ++ Text.newline :: extra) old = []).
  { unfold Text.Compare. case_bool_decide; [reflexivity|].
    rewrite splitLines_app_newline. apply lineLoop_prefix. }
  split; [exact H1|]. split; [exact H2|]. rewrite H1. reflexivity.
Qed.

(** *** The chunks of the text handler *)

Lemma orderedFrom_weaken lo lo' cs : lo <= lo' -> orderedFrom lo' cs -> orderedFrom lo cs.
Proof. destruct cs; simpl; [auto|]. intros ? [? ?]. split; [lia|assumption]. Qed.

Lemma slice_after {A} (done line rest : list A) :
  slice (done ++ line ++ rest) (len done) (len done + len line) = Ok line.
Proof.
  rewrite <- len_app. replace (done ++ line ++ rest) with (done ++ line ++ rest) by reflexivity.
  apply slice_middle.
Qed.

Lemma lineLoop_chunks ols : forall nls done,
  Forall (fun line => Text.newline ∉ line) ols ->
  Forall (fun line => Text.newline ∉ line) nls ->
  orderedFrom (len done) (Text.lineLoop ols nls (len done) []) /\
  Forall (quotesOld (done ++ joinLines ols)) (Text.lineLoop ols nls (len done) []) /\
  Forall (fun c => OldData c <> NewData c /\
                   (Text.newline ∉ OldData c) /\ (Text.newline ∉ NewData c))
         (Text.lineLoop ols nls (len done) []).
Proof.
  induction ols as [|o ols IH]; intros nls done Ho Hn.
  - simpl. repeat split; constructor.
  - destruct nls as [|n nls]; [simpl; repeat split; constructor|].
    inversion Ho as [|? ? Ho1 Ho2]; subst. inversion Hn as [|? ? Hn1 Hn2]; subst.
    rewrite lineLoop_cons.
    assert (Hrest : exists rest, joinLines (o :: ols) = o ++ rest /\
              (ols <> [] -> rest = Text.newline :: joinLines ols)).
    { destruct ols as [|o2 ols].
      - exists []. simpl. rewrite app_nil_r. split; [reflexivity|congruence].
      - eexists. split; [apply joinLines_cons; discriminate|reflexivity]. }
    destruct Hrest as (rest & Hj & Hrest).
    set (cs := Text.lineLoop ols nls (len done + len o + 1) []).
    assert (Htail :
              orderedFrom (len done + len o + 1) cs /\
              Forall (quotesOld (done ++ joinLines (o :: ols))) cs /\
              Forall (fun c => OldData c <> NewData c /\
                       (Text.newline ∉ OldData c) /\ (Text.newline ∉ NewData c)) cs).
    { subst cs. destruct ols as [|o2 ols]; [simpl; repeat split; constructor|].
      specialize (IH nls (done ++ o ++ [Text.newline]) Ho2 Hn2).
      replace (len (done ++ o ++ [Text.newline])) with (len done + len o + 1) in IH
        by (rewrite !len_app; unfold len; simpl; lia).
      rewrite (joinLines_cons o) by discriminate.
      replace (done ++ o ++ Text.newline :: joinLines (o2 :: ols))
        with ((done ++ o ++ [Text.newline]) ++ joinLines (o2 :: ols))
        by (by rewrite <- !app_assoc).
      exact IH. }
    clearbody cs. destruct Htail as (Ht1 & Ht2 & Ht3).
    pose proof (len_nonneg o) as Hlo.
    case_bool_decide as Hon; cbn [app].
    + split; [eapply orderedFrom_weaken; [|exact Ht1]; lia|]. split; assumption.
    + split; [split; [cbn [Offset]; lia|]|split].
      * eapply orderedFrom_weaken; [|exact Ht1]. unfold chunkEnd; cbn [Offset OldData]. lia.
      * constructor; [|assumption]. unfold quotesOld. cbn [Offset OldData].
        rewrite Hj. apply slice_after.
      * constructor; [|assumption]. cbn [OldData NewData]. auto.
Qed.

(** The chunks of the text handler's [Compare]: each replaces one line of
    old that differs from the line of new ([OldData] is what old holds at
    the offset, neither side contains a line feed), and the chunks come in
    ascending order without overlap. *)
Theorem Text_Compare_chunks old new :
  Forall (fun c =>
            slice old (Offset c) (Offset c + len (OldData c)) = Ok (OldData c) /\
            OldData c <> NewData c /\
            (Text.newline ∉ OldData c) /\ (Text.newline ∉ NewData c))
         (Text.Compare old new) /\
  (forall (i j : nat) ci cj,
     Text.Compare old new !! i = Some ci -> Text.Compare old new !! j = Some cj ->
     (i < j)%nat ->
     Offset ci + len (OldData ci) <= Offset cj).
Proof.
  unfold Text.Compare. case_bool_decide as Heq.
  - split; [constructor|]. intros i j ci cj Hi. discriminate.
  - pose proof (lineLoop_chunks (Text.splitLines old) (Text.splitLines new) []
                  (splitLines_no_newline old) (splitLines_no_newline new)) as H.
    change (len (@nil byte)) with 0 in H. cbn [app] in H.
    rewrite joinLines_splitLines in H. destruct H as (H1 & H2 & H3). split.
    + rewrite Forall_forall in H2, H3. apply Forall_forall. intros c Hc.
      split; [exact (H2 c Hc)|exact (H3 c Hc)].
    + intros i j ci cj Hi Hj Hij.
      exact (proj2 (orderedFrom_pairwise _ _ _ _ _ _ H1 Hi Hj Hij)).
Qed.

Lemma Text_Compare_chunks_witness :
  0 + len [x61] <= 4.
Proof.
  exact (proj2 (Text_Compare_chunks [x61; x0a; x62; x0a; x63] [x78; x0a; x62; x0a; x79])
           0%nat 1%nat
           {| Offset := 0; OldData := [x61]; NewData := [x78]; ChunkType := "text" |}
           {| Offset := 4; OldData := [x63]; NewData := [x79]; ChunkType := "text" |}
           eq_refl eq_refl (le_n 1)).
Defined.

End TextFacts.

(** * More on the engine *)

Module EngineMore.
Import Engine EngineNotions RunNotions EngineFacts.

Section MoreOfOneRun.
Context (os : OS).

(** *** Handlers *)

(** [getHandler] after [RegisterHandler]: a file whose lower-cased
    extension is the registered one gets the new handler, every other file
    gets the handler it got before, a file whose extension is not
    registered gets the default handler, and registering an extension again
    replaces the earlier handler. *)
Theorem getHandler_RegisterHandler (e : DiffEngine) ext handler filename :
  (ToLower os (Ext os filename) = ext ->
   getHandler os (RegisterHandler e ext handler) filename = handler) /\
  (ToLower os (Ext os filename) <> ext ->
   getHandler os (RegisterHandler e ext handler) filename = getHandler os e filename) /\
  (handlers e !! ToLower os (Ext os filename) = None ->
   getHandler os e filename = defaultHandler e) /\
  (forall handler',
     RegisterHandler (RegisterHandler e ext handler') ext handler
     = RegisterHandler e ext handler).
Proof.
  unfold getHandler, RegisterHandler; simpl. repeat split.
  - intros <-. by rewrite lookup_insert_eq.
  - intros Hne. by rewrite lookup_insert_ne.
  - intros ->. reflexivity.
  - intros handler'. by rewrite insert_insert_eq.
Qed.

(** *** compareFiles *)

Lemma compressChunks_fields chunks level : forall cs,
  compressChunks os chunks level = Ok cs ->
  Offset <$> cs = Offset <$> chunks /\
  OldData <$> cs = OldData <$> chunks /\
  ChunkType <$> cs = ChunkType <$> chunks /\
  Ok <$> (NewData <$> cs)
    = (fun c => compressData os (NewData c) true level) <$> chunks.
Proof.
  intros cs H. apply (compressChunks_Ok os) in H.
  induction H as [|c c' chunks cs (H1 & H2 & H3 & H4) _ (IH1 & IH2 & IH3 & IH4)].
  - repeat split.
  - cbn [fmap list_fmap] in *.
    rewrite H1, H2, H3, H4, IH1, IH2, IH3, IH4. repeat split.
Qed.

(** A result of [compareFiles]: the operation is added or modified; there
    is at least one chunk; path, type, size, time, permissions, compression
    flag and hash come from the new file, its info and the configuration.
    An added file is one chunk at offset 0 that holds the (compressed)
    content; a modified file has the handler's chunks, with [NewData]
    passed through [compressData], which has returned for every one of
    them. *)
Theorem compareFiles_result_shape (e : DiffEngine) oldPath newPath newInfo result :
  compareFiles os e oldPath newPath newInfo = Ok (inr (Some result)) ->
  (Operation result = "added" \/ Operation result = "modified") /\
  Chunks result <> [] /\
  Path result = Base os newPath /\
  FileType result = GetFileType (getHandler os e newPath) /\
  Size result = InfoSize newInfo /\
  ModTime result = InfoModTime newInfo /\
  Permissions result = InfoMode newInfo /\
  IsCompressed result = CompressPatches (config e) /\
  NewHash result = calculateHash os newPath /\
  (Operation result = "added" ->
   exists newData d,
     ReadFile os newPath = ReadData newData /\
     compressData os newData (CompressPatches (config e))
       (CompressionLevel (config e)) = Ok d /\
     Chunks result =
       [ {| Offset := 0; OldData := []; NewData := d;
            ChunkType := GetFileType (getHandler os e newPath) |} ]) /\
  (Operation result = "modified" ->
   exists oldData newData chunks,
     ReadFile os oldPath = ReadData oldData /\
     ReadFile os newPath = ReadData newData /\
     oldData <> newData /\
     Compare (getHandler os e newPath) oldData newData = Ok (chunks, None) /\
     Offset <$> Chunks result = Offset <$> chunks /\
     OldData <$> Chunks result = OldData <$> chunks /\
     ChunkType <$> Chunks result = ChunkType <$> chunks /\
     Ok <$> (NewData <$> Chunks result)
       = (fun c => compressData os (NewData c) (CompressPatches (config e))
                     (CompressionLevel (config e))) <$> chunks).
Proof.
  intros H. pose proof (compareFiles_chunks_nonempty os e _ _ _ _ H) as Hne.
  unfold compareFiles in H.
  destruct (ReadFile os oldPath) as [oldData|err [|]] eqn:Eo.
  - destruct (ReadFile os newPath) as [newData|err' ?] eqn:En; [|discriminate].
    case_bool_decide as Heq; [discriminate|].
    apply result_bind_Ok in H as ([chunks [err|]] & Ec & H); [discriminate|].
    case_bool_decide as Hl; [discriminate|].
    apply result_bind_Ok in H as (chunks' & Hz & H).
    injection H as <-. cbn [Operation Chunks Path FileType Size ModTime
                            Permissions IsCompressed NewHash] in *.
    repeat split; auto; try discriminate.
    intros _. exists oldData, newData, chunks.
    split; [reflexivity|]. split; [reflexivity|]. split; [assumption|].
    split; [assumption|].
    destruct (CompressPatches (config e)).
    + by apply compressChunks_fields.
    + injection Hz as <-. repeat split.
      unfold compressData. cbn [negb]. by rewrite <- list_fmap_compose.
  - destruct (ReadFile os newPath) as [newData|err' ?] eqn:En; [|discriminate].
    apply result_bind_Ok in H as (d & Hd & H).
    injection H as <-. cbn [Operation Chunks Path FileType Size ModTime
                            Permissions IsCompressed NewHash] in *.
    repeat split; auto; try discriminate.
    intros _. exists newData, d. auto.
  - discriminate.
Qed.

(** [compareFiles] returns neither result nor error for two readable files
    with the same content, and returns an error exactly when the old file
    cannot be read for a reason other than not existing, when the new file
    cannot be read, or when the handler reports an error on two different
    contents. *)
Theorem compareFiles_no_result_or_error (e : DiffEngine) oldPath newPath newInfo :
  (forall data,
     ReadFile os oldPath = ReadData data -> ReadFile os newPath = ReadData data ->
     compareFiles os e oldPath newPath newInfo = Ok (inr None)) /\
  (forall err,
     compareFiles os e oldPath newPath newInfo = Ok (inl err) <->
     ReadFile os oldPath = ReadError err false \/
     (exists notExist,
        (forall data, ReadFile os oldPath <> ReadError data false) /\
        ReadFile os newPath = ReadError err notExist) \/
     (exists oldData newData chunks,
        ReadFile os oldPath = ReadData oldData /\
        ReadFile os newPath = ReadData newData /\
        oldData <> newData /\
        Compare (getHandler os e newPath) oldData newData = Ok (chunks, Some err))).
Proof.
  split.
  - intros data Ho Hn. unfold compareFiles. rewrite Ho, Hn.
    by rewrite bool_decide_eq_true_2.
  - intros err. rewrite compareFiles_error_iff. split.
    + intros [H|[(Hno & ne & H)|H]]; [by left| |by right; right].
      right. left. exists ne. auto.
    + intros [H|[(ne & Hno & H)|H]]; [by left| |by right; right].
      right. left. split; [assumption|]. by exists ne.
Qed.

End MoreOfOneRun.

Lemma getHandler_RegisterHandler_witness :
  getHandler demoOS
    (RegisterHandler demoEngine ""
       {| Engine.Compare := fun _ _ => Ok ([], None);
          Engine.Patch := fun original _ => Ok (original, None);
          Engine.GetFileType := "text" |}) "new/a.txt"
  = {| Engine.Compare := fun _ _ => Ok ([], None);
       Engine.Patch := fun original _ => Ok (original, None);
       Engine.GetFileType := "text" |}.
Proof.
  apply (proj1 (getHandler_RegisterHandler demoOS demoEngine "" _ "new/a.txt")).
  reflexivity.
Defined.


Lemma compareFiles_result_shape_witness :
  compareFiles demoOS demoEngine "old/b.bin" "new/b.bin"
    (vInfo (fileVisit "new/b.bin" 2)) = Ok (inr (Some addedBin)) /\
  (Operation addedBin = "added" \/ Operation addedBin = "modified") /\
  Chunks addedBin <> [] /\ Path addedBin = Base demoOS "new/b.bin".
Proof.
  split; [reflexivity|].
  destruct (compareFiles_result_shape demoOS demoEngine "old/b.bin" "new/b.bin"
              (vInfo (fileVisit "new/b.bin" 2)) addedBin eq_refl)
    as (H1 & H2 & H3 & _).
  repeat split; assumption.
Defined.


Lemma compareFiles_no_result_or_error_witness :
  compareFiles demoOS demoEngine "old/a.txt" "new/a.txt"
    (vInfo (fileVisit "new/a.txt" 5)) = Ok (inl "permission denied").
Proof.
  apply (proj2 (proj2 (compareFiles_no_result_or_error demoOS demoEngine
                         "old/a.txt" "new/a.txt" (vInfo (fileVisit "new/a.txt" 5)))
                  "permission denied")).
  left. reflexivity.
Defined.


Lemma len_snoc {A} (l : list A) (x : A) : len (l ++ [x]) = len l + 1.
Proof. unfold len. rewrite length_app. simpl. lia. Qed.

Lemma countOperation_snoc op rs r :
  countOperation op (rs ++ [r])
  = countOperation op rs + (if bool_decide (Operation r = op) then 1 else 0).
Proof.
  unfold countOperation, len. rewrite filter_app, length_app.
  rewrite filter_cons, filter_nil.
  case_bool_decide as Hop.
  - rewrite decide_True by assumption. simpl. lia.
  - rewrite decide_False by assumption. simpl. lia.
Qed.

Lemma countFileType_snoc t rs r :
  countFileType t (rs ++ [r])
  = countFileType t rs +
    (if bool_decide (Operation r <> "deleted" /\ FileType r = t) then 1 else 0).
Proof.
  unfold countFileType, len. rewrite filter_app, length_app.
  rewrite filter_cons, filter_nil.
  case_bool_decide as Hop.
  - rewrite decide_True by assumption. simpl. lia.
  - rewrite decide_False by assumption. simpl. lia.
Qed.

Lemma comparedSize_snoc rs r :
  comparedSize (rs ++ [r])
  = comparedSize rs + (if bool_decide (Operation r = "deleted") then 0 else Size r).
Proof.
  unfold comparedSize. induction rs as [|x rs IH]; cbn [app foldr].
  - lia.
  - rewrite IH. lia.
Qed.

Lemma compressedSize_snoc rs r :
  compressedSize (rs ++ [r])
  = compressedSize rs +
    (if IsCompressed r then
       match Chunks r with c :: _ => len (NewData c) | [] => 0 end
     else 0).
Proof.
  unfold compressedSize. induction rs as [|x rs IH]; cbn [app foldr].
  - lia.
  - rewrite IH. lia.
Qed.

Lemma tallies_empty : tallies emptySummary [].
Proof.
  unfold tallies, emptySummary; simpl.
  repeat split; try reflexivity. constructor.
Qed.

Section Tallies.
Context (os : OS) (e : DiffEngine) (oldDir newDir : string).

Lemma tallies_recordResult s rs oldPath newPath info result :
  compareFiles os e oldPath newPath info = Ok (inr (Some result)) ->
  tallies s rs -> tallies (recordResult s result info) (rs ++ [result]).
Proof.
  intros Hc (H1 & H2 & H3 & H4 & H5 & H6 & H7 & H8).
  destruct (compareFiles_Some_fields os e _ _ _ _ Hc) as (Hop & _ & Hsize).
  assert (Hnd : Operation result <> "deleted") by (destruct Hop as [-> | ->]; discriminate).
  unfold tallies, recordResult; cbn [TotalFiles AddedFiles ModifiedFiles DeletedFiles
    TotalSizeBytes CompressedBytes FileTypes].
  rewrite len_snoc, !countOperation_snoc, comparedSize_snoc, compressedSize_snoc.
  rewrite (bool_decide_eq_false_2 (Operation result = "deleted")) by assumption.
  repeat split.
  - lia.
  - case_bool_decide; lia.
  - case_bool_decide; lia.
  - lia.
  - lia.
  - destruct (IsCompressed result); lia.
  - intros t. rewrite countFileType_snoc, <- H7.
    destruct (decide (FileType result = t)) as [<-|Hne].
    + rewrite lookup_insert_eq. cbn [default].
      rewrite bool_decide_eq_true_2 by (split; [assumption|reflexivity]). reflexivity.
    + rewrite lookup_insert_ne by assumption.
      rewrite bool_decide_eq_false_2 by (intros [_ ?]; contradiction). lia.
  - apply Forall_app. split; [assumption|].
    constructor; [|constructor]. destruct Hop; auto.
Qed.

Lemma tallies_runJob st j st' :
  runJob os e oldDir st j = Ok st' ->
  tallies (summary st) (results st) ->
  tallies (summary st') (results st').
Proof.
  intros Hrun H. unfold runJob in Hrun.
  apply result_bind_Ok in Hrun as (r & Hc & Hrun).
  destruct r as [err|[result|]]; injection Hrun as <-;
    cbn [summary results]; try assumption.
  eapply tallies_recordResult; eassumption.
Qed.

Lemma tallies_runJobs js : forall st st',
  runJobs os e oldDir st js = Ok st' ->
  tallies (summary st) (results st) ->
  tallies (summary st') (results st').
Proof.
  induction js as [|j js IH]; intros st st' Hrun H; cbn [runJobs] in Hrun.
  - by injection Hrun as <-.
  - apply result_bind_Ok in Hrun as (st1 & H1 & Hrun).
    eapply IH; [eassumption|]. by eapply tallies_runJob.
Qed.

Lemma tallies_walkOld visits : forall st,
  tallies (summary st) (results st) ->
  tallies (summary (walkOld os oldDir newDir visits st).1)
          (results (walkOld os oldDir newDir visits st).1).
Proof.
  induction visits as [|u visits IH]; intros st H; cbn [walkOld]; [assumption|].
  destruct (vErr u) as [err|]; [assumption|].
  destruct (InfoIsDir _); [by apply IH|].
  destruct (Rel os oldDir (vPath u)) as [err|rel]; [assumption|].
  destruct (StatNotExist os _); [|by apply IH].
  apply IH. cbn [summary results].
  destruct H as (H1 & H2 & H3 & H4 & H5 & H6 & H7 & H8).
  unfold tallies; cbn [TotalFiles AddedFiles ModifiedFiles DeletedFiles
    TotalSizeBytes CompressedBytes FileTypes].
  rewrite len_snoc, !countOperation_snoc, comparedSize_snoc, compressedSize_snoc.
  cbn [Operation IsCompressed].
  repeat split; try (repeat case_bool_decide; try discriminate; try congruence; lia).
  - intros t. rewrite countFileType_snoc, <- H7. cbn [Operation].
    rewrite bool_decide_eq_false_2 by (intros [Hn _]; by apply Hn). lia.
  - apply Forall_app. split; [assumption|].
    constructor; [|constructor]. cbn [Operation]. auto.
Qed.

Lemma CompareDirs_tallies out s :
  CompareDirs os e oldDir newDir = Ok out ->
  outSummary out = Some s ->
  tallies s (outResults out).
Proof.
  unfold CompareDirs. case_bool_decide as Hc; [discriminate|].
  destruct (walkNew os e newDir (Walk os newDir) [] []) as [[werr jobs] lg].
  intros H. apply result_bind_Ok in H as (stuck & Hs & H).
  destruct werr as [err|]; [injection H as <-; discriminate|].
  case_bool_decide as Hstuck; [discriminate|].
  apply result_bind_Ok in H as (st & Hst & H).
  pose proof (tallies_walkOld (Walk os oldDir) st) as Hw.
  destruct (walkOld os oldDir newDir (Walk os oldDir) st) as [st' err'].
  injection H as <-. cbn [outSummary outResults]. intros [= <-]. apply Hw.
  eapply tallies_runJobs; [eassumption|]. apply tallies_empty.
Qed.

End Tallies.

Lemma countOperation_partition rs :
  Forall (fun r => Operation r = "added" \/ Operation r = "modified" \/
                   Operation r = "deleted") rs ->
  len rs = countOperation "added" rs + countOperation "modified" rs
           + countOperation "deleted" rs.
Proof.
  induction rs as [|r rs IH] using rev_ind; intros H.
  - reflexivity.
  - apply Forall_app in H as [Hrs Hr]. inversion Hr as [|? ? Hop _]; subst.
    rewrite len_snoc, !countOperation_snoc, IH by assumption.
    destruct Hop as [Hop | [Hop | Hop]]; rewrite Hop;
      repeat case_bool_decide; try discriminate; try congruence; lia.
Qed.

(** Whenever [CompareDirs] returns a summary, the summary tallies the
    returned results: the total is their number and the sum of the three
    operation counts, each operation count is the number of results with
    that operation, the total size adds the sizes of the added and modified
    files (not of the deleted ones), the compressed bytes add the first
    chunk of each compressed result, and the file-type table counts the
    added and modified results by type. *)
Theorem CompareDirs_summary_tallies_results
    (os : OS) (e : DiffEngine) (oldDir newDir : string)
    (out : Outcome) (s : DiffSummary) :
  CompareDirs os e oldDir newDir = Ok out ->
  outSummary out = Some s ->
  TotalFiles s = len (outResults out) /\
  AddedFiles s = countOperation "added" (outResults out) /\
  ModifiedFiles s = countOperation "modified" (outResults out) /\
  DeletedFiles s = countOperation "deleted" (outResults out) /\
  TotalFiles s = AddedFiles s + ModifiedFiles s + DeletedFiles s /\
  TotalSizeBytes s = comparedSize (outResults out) /\
  CompressedBytes s = compressedSize (outResults out) /\
  (forall t, default 0 (FileTypes s !! t) = countFileType t (outResults out)).
Proof.
  intros Hout Hs.
  destruct (CompareDirs_tallies os e oldDir newDir out s Hout Hs)
    as (H1 & H2 & H3 & H4 & H5 & H6 & H7 & H8).
  repeat split; try assumption.
  rewrite H1, H2, H3, H4. by apply countOperation_partition.
Qed.

Lemma pruned_run :
  exists out, CompareDirs prunedOS demoEngine "old" "new" = Ok out.
Proof.
  exact (CompareDirs_returns prunedOS demoEngine "old" "new" eq_refl
           (default_level_accepted _ _) (demo_handlers_return _)).
Qed.

Lemma CompareDirs_summary_tallies_results_witness :
  exists out s,
    CompareDirs prunedOS demoEngine "old" "new" = Ok out /\
    outSummary out = Some s /\
    TotalFiles s = 2 /\ AddedFiles s = 1 /\ DeletedFiles s = 1 /\
    TotalSizeBytes s = 2.
Proof.
  destruct pruned_run as [out Hout].
  pose proof Hout as Hv. vm_compute in Hv. injection Hv as Hv. subst out.
  eexists _, _. split; [exact Hout|]. split; [reflexivity|].
  destruct (CompareDirs_summary_tallies_results prunedOS demoEngine "old" "new"
              _ _ Hout eq_refl)
    as (H1 & H2 & H3 & H4 & H5 & H6 & _).
  split; [rewrite H1; vm_compute; reflexivity|].
  split; [rewrite H2; vm_compute; reflexivity|].
  split; [rewrite H4; vm_compute; reflexivity|].
  rewrite H6; vm_compute; reflexivity.
Defined.

Section Dispatch.
Context (os : OS) (e : DiffEngine) (oldDir newDir : string).

Lemma existsb_false_Forall {A} (f : A -> bool) (l : list A) :
  existsb f l = false <-> Forall (fun x => f x = false) l.
Proof.
  induction l as [|x l IH]; simpl.
  - split; [constructor|reflexivity].
  - rewrite orb_false_iff, IH, Forall_cons. reflexivity.
Qed.

(** What makes the first walk start a goroutine for a visit. *)
Lemma walkNew_jobs visits : forall jobs lg j,
  j ∈ (walkNew os e newDir visits jobs lg).1.2 ->
  j ∈ jobs \/
  exists v, v ∈ visits /\ vErr v = None /\ InfoIsDir (vInfo v) = false /\
    InfoSize (vInfo v) <= MaxFileSizeBytes (config e) /\
    Rel os newDir (vPath v) = inr (jRelPath j) /\
    Forall (fun pattern => Match os pattern (jRelPath j) = false)
           (IgnorePatterns (config e)) /\
    jPath j = vPath v /\ jInfo j = vInfo v.
Proof.
  induction visits as [|u visits IH]; intros jobs lg j; cbn [walkNew].
  - cbn. auto.
  - assert (Hlater : forall jobs' lg',
              j ∈ (walkNew os e newDir visits jobs' lg').1.2 ->
              (j ∈ jobs' -> j ∈ jobs \/
                 exists v, v ∈ u :: visits /\ vErr v = None /\
                   InfoIsDir (vInfo v) = false /\
                   InfoSize (vInfo v) <= MaxFileSizeBytes (config e) /\
                   Rel os newDir (vPath v) = inr (jRelPath j) /\
                   Forall (fun pattern => Match os pattern (jRelPath j) = false)
                          (IgnorePatterns (config e)) /\
                   jPath j = vPath v /\ jInfo j = vInfo v) ->
              j ∈ jobs \/
              exists v, v ∈ u :: visits /\ vErr v = None /\
                InfoIsDir (vInfo v) = false /\
                InfoSize (vInfo v) <= MaxFileSizeBytes (config e) /\
                Rel os newDir (vPath v) = inr (jRelPath j) /\
                Forall (fun pattern => Match os pattern (jRelPath j) = false)
                       (IgnorePatterns (config e)) /\
                jPath j = vPath v /\ jInfo j = vInfo v).
    { intros jobs' lg' Hin Hjobs'.
      destruct (IH jobs' lg' j Hin) as [Hj|(v & Hv & Hrest)]; [by apply Hjobs'|].
      right. exists v. split; [by apply elem_of_cons; right|exact Hrest]. }
    destruct (vErr u) as [err|] eqn:Eu; [cbn; auto|].
    destruct (InfoIsDir (vInfo u)) eqn:Ed; [intros H; apply (Hlater _ _ H); auto|].
    case_bool_decide as Hsz; [intros H; apply (Hlater _ _ H); auto|].
    destruct (Rel os newDir (vPath u)) as [err|rel] eqn:Er; [cbn; auto|].
    destruct (existsb _ _) eqn:Ex; [intros H; apply (Hlater _ _ H); auto|].
    intros H. apply (Hlater _ _ H). intros Hj.
    apply elem_of_app in Hj as [Hj|Hj]; [auto|].
    apply list_elem_of_singleton in Hj. subst j. right. exists u.
    cbn [jPath jRelPath jInfo].
    split; [apply elem_of_cons; auto|].
    repeat split; auto; try lia. by apply existsb_false_Forall.
Qed.

Lemma walkNew_keeps_jobs visits : forall jobs lg j,
  j ∈ jobs -> j ∈ (walkNew os e newDir visits jobs lg).1.2.
Proof.
  induction visits as [|u visits IH]; intros jobs lg j Hj; cbn [walkNew].
  - assumption.
  - destruct (vErr u); [assumption|].
    destruct (InfoIsDir _); [by apply IH|].
    case_bool_decide; [by apply IH|].
    destruct (Rel os newDir (vPath u)); [assumption|].
    destruct (existsb _ _); apply IH; [assumption|].
    apply elem_of_app. by left.
Qed.

Lemma walkNew_complete visits : forall jobs lg v relPath,
  Forall (cleanVisit os newDir) visits ->
  v ∈ visits -> InfoIsDir (vInfo v) = false ->
  InfoSize (vInfo v) <= MaxFileSizeBytes (config e) ->
  Rel os newDir (vPath v) = inr relPath ->
  Forall (fun pattern => Match os pattern relPath = false)
         (IgnorePatterns (config e)) ->
  {| jPath := vPath v; jRelPath := relPath; jInfo := vInfo v |}
    ∈ (walkNew os e newDir visits jobs lg).1.2.
Proof.
  induction visits as [|u visits IH]; intros jobs lg v relPath Hall Hin Hd Hsz Hr Hm;
    [inversion Hin|].
  inversion Hall as [|? ? [Hu [rel Hrel]] Hall']; subst.
  cbn [walkNew]. rewrite Hu.
  apply elem_of_cons in Hin as [->|Hin].
  - rewrite Hd. rewrite bool_decide_eq_false_2 by lia. rewrite Hr.
    apply existsb_false_Forall in Hm. rewrite Hm.
    apply walkNew_keeps_jobs. apply elem_of_app. right. by apply list_elem_of_singleton.
  - destruct (InfoIsDir (vInfo u)); [by apply IH|].
    case_bool_decide; [by apply IH|].
    rewrite Hrel. destruct (existsb _ _); by apply IH.
Qed.

(** The results of a run that returns: those of the goroutines, then the
    deletions. *)
Lemma CompareDirs_results out :
  CompareDirs os e oldDir newDir = Ok out ->
  (is_Some (walkNew os e newDir (Walk os newDir) [] []).1.1 /\
   outResults out = []) \/
  exists st,
    results st = (omap (jobResult os e oldDir)
                    (completion os (dispatched os e newDir))).*1 /\
    outResults out = results (walkOld os oldDir newDir (Walk os oldDir) st).1.
Proof.
  intros Hout.
  destruct (CompareDirs_Ok os e oldDir newDir out Hout)
    as [(werr & Hw & _ & _ & Hr)|(Hw & st & Hst & ->)].
  - left. rewrite Hw. eauto.
  - right. exists st. rewrite Hst. auto.
Qed.

Lemma walkOld_deleted visits : forall st r,
  r ∈ results (walkOld os oldDir newDir visits st).1 ->
  r ∈ results st \/
  exists v, v ∈ visits /\ vErr v = None /\
            deletedResult os oldDir newDir v = Some r.
Proof.
  induction visits as [|u visits IH]; intros st r; cbn [walkOld]; [auto|].
  assert (Hlater : forall st',
            r ∈ results (walkOld os oldDir newDir visits st').1 ->
            (r ∈ results st' -> r ∈ results st \/
               exists v, v ∈ u :: visits /\ vErr v = None /\
                         deletedResult os oldDir newDir v = Some r) ->
            r ∈ results st \/
            exists v, v ∈ u :: visits /\ vErr v = None /\
                      deletedResult os oldDir newDir v = Some r).
  { intros st' Hin Hst'.
    destruct (IH st' r Hin) as [Hr|(v & Hv & Hrest)]; [by apply Hst'|].
    right. exists v. split; [by apply elem_of_cons; right|exact Hrest]. }
  destruct (vErr u) as [err|] eqn:Eu; [auto|].
  destruct (InfoIsDir (vInfo u)) eqn:Ed; [intros H; apply (Hlater _ H); auto|].
  destruct (Rel os oldDir (vPath u)) as [err|rel] eqn:Er; [auto|].
  destruct (StatNotExist os _) eqn:Es; [|intros H; apply (Hlater _ H); auto].
  intros H. apply (Hlater _ H). cbn [results]. intros Hr.
  apply elem_of_app in Hr as [Hr|Hr]; [auto|].
  apply list_elem_of_singleton in Hr. subst r. right. exists u.
  split; [apply elem_of_cons; auto|]. split; [assumption|].
  unfold deletedResult. rewrite Ed, Er, Es. reflexivity.
Qed.

End Dispatch.

(** The first walk starts a comparison only for an entry that is a file,
    is not larger than [MaxFileSizeBytes] and whose relative path matches no
    ignore pattern; and when the walk meets no error, it starts one for
    every such entry. *)
Theorem dispatched_jobs_pass_the_filters (os : OS) (e : DiffEngine) (newDir : string) :
  (forall j, j ∈ dispatched os e newDir ->
     exists v, v ∈ Walk os newDir /\ vErr v = None /\
       InfoIsDir (vInfo v) = false /\
       InfoSize (vInfo v) <= MaxFileSizeBytes (config e) /\
       Rel os newDir (vPath v) = inr (jRelPath j) /\
       Forall (fun pattern => Match os pattern (jRelPath j) = false)
              (IgnorePatterns (config e)) /\
       jPath j = vPath v /\ jInfo j = vInfo v) /\
  (Forall (cleanVisit os newDir) (Walk os newDir) ->
   forall v relPath,
     v ∈ Walk os newDir -> InfoIsDir (vInfo v) = false ->
     InfoSize (vInfo v) <= MaxFileSizeBytes (config e) ->
     Rel os newDir (vPath v) = inr relPath ->
     Forall (fun pattern => Match os pattern relPath = false)
            (IgnorePatterns (config e)) ->
     {| jPath := vPath v; jRelPath := relPath; jInfo := vInfo v |}
       ∈ dispatched os e newDir).
Proof.
  split.
  - intros j Hj. unfold dispatched in Hj.
    destruct (walkNew_jobs os e newDir _ _ _ _ Hj) as [Hnil|Hv]; [inversion Hnil|exact Hv].
  - intros Hclean v relPath Hin Hd Hsz Hr Hm. unfold dispatched.
    by apply walkNew_complete.
Qed.

Lemma dispatched_jobs_pass_the_filters_witness :
  exists v, v ∈ Walk demoOS "new" /\ vErr v = None /\
    InfoIsDir (vInfo v) = false /\
    InfoSize (vInfo v) <= MaxFileSizeBytes (config demoEngine) /\
    Rel demoOS "new" (vPath v) = inr "a.txt" /\
    Forall (fun pattern => Match demoOS pattern "a.txt" = false)
           (IgnorePatterns (config demoEngine)) /\
    "new/a.txt" = vPath v /\ vInfo (fileVisit "new/a.txt" 5) = vInfo v.
Proof.
  apply (proj1 (dispatched_jobs_pass_the_filters demoOS demoEngine "new")
           {| jPath := "new/a.txt"; jRelPath := "a.txt";
              jInfo := vInfo (fileVisit "new/a.txt" 5) |}).
  vm_compute. constructor.
Defined.

(** Every added or modified result of [CompareDirs] is what [compareFiles]
    returned for a file of the new tree that passed the filters: its size
    is within [MaxFileSizeBytes], and its path is the base name of the
    file. *)
Theorem CompareDirs_compared_results
    (os : OS) (e : DiffEngine) (oldDir newDir : string)
    (out : Outcome) (r : DiffResult) :
  CompareDirs os e oldDir newDir = Ok out ->
  r ∈ outResults out ->
  Operation r <> "deleted" ->
  exists v relPath,
    v ∈ Walk os newDir /\ InfoIsDir (vInfo v) = false /\
    Rel os newDir (vPath v) = inr relPath /\
    Forall (fun pattern => Match os pattern relPath = false)
           (IgnorePatterns (config e)) /\
    compareFiles os e (Join os oldDir relPath) (vPath v) (vInfo v)
      = Ok (inr (Some r)) /\
    Path r = Base os (vPath v) /\
    Size r = InfoSize (vInfo v) /\
    Size r <= MaxFileSizeBytes (config e) /\
    (Operation r = "added" \/ Operation r = "modified") /\
    Chunks r <> [].
Proof.
  intros Hout Hr Hop.
  destruct (CompareDirs_results os e oldDir newDir out Hout)
    as [[_ Hnil]|(st & Hst & Hres)].
  { rewrite Hnil in Hr. inversion Hr. }
  rewrite Hres in Hr.
  destruct (walkOld_spec os oldDir newDir (Walk os oldDir) st)
    as (deleted & H1 & Hdel & _).
  rewrite H1, Hst in Hr. apply elem_of_app in Hr as [Hr|Hr].
  2:{ rewrite Forall_forall in Hdel. specialize (Hdel r Hr). contradiction. }
  apply jobResult_in_results in Hr as (j & Hj & Hc).
  rewrite (completion_perm os) in Hj.
  unfold dispatched in Hj.
  destruct (walkNew_jobs os e newDir _ _ _ _ Hj)
    as [Hnil|(v & Hv & _ & Hd & Hsz & Hrel & Hm & Hp & Hi)]; [inversion Hnil|].
  unfold jobCompare in Hc. rewrite Hp, Hi in Hc.
  destruct (compareFiles_Some_fields os e _ _ _ _ Hc) as (Hop' & Hpath & Hsize).
  pose proof (compareFiles_chunks_nonempty os e _ _ _ _ Hc) as Hne.
  exists v, (jRelPath j). repeat split; try assumption. lia.
Qed.

Lemma CompareDirs_compared_results_witness :
  exists out v relPath,
    CompareDirs prunedOS demoEngine "old" "new" = Ok out /\
    addedBin ∈ outResults out /\
    v ∈ Walk prunedOS "new" /\ InfoIsDir (vInfo v) = false /\
    Rel prunedOS "new" (vPath v) = inr relPath /\
    compareFiles prunedOS demoEngine (Join prunedOS "old" relPath) (vPath v) (vInfo v)
      = Ok (inr (Some addedBin)) /\
    Size addedBin <= MaxFileSizeBytes (config demoEngine).
Proof.
  destruct pruned_run as [out Hout].
  assert (Hin : addedBin ∈ outResults out).
  { pose proof Hout as Hv. vm_compute in Hv. injection Hv as Hv. subst out.
    vm_compute. constructor. }
  destruct (CompareDirs_compared_results prunedOS demoEngine "old" "new" out addedBin
              Hout Hin)
    as (v & relPath & H1 & H2 & H3 & _ & H5 & _ & _ & H8 & _); [discriminate|].
  exists out, v, relPath. auto 10.
Defined.

(** The deleted results of [CompareDirs] come from the files of the old
    tree that have no counterpart in the new tree, with their relative
    path and size; neither the size limit nor the ignore patterns apply to
    them.  When the walks meet no error, the results are those of the
    comparisons followed by one deletion per such file, in walk order. *)
Theorem CompareDirs_deleted_results
    (os : OS) (e : DiffEngine) (oldDir newDir : string) (out : Outcome) :
  CompareDirs os e oldDir newDir = Ok out ->
  (forall r, r ∈ outResults out ->
     Operation r = "deleted" ->
     exists v, v ∈ Walk os oldDir /\ vErr v = None /\
               deletedResult os oldDir newDir v = Some r) /\
  (Forall (cleanVisit os newDir) (Walk os newDir) ->
   Forall (cleanVisit os oldDir) (Walk os oldDir) ->
   outResults out
   = (omap (jobResult os e oldDir) (completion os (dispatched os e newDir))).*1
     ++ omap (deletedResult os oldDir newDir) (Walk os oldDir)).
Proof.
  intros Hout.
  destruct (CompareDirs_results os e oldDir newDir out Hout)
    as [[[werr Hw] Hnil]|(st & Hst & Hres)].
  { split.
    - intros r Hr. rewrite Hnil in Hr. inversion Hr.
    - intros Hnew. exfalso.
      rewrite (walkNew_clean os e newDir _ [] [] Hnew) in Hw. discriminate. }
  split.
  - intros r Hr Hop. rewrite Hres in Hr.
    apply walkOld_deleted in Hr as [Hr|Hv]; [|exact Hv].
    rewrite Hst in Hr. apply jobResult_in_results in Hr as (j & _ & Hc).
    destruct (compareFiles_Some_fields os e _ _ _ _ Hc) as ([Ha|Hm] & _); congruence.
  - intros Hnew Hold. rewrite Hres, walkOld_clean_results, Hst by assumption.
    reflexivity.
Qed.

Lemma CompareDirs_deleted_results_witness :
  exists out,
    CompareDirs prunedOS demoEngine "old" "new" = Ok out /\
    Path <$> outResults out = ["b.bin"; "c.bin"] /\
    Size <$> omap (deletedResult prunedOS "old" "new") (Walk prunedOS "old")
      = [1024 * 1024 * 1024].
Proof.
  destruct pruned_run as [out Hout]. exists out. split; [exact Hout|].
  rewrite (proj2 (CompareDirs_deleted_results prunedOS demoEngine "old" "new" out Hout)).
  - vm_compute. auto.
  - repeat constructor; eexists; reflexivity.
  - repeat constructor; eexists; reflexivity.
Defined.

End EngineMore.
